(** * Scan and binary-join operators of the vectorized PromQL engine

    A shallow embedding of [execution/scan/vector_selector.go] and
    [execution/binary/vector.go].  Go's [int64] is [Z] with its wrap-around
    written out, [uint64] identifiers and hashes are [N], a [float64] is its
    IEEE-754 bit pattern, Go maps are [gmap]s iterated in an arbitrary order,
    a run-time panic is an explicit outcome, and a [sync.Once] is a flag. *)

From Stdlib Require Import ZArith Lia.
From stdpp Require Import base option list gmap strings sorting.

(** ** Go base types *)

Module Go.

Local Open Scope Z_scope.

Definition min_int64 : Z := - 2 ^ 63.
Definition max_int64 : Z := 2 ^ 63 - 1.

Definition int64_range (z : Z) : Prop := min_int64 <= z <= max_int64.

(** Two's complement wrap-around of a 64-bit signed integer. *)
Definition wrap64 (z : Z) : Z := (z + 2 ^ 63) mod 2 ^ 64 - 2 ^ 63.

Definition add64 (a b : Z) : Z := wrap64 (a + b).
Definition sub64 (a b : Z) : Z := wrap64 (a - b).
Definition mul64 (a b : Z) : Z := wrap64 (a * b).

(** The Go type [error]; [nil] is the absence of one. *)
Definition error : Type := string.

(** A Go result pair [(value, error)]. *)
Inductive result (A : Type) : Type :=
  | Ok (a : A)
  | Err (e : error).
Arguments Ok {A} a.
Arguments Err {A} e.

(** A computation either returns or panics (index out of range, nil
    dereference). *)
Inductive outcome (A : Type) : Type :=
  | Return (a : A)
  | Panic.
Arguments Return {A} a.
Arguments Panic {A}.

Definition bind {A B : Type} (m : outcome A) (k : A -> outcome B) : outcome B :=
  match m with
  | Return a => k a
  | Panic => Panic
  end.

(** [l[i] = x] on a slice: out of range panics. *)
Definition store {A : Type} (l : list A) (i : nat) (x : A) : outcome (list A) :=
  if decide (i < length l)%nat then Return (<[i:=x]> l) else Panic.

(** [l[i]] on a slice: out of range panics. *)
Definition load {A : Type} (l : list A) (i : nat) : outcome A :=
  match l !! i with
  | Some x => Return x
  | None => Panic
  end.

(** [m[k]] on a map of slices: a missing key reads as the nil slice. *)
Definition mapget {A : Type} (m : gmap N (list A)) (k : N) : list A :=
  default [] (m !! k).

End Go.

Export Go.

Global Instance outcome_ret : MRet outcome := fun _ a => Return a.
Global Instance outcome_bind : MBind outcome := fun _ _ k m => bind m k.

(** ** Label sets (the external [labels] package) *)

Module labels.

Record Label : Type := { Name : string; Value : string }.

(** [labels.Labels]: a slice of labels, sorted by name when well formed. *)
Definition Labels : Type := list Label.

Definition MetricName : string := "__name__".

(** Go compares strings bytewise, as [String.ltb] does. *)
Definition name_lt (a b : Label) : Prop := String.ltb (Name a) (Name b) = true.

(** A valid label set: names strictly increasing. *)
Definition sorted_by_name (ls : Labels) : Prop :=
  forall i j a b, ls !! i = Some a -> ls !! j = Some b -> (i < j)%nat -> name_lt a b.

Definition mem (n : string) (ns : list string) : bool :=
  existsb (String.eqb n) ns.

(** Modelled from the spec: the label builder of the external labels package,
    which is not part of the sources.  [Del] removes the named labels, [Keep]
    retains only the named labels, and [build] (the builder's [Labels]
    method) yields the resulting label set in the order of the base set. *)
Record Builder : Type := { base : Labels; del : list string }.

Definition NewBuilder (b : Labels) : Builder := {| base := b; del := [] |}.

Definition Del (ns : list string) (b : Builder) : Builder :=
  {| base := base b; del := del b ++ ns |}.

Definition Keep (ns : list string) (b : Builder) : Builder :=
  {| base := base b;
     del := del b ++ map Name (filter (fun l => mem (Name l) ns = false) (base b)) |}.

Definition build (b : Builder) : Labels :=
  filter (fun l => mem (Name l) (del b) = false) (base b).

End labels.

(** ** The shared model package *)

Module model.

(** A float64 as its IEEE-754 bit pattern. *)
Definition float64 : Type := N.

(** [model.Series]: an output-local ordinal and a label set. *)
Record Series : Type := { ID : N; Metric : labels.Labels }.

(** [model.StepVector]: one timestamp and two parallel arrays. *)
Record StepVector : Type :=
  { T : Z; SampleIDs : list N; Samples : list float64 }.

(** Modelled from the spec: the vector pool of the model package, which is not
    part of the sources.  It is a free list: [GetVectorBatch] hands out an
    empty batch, [GetStepVector] an empty step vector carrying the given
    timestamp, [PutStepVector] and [PutVectors] return buffers to the pool,
    and [SetStepSize] records a sizing hint. *)
Record VectorPool : Type :=
  { stepSize : nat;
    releasedSteps : list StepVector;
    releasedBatches : list (list StepVector) }.

Definition NewVectorPool : VectorPool :=
  {| stepSize := 0; releasedSteps := []; releasedBatches := [] |}.

Definition GetVectorBatch (p : VectorPool) : list StepVector := [].

Definition GetStepVector (p : VectorPool) (t : Z) : StepVector :=
  {| T := t; SampleIDs := []; Samples := [] |}.

Definition PutStepVector (v : StepVector) (p : VectorPool) : VectorPool :=
  {| stepSize := stepSize p;
     releasedSteps := releasedSteps p ++ [v];
     releasedBatches := releasedBatches p |}.

Definition PutVectors (b : list StepVector) (p : VectorPool) : VectorPool :=
  {| stepSize := stepSize p;
     releasedSteps := releasedSteps p;
     releasedBatches := releasedBatches p ++ [b] |}.

Definition SetStepSize (n : nat) (p : VectorPool) : VectorPool :=
  {| stepSize := n;
     releasedSteps := releasedSteps p;
     releasedBatches := releasedBatches p |}.

(** [model.VectorOperator]: the interface every plan node implements.  The
    receiver is mutated by a call, so each method returns the new state.
    [GetPool] hands out the operator's pool, which callers mutate through
    [MapPool]. *)
Class VectorOperator (Op : Type) : Type :=
  { op_Series : Op -> outcome (result (list labels.Labels) * Op);
    op_Next : Op -> outcome (result (list StepVector) * Op);
    op_GetPool : Op -> VectorPool;
    op_MapPool : (VectorPool -> VectorPool) -> Op -> Op }.

End model.

(** ** The scan operator: [execution/scan/vector_selector.go] *)

Module scan.

Import model.
Local Open Scope Z_scope.

(** [value.StaleNaN], the bit pattern of the stale marker, and
    [value.IsStaleNaN], which compares bit patterns. *)
Definition StaleNaN : float64 := 0x7ff0000000000002%N.

Definition IsStaleNaN (v : float64) : bool := N.eqb v StaleNaN.

(** The sample iterator consumed by the scan ([storage.MemoizedSeriesIterator],
    external): [Seek] advances to the first sample at or after a timestamp and
    reports whether there is one, [At] reads the sample under the cursor,
    [PeekPrev] the sample just before it.  [Raw] is the iterator handed out by
    the storage, which [NewMemoizedIterator] wraps with a lookback window. *)
Class SeriesIterator (Raw It : Type) : Type :=
  { NewMemoizedIterator : Raw -> Z -> It;
    Seek : Z -> It -> bool * It;
    At : It -> Z * float64;
    PeekPrev : It -> option (Z * float64) }.

(** Modelled from the spec: one series as resolved by the series-selection
    collaborator ([engstore.SignedSeries], not part of the sources): its
    labels, its signature and its sample iterator. *)
Record SignedSeries (Raw : Type) : Type :=
  { sLabels : labels.Labels; Signature : N; Iterator : Raw }.
Arguments sLabels {Raw} _.
Arguments Signature {Raw} _.
Arguments Iterator {Raw} _.

Section Scan.

Context {Raw It : Type} `{!SeriesIterator Raw It}.

Record vectorScanner : Type :=
  { labels : labels.Labels; signature : N; samples : It }.

Record vectorSelector : Type :=
  { (** [storage.GetSeries(ctx, shard, numShards)] of the collaborator *)
    storage : Z -> Z -> result (list (SignedSeries Raw));
    scanners : list vectorScanner;
    series : list labels.Labels;
    once : bool;
    vectorPool : VectorPool;
    numSteps : Z;
    mint : Z;
    maxt : Z;
    lookbackDelta : Z;
    step : Z;
    currentStep : Z;
    offset : Z;
    shard : Z;
    numShards : Z }.

(** Modelled from the spec: the query window configuration ([query.Options],
    not part of the sources), in the millisecond integers the constructor
    reads from it; [NumSteps] is the batch width. *)
Record Options : Type :=
  { Start : Z; End_ : Z; Step : Z; LookbackDelta : Z; NumSteps : Z }.

Definition NewVectorSelector (pool : VectorPool)
    (selector : Z -> Z -> result (list (SignedSeries Raw)))
    (queryOpts : Options) (offset_ms : Z) (shard_ numShards_ : Z) : vectorSelector :=
  {| storage := selector;
     scanners := [];
     series := [];
     once := false;
     vectorPool := pool;
     numSteps := NumSteps queryOpts;
     mint := Start queryOpts;
     maxt := End_ queryOpts;
     lookbackDelta := LookbackDelta queryOpts;
     step := Step queryOpts;
     currentStep := Start queryOpts;
     offset := offset_ms;
     shard := shard_;
     numShards := numShards_ |}.

(** [selectPoint]: the Go triple [(t, v, ok)] is an option; the iterator is
    advanced by the seek, so its new state is returned as well. *)
Definition selectPoint (it : It) (ts lookbackDelta_ offset_ : Z)
    : option (Z * float64) * It :=
  let refTime := sub64 ts offset_ in
  let '(ok, it) := Seek refTime it in
  let '(t, v) := if ok then At it else (0, 0%N) in
  let candidate :=
    if negb ok || (refTime <? t) then
      match PeekPrev it with
      | None => None
      | Some (t, v) =>
          if t <? sub64 refTime lookbackDelta_ then None else Some (t, v)
      end
    else Some (t, v) in
  match candidate with
  | None => (None, it)
  | Some (t, v) => if IsStaleNaN v then (None, it) else (Some (t, v), it)
  end.

(** [loadSeries]: the body runs under [o.once]; the error lives in a local
    of the call that ran the body. *)
Definition loadSeries (o : vectorSelector) : option error * vectorSelector :=
  if once o then (None, o)
  else
    match storage o (shard o) (numShards o) with
    | Err loadErr =>
        (Some loadErr,
         {| storage := storage o; scanners := scanners o; series := series o;
            once := true; vectorPool := vectorPool o; numSteps := numSteps o;
            mint := mint o; maxt := maxt o; lookbackDelta := lookbackDelta o;
            step := step o; currentStep := currentStep o; offset := offset o;
            shard := shard o; numShards := numShards o |})
    | Ok ss =>
        (None,
         {| storage := storage o;
            scanners :=
              map (fun s => {| labels := sLabels s;
                               signature := Signature s;
                               samples := NewMemoizedIterator (Iterator s) (lookbackDelta o) |})
                  ss;
            series := map sLabels ss;
            once := true;
            vectorPool := SetStepSize (length ss) (vectorPool o);
            numSteps := numSteps o;
            mint := mint o; maxt := maxt o; lookbackDelta := lookbackDelta o;
            step := step o; currentStep := currentStep o; offset := offset o;
            shard := shard o; numShards := numShards o |})
    end.

Definition Series (o : vectorSelector)
    : outcome (result (list labels.Labels) * vectorSelector) :=
  match loadSeries o with
  | (Some err, o) => Return (Err err, o)
  | (None, o) => Return (Ok (series o), o)
  end.

(** [vectors[currStep].SampleIDs = append(...)] and the same for [Samples]. *)
Definition appendSample (vectors : list StepVector) (currStep : nat)
    (sig : N) (v : float64) : outcome (list StepVector) :=
  sv ← load vectors currStep;
  store vectors currStep
    {| T := T sv; SampleIDs := SampleIDs sv ++ [sig]; Samples := Samples sv ++ [v] |}.

(** The inner loop of [Next] for one series: [remaining] counts the
    iterations left before [currStep] reaches [numSteps]. *)
Fixpoint stepLoop (o : vectorSelector) (sig : N) (remaining : nat)
    (currStep : nat) (seriesTs : Z) (it : It) (vectors : list StepVector)
    : outcome (It * list StepVector) :=
  match remaining with
  | O => Return (it, vectors)
  | S remaining =>
      if seriesTs <=? maxt o then
        let vectors :=
          if (length vectors <=? currStep)%nat
          then vectors ++ [GetStepVector (vectorPool o) seriesTs]
          else vectors in
        let '(pt, it) := selectPoint it seriesTs (lookbackDelta o) (offset o) in
        vectors ←
          match pt with
          | Some (_, v) => appendSample vectors currStep sig v
          | None => Return vectors
          end;
        stepLoop o sig remaining (S currStep) (add64 seriesTs (step o)) it vectors
      else Return (it, vectors)
  end.

(** The outer loop of [Next] over [o.scanners]; the scanners' iterators are
    pointers, so their advanced states are kept. *)
Fixpoint scanLoop (o : vectorSelector) (ts : Z) (todo : list vectorScanner)
    (vectors : list StepVector)
    : outcome (list vectorScanner * list StepVector) :=
  match todo with
  | [] => Return ([], vectors)
  | sc :: todo =>
      '(it, vectors) ← stepLoop o (signature sc) (Z.to_nat (numSteps o)) 0 ts
                          (samples sc) vectors;
      '(done, vectors) ← scanLoop o ts todo vectors;
      Return ({| labels := labels sc; signature := signature sc; samples := it |}
                :: done, vectors)
  end.

Definition Next (o : vectorSelector)
    : outcome (result (list StepVector) * vectorSelector) :=
  if maxt o <? currentStep o then Return (Ok [], o)
  else
    match loadSeries o with
    | (Some err, o) => Return (Err err, o)
    | (None, o) =>
        let vectors := GetVectorBatch (vectorPool o) in
        let ts := currentStep o in
        '(scs, vectors) ← scanLoop o ts (scanners o) vectors;
        let step' := if step o =? 0 then 1 else step o in
        Return (Ok vectors,
          {| storage := storage o; scanners := scs; series := series o;
             once := once o; vectorPool := vectorPool o; numSteps := numSteps o;
             mint := mint o; maxt := maxt o; lookbackDelta := lookbackDelta o;
             step := step';
             currentStep := add64 (currentStep o) (mul64 step' (numSteps o));
             offset := offset o; shard := shard o; numShards := numShards o |})
    end.

Definition GetPool (o : vectorSelector) : VectorPool := vectorPool o.

Definition MapPool (f : VectorPool -> VectorPool) (o : vectorSelector) : vectorSelector :=
  {| storage := storage o; scanners := scanners o; series := series o;
     once := once o; vectorPool := f (vectorPool o); numSteps := numSteps o;
     mint := mint o; maxt := maxt o; lookbackDelta := lookbackDelta o;
     step := step o; currentStep := currentStep o; offset := offset o;
     shard := shard o; numShards := numShards o |}.

#[global] Instance vectorSelector_operator : VectorOperator vectorSelector :=
  {| op_Series := Series; op_Next := Next;
     op_GetPool := GetPool; op_MapPool := MapPool |}.

End Scan.

Arguments vectorScanner : clear implicits.
Arguments vectorSelector : clear implicits.

End scan.

(** ** The binary-join operator: [execution/binary/vector.go] *)

Module binary.

Import model.
Local Open Scope Z_scope.

(** [parser.VectorMatchCardinality] and [parser.VectorMatching]. *)
Inductive VectorMatchCardinality : Type :=
  | CardOneToOne
  | CardManyToOne
  | CardOneToMany
  | CardManyToMany.

#[global] Instance VectorMatchCardinality_eq_dec : EqDecision VectorMatchCardinality.
Proof. solve_decision. Defined.

Record VectorMatching : Type :=
  { Card : VectorMatchCardinality;
    MatchingLabels : list string;
    On : bool;
    Include : list string }.

(** The hash functions of the external labels package. *)
Class LabelHasher : Type :=
  { HashWithoutLabels : labels.Labels -> list string -> N;
    HashForLabels : labels.Labels -> list string -> N }.

(** The order in which a [range] statement visits a Go map is unspecified:
    any enumeration of the entries, each exactly once. *)
Class MapOrder : Type :=
  { rangeOrder : forall V : Type, gmap N V -> list (N * V);
    rangeOrder_perm : forall (V : Type) (m : gmap N V), rangeOrder V m ≡ₚ map_to_list m }.
Arguments rangeOrder {_ _} m.

(** A row of the output cache. *)
Record sample : Type := { t : Z; v : float64 }.

(** Modelled from the spec: the join table ([table.go], not part of the
    sources), as the record of what [newTable] is given.  What
    [execBinaryOperation] computes from two step vectors is left open: it
    is a parameter. *)
Record table (operation : Type) : Type :=
  { tPool : VectorPool;
    tCard : VectorMatchCardinality;
    tOperation : operation;
    tOutputValues : list sample;
    tHighCardIndex : list (option N);
    tLowCardIndex : list (list N) }.
Arguments tPool {operation} _.
Arguments tCard {operation} _.
Arguments tOperation {operation} _.
Arguments tOutputValues {operation} _.
Arguments tHighCardIndex {operation} _.
Arguments tLowCardIndex {operation} _.

Class JoinTable (operation : Type) : Type :=
  { execBinaryOperation :
      table operation -> StepVector -> StepVector -> StepVector * table operation }.

Definition newTable {operation : Type} (pool : VectorPool)
    (card : VectorMatchCardinality) (op : operation) (outputValues : list sample)
    (highCardIndex : list (option N)) (lowCardIndex : list (list N)) : table operation :=
  {| tPool := pool; tCard := card; tOperation := op; tOutputValues := outputValues;
     tHighCardIndex := highCardIndex; tLowCardIndex := lowCardIndex |}.

(** [signature]: the grouping key of a series and the labels kept for it. *)
Definition signature `{!LabelHasher} (metric : labels.Labels) (without : bool)
    (grouping : list string) (keepOriginalLabels : bool) : N * labels.Labels :=
  let lb := labels.Del [labels.MetricName] (labels.NewBuilder metric) in
  if without then
    let dropLabels := grouping ++ [labels.MetricName] in
    let key := HashWithoutLabels metric dropLabels in
    let lb := if negb keepOriginalLabels then labels.Del dropLabels lb else lb in
    (key, labels.build lb)
  else
    let lb := if negb keepOriginalLabels then labels.Keep grouping lb else lb in
    if (length grouping =? 0)%nat then (0%N, labels.build lb)
    else (HashForLabels metric grouping, labels.build lb).

Definition buildOutputSeries (seriesID : N) (highCardSeries lowCardSeries : Series)
    (includeLabels : list string) : Series :=
  let metric := Metric highCardSeries in
  let metric :=
    if (0 <? length includeLabels)%nat then
      let lowCardLabels :=
        labels.build (labels.Keep includeLabels (labels.NewBuilder (Metric lowCardSeries))) in
      metric ++ lowCardLabels
    else metric in
  {| ID := seriesID; Metric := metric |}.

(** The first loop of [join]: sum the group sizes and delete the groups
    without a low cardinality partner. *)
Definition pruneLoop (lowCardHashes : gmap N (list Series))
    (entries : list (N * list Series))
    (outputSize : nat) (highCardHashes : gmap N (list Series))
    : nat * gmap N (list Series) :=
  fold_left
    (fun '(outputSize, highCardHashes) '(hash, series) =>
       let outputSize := (outputSize + length series)%nat in
       match lowCardHashes !! hash with
       | None => (outputSize, delete hash highCardHashes)
       | Some _ => (outputSize, highCardHashes)
       end)
    entries (outputSize, highCardHashes).

(** The three arrays [join] builds. *)
Record joinState : Type :=
  { outputIndex : list Series;
    highCardOutputIndex : list (option N);
    lowCardOutputIndex : list (list N) }.

(** The innermost loop of [join], over the series of one group. *)
Fixpoint groupLoop (highCardInputIndex : gmap N (list N)) (hash : N)
    (lowCardSeriesID : N) (lowCardSeries : Series) (includeLabels : list string)
    (i : nat) (highCardSeries : list Series) (st : joinState) : outcome joinState :=
  match highCardSeries with
  | [] => Return st
  | output :: rest =>
      let outputSeries :=
        buildOutputSeries (N.of_nat (length (outputIndex st))) output lowCardSeries
          includeLabels in
      let outputIndex' := outputIndex st ++ [outputSeries] in
      highCardSeriesID ← load (mapget highCardInputIndex hash) i;
      highIdx ← store (highCardOutputIndex st) (N.to_nat highCardSeriesID)
                  (Some (ID outputSeries));
      slot ← load (lowCardOutputIndex st) (N.to_nat lowCardSeriesID);
      lowIdx ← store (lowCardOutputIndex st) (N.to_nat lowCardSeriesID)
                 (slot ++ [ID outputSeries]);
      groupLoop highCardInputIndex hash lowCardSeriesID lowCardSeries includeLabels
        (S i) rest
        {| outputIndex := outputIndex';
           highCardOutputIndex := highIdx;
           lowCardOutputIndex := lowIdx |}
  end.

(** The second loop of [join], over the surviving groups. *)
Fixpoint joinLoop (highCardInputIndex : gmap N (list N))
    (lowCardHashes : gmap N (list Series)) (lowCardInputIndex : gmap N (list N))
    (includeLabels : list string)
    (entries : list (N * list Series)) (st : joinState) : outcome joinState :=
  match entries with
  | [] => Return st
  | (hash, highCardSeries) :: entries =>
      lowCardSeriesID ← load (mapget lowCardInputIndex hash) 0;
      lowCardSeries ← load (mapget lowCardHashes hash) 0;
      lowIdx ← store (lowCardOutputIndex st) (N.to_nat lowCardSeriesID) [];
      st ← groupLoop highCardInputIndex hash lowCardSeriesID lowCardSeries
             includeLabels 0 highCardSeries
             {| outputIndex := outputIndex st;
                highCardOutputIndex := highCardOutputIndex st;
                lowCardOutputIndex := lowIdx |};
      joinLoop highCardInputIndex lowCardHashes lowCardInputIndex includeLabels
        entries st
  end.

Definition join `{!MapOrder} (highCardHashes : gmap N (list Series))
    (highCardInputIndex : gmap N (list N))
    (lowCardHashes : gmap N (list Series))
    (lowCardInputIndex : gmap N (list N))
    (includeLabels : list string)
    : outcome (list Series * list (option N) * list (list N)) :=
  let '(outputSize, highCardHashes) :=
    pruneLoop lowCardHashes (rangeOrder highCardHashes) 0 highCardHashes in
  st ← joinLoop highCardInputIndex lowCardHashes lowCardInputIndex includeLabels
         (rangeOrder highCardHashes)
         {| outputIndex := [];
            highCardOutputIndex := replicate outputSize None;
            lowCardOutputIndex := replicate (size lowCardInputIndex) [] |};
  Return (outputIndex st, highCardOutputIndex st, lowCardOutputIndex st).

Section Operator.

Context `{!LabelHasher} `{!MapOrder}.
Context {operation : Type} `{!JoinTable operation}.
Context {L R : Type} `{!VectorOperator L} `{!VectorOperator R}.

(** [vectorOperator]: the receiver of the methods below.  A nil [table]
    pointer is [None]. *)
Record vectorOperator : Type :=
  { pool : VectorPool;
    once : bool;
    lhs : L;
    rhs : R;
    matching : VectorMatching;
    groupingLabels : list string;
    operation_ : operation;
    opName : string;
    series : list labels.Labels;
    outputCache : list sample;
    table_ : option (table operation) }.

Definition with_lhs (x : L) (o : vectorOperator) : vectorOperator :=
  {| pool := pool o; once := once o; lhs := x; rhs := rhs o;
     matching := matching o; groupingLabels := groupingLabels o;
     operation_ := operation_ o; opName := opName o; series := series o;
     outputCache := outputCache o; table_ := table_ o |}.

Definition with_rhs (x : R) (o : vectorOperator) : vectorOperator :=
  {| pool := pool o; once := once o; lhs := lhs o; rhs := x;
     matching := matching o; groupingLabels := groupingLabels o;
     operation_ := operation_ o; opName := opName o; series := series o;
     outputCache := outputCache o; table_ := table_ o |}.

Definition with_once (o : vectorOperator) : vectorOperator :=
  {| pool := pool o; once := true; lhs := lhs o; rhs := rhs o;
     matching := matching o; groupingLabels := groupingLabels o;
     operation_ := operation_ o; opName := opName o; series := series o;
     outputCache := outputCache o; table_ := table_ o |}.

Definition with_table (tb : table operation) (o : vectorOperator) : vectorOperator :=
  {| pool := pool o; once := once o; lhs := lhs o; rhs := rhs o;
     matching := matching o; groupingLabels := groupingLabels o;
     operation_ := operation_ o; opName := opName o; series := series o;
     outputCache := outputCache o; table_ := Some tb |}.

Definition with_pool (p : VectorPool) (o : vectorOperator) : vectorOperator :=
  {| pool := p; once := once o; lhs := lhs o; rhs := rhs o;
     matching := matching o; groupingLabels := groupingLabels o;
     operation_ := operation_ o; opName := opName o; series := series o;
     outputCache := outputCache o; table_ := table_ o |}.

(** [NewVectorOperator], after [newOperation] has accepted the operation. *)
Definition NewVectorOperator (pool_ : VectorPool) (lhs_ : L) (rhs_ : R)
    (matching_ : VectorMatching) (op : operation) (name : string) : vectorOperator :=
  {| pool := pool_; once := false; lhs := lhs_; rhs := rhs_;
     matching := matching_;
     groupingLabels := merge_sort (fun a b => String.leb a b) (MatchingLabels matching_);
     operation_ := op; opName := name; series := [];
     outputCache := []; table_ := None |}.

(** [hashSeries], one iteration: file series [s] with input ID [i] under its
    grouping signature. *)
Definition hashStep (o : vectorOperator) (keepLabels : bool)
    (acc : gmap N (list Series) * gmap N (list N)) (i : nat) (s : labels.Labels)
    : gmap N (list Series) * gmap N (list N) :=
  let '(hashes, inputIndex) := acc in
  let '(sig, lbls) :=
    signature s (negb (On (matching o))) (groupingLabels o) keepLabels in
  let '(hashes, inputIndex) :=
    match hashes !! sig with
    | None => (<[sig := []]> hashes, <[sig := []]> inputIndex)
    | Some _ => (hashes, inputIndex)
    end in
  (<[sig := mapget hashes sig ++ [{| ID := N.of_nat i; Metric := lbls |}]]> hashes,
   <[sig := mapget inputIndex sig ++ [N.of_nat i]]> inputIndex).

Fixpoint hashLoop (o : vectorOperator) (keepLabels : bool) (i : nat)
    (series_ : list labels.Labels)
    (acc : gmap N (list Series) * gmap N (list N))
    : gmap N (list Series) * gmap N (list N) :=
  match series_ with
  | [] => acc
  | s :: rest => hashLoop o keepLabels (S i) rest (hashStep o keepLabels acc i s)
  end.

Definition hashSeries (o : vectorOperator) (series_ : list labels.Labels)
    (keepLabels : bool) : gmap N (list Series) * gmap N (list N) :=
  hashLoop o keepLabels 0 series_ (∅, ∅).

(** The sides chosen at the top of [initOutputs]: [(highCardSide, lowCardSide)]. *)
Definition cardSides (card : VectorMatchCardinality)
    (lhsSeries rhsSeries : list labels.Labels)
    : list labels.Labels * list labels.Labels :=
  let highCardSide := lhsSeries in
  let lowCardSide := rhsSeries in
  if decide (card = CardOneToMany) then (lowCardSide, highCardSide)
  else (highCardSide, lowCardSide).

(** [for _, s := range output { series[s.ID] = s.Metric }]. *)
Fixpoint fillSeries (output : list Series) (series_ : list labels.Labels)
    : outcome (list labels.Labels) :=
  match output with
  | [] => Return series_
  | s :: rest =>
      series_ ← store series_ (N.to_nat (ID s)) (Metric s);
      fillSeries rest series_
  end.

(** [initOutputs]: the error it returns, if any, and the receiver after it. *)
Definition initOutputs (o : vectorOperator) : outcome (option error * vectorOperator) :=
  '(r, l) ← op_Series (lhs o);
  let o := with_lhs l o in
  match r with
  | Err err => Return (Some err, o)
  | Ok lhsSeries =>
      '(r, r') ← op_Series (rhs o);
      let o := with_rhs r' o in
      match r with
      | Err err => Return (Some err, o)
      | Ok rhsSeries =>
          let '(highCardSide, lowCardSide) :=
            cardSides (Card (matching o)) lhsSeries rhsSeries in
          let includeLabels :=
            if (0 <? length (Include (matching o)))%nat
            then Include (matching o) else [] in
          let keepLabels := negb (bool_decide (Card (matching o) = CardOneToOne)) in
          let '(highCardHashes, highCardInputMap) :=
            hashSeries o highCardSide keepLabels in
          let '(lowCardHashes, lowCardInputMap) :=
            hashSeries o lowCardSide keepLabels in
          '(output, highCardOutputIndex, lowCardOutputIndex) ←
            join highCardHashes highCardInputMap lowCardHashes lowCardInputMap
              includeLabels;
          series_ ← fillSeries output (replicate (length output) []);
          let outputCache_ := replicate (length series_) {| t := -1; v := 0%N |} in
          let pool_ := SetStepSize (length highCardSide) (pool o) in
          Return (None,
            {| pool := pool_; once := once o; lhs := lhs o; rhs := rhs o;
               matching := matching o; groupingLabels := groupingLabels o;
               operation_ := operation_ o; opName := opName o;
               series := series_;
               outputCache := outputCache_;
               table_ :=
                 Some (newTable pool_ (Card (matching o)) (operation_ o) outputCache_
                         highCardOutputIndex lowCardOutputIndex) |})
      end
  end.

(** [o.once.Do(func() { err = o.initOutputs(ctx) })]: the body runs on the
    first call only; on later calls [err] keeps the value it had. *)
Definition onceInit (o : vectorOperator) : outcome (option error * vectorOperator) :=
  if once o then Return (None, o)
  else
    '(err, o) ← initOutputs o;
    Return (err, with_once o).

Definition Series (o : vectorOperator)
    : outcome (result (list labels.Labels) * vectorOperator) :=
  '(err, o) ← onceInit o;
  match err with
  | Some err => Return (Err err, o)
  | None => Return (Ok (series o), o)
  end.

(** The loop of [Next] over the lhs batch: [i] is the index of [vector] in
    the batch, [rhsB] the whole rhs batch. *)
Fixpoint execLoop (rhsB : list StepVector) (i : nat) (lhsB : list StepVector)
    (batch : list StepVector) (o : vectorOperator)
    : outcome (list StepVector * vectorOperator) :=
  match lhsB with
  | [] => Return (batch, o)
  | vector :: rest =>
      '(batch, o) ←
        match rhsB !! i with
        | Some rv =>
            match table_ o with
            | None => Panic
            | Some tb =>
                let '(step, tb) := execBinaryOperation tb vector rv in
                Return (batch ++ [step],
                        with_rhs (op_MapPool (PutStepVector rv) (rhs o))
                          (with_table tb o))
            end
        | None => Return (batch, o)
        end;
      let o := with_lhs (op_MapPool (PutStepVector vector) (lhs o)) o in
      execLoop rhsB (S i) rest batch o
  end.

Definition Next (o : vectorOperator)
    : outcome (result (list StepVector) * vectorOperator) :=
  '(r, l) ← op_Next (lhs o);
  let o := with_lhs l o in
  match r with
  | Err err => Return (Err err, o)
  | Ok lhsB =>
      '(r, r') ← op_Next (rhs o);
      let o := with_rhs r' o in
      match r with
      | Err err => Return (Err err, o)
      | Ok rhsB =>
          if (length lhsB =? 0)%nat || (length rhsB =? 0)%nat then Return (Ok [], o)
          else
            '(err, o) ← onceInit o;
            match err with
            | Some err => Return (Err err, o)
            | None =>
                let batch := GetVectorBatch (pool o) in
                '(batch, o) ← execLoop rhsB 0 lhsB batch o;
                let o := with_lhs (op_MapPool (PutVectors lhsB) (lhs o)) o in
                let o := with_rhs (op_MapPool (PutVectors rhsB) (rhs o)) o in
                Return (Ok batch, o)
            end
      end
  end.

Definition GetPool (o : vectorOperator) : VectorPool := pool o.

#[global] Instance vectorOperator_operator : VectorOperator vectorOperator :=
  {| op_Series := Series; op_Next := Next;
     op_GetPool := GetPool; op_MapPool := fun f o => with_pool (f (pool o)) o |}.

End Operator.

Arguments vectorOperator : clear implicits.

End binary.

(** ** Concrete collaborators

    Instances of the external interfaces, used to run the operators on
    explicit inputs. *)

Module examples.

Import model.
Local Open Scope Z_scope.

(** Modelled from the spec: the sample iterator contract of the external
    storage, which is not part of the sources.  The samples of a series in
    time order, split at the cursor: [before] holds the samples already
    passed, most recent first, [ahead] the samples from the cursor on. *)
Record listIterator : Type :=
  { before : list (Z * float64); ahead : list (Z * float64) }.

Fixpoint seekList (ts : Z) (bef ahd : list (Z * float64)) : bool * listIterator :=
  match ahd with
  | [] => (false, {| before := bef; ahead := [] |})
  | s :: rest =>
      if fst s <? ts then seekList ts (s :: bef) rest
      else (true, {| before := bef; ahead := ahd |})
  end.

#[global] Instance listIterator_iterator
    : scan.SeriesIterator (list (Z * float64)) listIterator :=
  {| scan.NewMemoizedIterator := fun raw _ => {| before := []; ahead := raw |};
     scan.Seek := fun ts it => seekList ts (before it) (ahead it);
     scan.At := fun it => match ahead it with s :: _ => s | [] => (0, 0%N) end;
     scan.PeekPrev := fun it => head (before it) |}.

(** A map is visited in the order of its entry list. *)
#[global] Instance listOrder : binary.MapOrder :=
  {| binary.rangeOrder := fun V m => map_to_list m;
     binary.rangeOrder_perm := fun V m => Permutation_refl (map_to_list m) |}.

Definition strHash (s : string) : N :=
  fold_left (fun h c => (h * 131 + Ascii.N_of_ascii c) mod 2 ^ 64)%N
    (String.list_ascii_of_string s) 7%N.

Definition labelsHash (ls : labels.Labels) : N :=
  fold_left
    (fun h l => (h * 31 + strHash (labels.Name l) * 17 + strHash (labels.Value l)) mod 2 ^ 64)%N
    ls 1%N.

(** A stand-in for the hash functions of the labels package. *)
#[global] Instance toyHasher : binary.LabelHasher :=
  {| binary.HashWithoutLabels := fun metric names =>
       labelsHash (filter (fun l => labels.mem (labels.Name l) names = false) metric);
     binary.HashForLabels := fun metric names =>
       labelsHash (filter (fun l => labels.mem (labels.Name l) names = true) metric) |}.

(** A stand-in for the join table: the output step carries the timestamp of
    the lhs step and no samples. *)
#[global] Instance toyTable : binary.JoinTable unit :=
  {| binary.execBinaryOperation := fun tb l _ =>
       ({| T := T l; SampleIDs := []; Samples := [] |}, tb) |}.

Definition lbl (n v : string) : labels.Label := {| labels.Name := n; labels.Value := v |}.

Definition mkSeries (ls : labels.Labels) (sig : N) (samples : list (Z * float64))
    : scan.SignedSeries (list (Z * float64)) :=
  {| scan.sLabels := ls; scan.Signature := sig; scan.Iterator := samples |}.

Definition window (start end_ step numSteps : Z) : scan.Options :=
  {| scan.Start := start; scan.End_ := end_; scan.Step := step;
     scan.LookbackDelta := 300000; scan.NumSteps := numSteps |}.

Definition scanOf (ss : list (scan.SignedSeries (list (Z * float64))))
    (opts : scan.Options) : scan.vectorSelector (list (Z * float64)) listIterator :=
  scan.NewVectorSelector NewVectorPool (fun _ _ => Ok ss) opts 0 0 1.

Definition failingScan (e : error) (opts : scan.Options)
    : scan.vectorSelector (list (Z * float64)) listIterator :=
  scan.NewVectorSelector NewVectorPool (fun _ _ => Err e) opts 0 0 1.

Definition onJob (card : binary.VectorMatchCardinality) (include : list string)
    : binary.VectorMatching :=
  {| binary.Card := card; binary.MatchingLabels := ["job"%string];
     binary.On := true; binary.Include := include |}.

Definition joinOf (l r : scan.vectorSelector (list (Z * float64)) listIterator)
    (m : binary.VectorMatching)
    : binary.vectorOperator unit
        (scan.vectorSelector (list (Z * float64)) listIterator)
        (scan.vectorSelector (list (Z * float64)) listIterator) :=
  binary.NewVectorOperator NewVectorPool l r m tt "+".

(** Inputs of the examples. *)

Definition seriesA : scan.SignedSeries (list (Z * float64)) :=
  mkSeries [lbl "__name__" "a"; lbl "job" "x"] 11 [(0, 5%N)].

Definition seriesB : scan.SignedSeries (list (Z * float64)) :=
  mkSeries [lbl "__name__" "b"; lbl "job" "x"] 22 [(0, 2%N)].

(** An instant query at time 0. *)
Definition instant : scan.Options := window 0 0 0 1.

(** A range query over [0, 10] in steps of 5, three steps per batch. *)
Definition range3 : scan.Options := window 0 10 5 3.


(** A range query whose end time is the largest [int64]. *)
Definition endless : scan.Options := window 0 max_int64 1 1.


(** Three low cardinality series, the first two with the same [job]. *)
Definition lowDup : list (scan.SignedSeries (list (Z * float64))) :=
  [ mkSeries [lbl "__name__" "b"; lbl "instance" "1"; lbl "job" "x"] 31 [(0, 1%N)];
    mkSeries [lbl "__name__" "b"; lbl "instance" "2"; lbl "job" "x"] 32 [(0, 2%N)];
    mkSeries [lbl "__name__" "b"; lbl "job" "y"] 33 [(0, 3%N)] ].

Definition highY : list (scan.SignedSeries (list (Z * float64))) :=
  [ mkSeries [lbl "__name__" "a"; lbl "job" "y"] 41 [(0, 7%N)] ].

(** Three high cardinality series with [job] x, y and z against two low
    cardinality series with [job] y and x, joined one-to-one on [job]. *)
Definition highXY : list labels.Labels :=
  [ [lbl "__name__" "a"; lbl "job" "x"];
    [lbl "__name__" "a"; lbl "job" "y"];
    [lbl "__name__" "a"; lbl "job" "z"] ].

Definition lowXY : list labels.Labels :=
  [ [lbl "__name__" "b"; lbl "job" "y"];
    [lbl "__name__" "b"; lbl "job" "x"] ].

Definition joinXY
    : binary.vectorOperator unit
        (scan.vectorSelector (list (Z * float64)) listIterator)
        (scan.vectorSelector (list (Z * float64)) listIterator) :=
  joinOf (scanOf [] instant) (scanOf [] instant) (onJob binary.CardOneToOne []).

(** A many-to-one pair: the "many" side carries [instance], the "one" side
    carries [env], which the join is asked to include. *)
Definition manySide : scan.SignedSeries (list (Z * float64)) :=
  mkSeries [lbl "__name__" "a"; lbl "instance" "i1"; lbl "job" "x"] 51 [(0, 5%N)].

Definition manySide2 : scan.SignedSeries (list (Z * float64)) :=
  mkSeries [lbl "__name__" "a"; lbl "instance" "i2"; lbl "job" "x"] 53 [(0, 6%N)].

Definition oneSide : scan.SignedSeries (list (Z * float64)) :=
  mkSeries [lbl "__name__" "b"; lbl "env" "prod"; lbl "job" "x"] 52 [(0, 2%N)].

(** A series whose sample at time 0 is a staleness marker. *)
Definition seriesStale : scan.SignedSeries (list (Z * float64)) :=
  mkSeries [lbl "__name__" "c"; lbl "job" "x"] 33 [(0, scan.StaleNaN); (5, 4%N)].

(** An input operator with fixed answers: [Series] gives [fSeries] and every
    [Next] call the batch [fBatch]. *)
Record fixedOperator : Type :=
  { fSeries : result (list labels.Labels);
    fBatch : list StepVector;
    fPool : VectorPool }.

#[global] Instance fixedOperator_operator : VectorOperator fixedOperator :=
  {| op_Series := fun o => Return (fSeries o, o);
     op_Next := fun o => Return (Ok (fBatch o), o);
     op_GetPool := fPool;
     op_MapPool := fun f o =>
       {| fSeries := fSeries o; fBatch := fBatch o; fPool := f (fPool o) |} |}.

(** A join whose lhs fails to list its series but still delivers a batch. *)
Definition brokenJoin : binary.vectorOperator unit fixedOperator fixedOperator :=
  binary.NewVectorOperator NewVectorPool
    {| fSeries := Err "no series";
       fBatch := [{| T := 0; SampleIDs := [11%N]; Samples := [5%N] |}];
       fPool := NewVectorPool |}
    {| fSeries := Ok [[lbl "__name__" "b"; lbl "job" "x"]];
       fBatch := [{| T := 0; SampleIDs := [22%N]; Samples := [2%N] |}];
       fPool := NewVectorPool |}
    (onJob binary.CardOneToOne []) tt "+".

End examples.

(** ** Specification-side definitions

    The properties of the two operators, phrased over the embedding. *)

Module spec.

Import model.
Local Open Scope Z_scope.

Section ScanSpec.

Context {Raw It : Type} `{!scan.SeriesIterator Raw It}.

(** The contract of the iterator the scan relies on: a successful seek leaves
    the cursor on a sample at or after the sought timestamp. *)
Class SeekContract : Prop :=
  seek_at_ge : forall (ts : Z) (it it' : It),
    scan.Seek ts it = (true, it') -> ts <= fst (scan.At it').

(** Point selection as the specification words it: the candidate is the
    sample under the cursor after the seek if it sits exactly at [refTime],
    otherwise the sample just before the cursor. *)
Definition candidate (refTime : Z) (ok : bool) (it : It) : option (Z * float64) :=
  if ok && (fst (scan.At it) =? refTime) then Some (scan.At it)
  else scan.PeekPrev it.




(** The timestamp the inner loop of [Next] reaches after [k] iterations. *)
Definition stepTs (ts step : Z) (k : nat) : Z :=
  Nat.iter k (fun seriesTs => add64 seriesTs step) ts.

(** A batch is step-index aligned when its [k]-th vector carries the
    timestamp of the [k]-th step. *)
Definition aligned (ts step : Z) (vectors : list StepVector) : Prop :=
  forall (k : nat) (sv : StepVector), vectors !! k = Some sv -> T sv = stepTs ts step k.

(** [n] successive calls of [Next], results dropped. *)
Fixpoint iterNext (n : nat) (o : scan.vectorSelector Raw It)
    : outcome (scan.vectorSelector Raw It) :=
  match n with
  | O => Return o
  | S n =>
      match scan.Next o with
      | Return (_, o) => iterNext n o
      | Panic => Panic
      end
  end.

(** The scan is exhausted once the cursor has passed the end time. *)
Definition exhausted (o : scan.vectorSelector Raw It) : Prop :=
  scan.maxt o < scan.currentStep o.

(** The scan terminates from [o]: some number of calls of [Next] exhausts it. *)
Definition terminates (o : scan.vectorSelector Raw It) : Prop :=
  exists (n : nat) (o' : scan.vectorSelector Raw It),
    iterNext n o = Return o' /\ exhausted o'.

(** A query window for which the cursor arithmetic stays inside [int64]. *)
Definition steady_window (o : scan.vectorSelector Raw It) : Prop :=
  min_int64 <= scan.currentStep o
  /\ 0 <= scan.step o
  /\ 1 <= scan.numSteps o
  /\ Z.max 1 (scan.step o) * scan.numSteps o <= max_int64
  /\ scan.maxt o + Z.max 1 (scan.step o) * scan.numSteps o <= max_int64.

(** The calls left before exhaustion: one for a pending initialization that
    may fail, and one per millisecond up to the end time. *)
Definition callsLeft (o : scan.vectorSelector Raw It) : nat :=
  ((if scan.once o then 0 else 1)
   + Z.to_nat (scan.maxt o - scan.currentStep o + 1))%nat.

End ScanSpec.

Section BinarySpec.

Context {operation : Type} `{!binary.JoinTable operation}.


(** An operator whose pool is the one its [MapPool] updates. *)
Class PoolContract (Op : Type) `{!VectorOperator Op} : Prop :=
  getPool_mapPool : forall (f : VectorPool -> VectorPool) (x : Op),
    op_GetPool (op_MapPool f x) = f (op_GetPool x).


(** Output IDs form the range [0 .. n-1], in output order. *)
Definition denseIDs (output : list Series) : Prop :=
  map ID output = map N.of_nat (seq 0 (length output)).

(** The number of series filed in a signature map. *)
Definition sumLen (m : gmap N (list Series)) : nat :=
  sum_list_with (fun kv => length kv.2) (map_to_list m).

(** The two maps of [hashSeries] after [n] series: they know the same
    signatures, and under each signature a non-empty group of series and
    equally many input IDs, all below [n]. *)
Definition filed (n : nat) (hashes : gmap N (list Series)) (idx : gmap N (list N)) : Prop :=
  forall k : N,
    match hashes !! k, idx !! k with
    | Some ss, Some ids =>
        length ids = length ss /\ ss <> []
        /\ Forall (fun id => (N.to_nat id < n)%nat) ids
    | None, None => True
    | _, _ => False
    end.

Context `{!binary.LabelHasher} {L R : Type}.

(** The grouping signature [hashSeries] files a series under. *)
Definition sigOf (o : binary.vectorOperator operation L R) (keepLabels : bool)
    (s : labels.Labels) : N :=
  (binary.signature s (negb (binary.On (binary.matching o)))
     (binary.groupingLabels o) keepLabels).1.

(** The number of high cardinality series whose grouping signature is
    present on the low cardinality side. *)
Definition matched (o : binary.vectorOperator operation L R) (keepLabels : bool)
    (highCardSide lowCardSide : list labels.Labels) : nat :=
  length (filter (fun s => sigOf o keepLabels s ∈ map (sigOf o keepLabels) lowCardSide)
            highCardSide).

(** The labels [hashSeries] keeps for a series. *)
Definition lblsOf (o : binary.vectorOperator operation L R) (keepLabels : bool)
    (s : labels.Labels) : labels.Labels :=
  (binary.signature s (negb (binary.On (binary.matching o)))
     (binary.groupingLabels o) keepLabels).2.

(** The entry [hashSeries] files for the series at input position [p.1]. *)
Definition entryOf (o : binary.vectorOperator operation L R) (keepLabels : bool)
    (p : nat * labels.Labels) : Series :=
  {| ID := N.of_nat p.1; Metric := lblsOf o keepLabels p.2 |}.

(** The series with grouping signature [k], with their input positions
    counted from [i], in input order. *)
Definition groupOf (o : binary.vectorOperator operation L R) (keepLabels : bool)
    (k : N) (i : nat) (series : list labels.Labels) : list (nat * labels.Labels) :=
  filter (fun p => sigOf o keepLabels p.2 = k) (zip (seq i (length series)) series).

End BinarySpec.

Section ScanRows.

Context {Raw It : Type} `{!scan.SeriesIterator Raw It}.

(** The row of one series in a batch: the inner loop of [Next] without the
    vectors.  For each step it holds the step timestamp and the value
    [selectPoint] found there, if any; the iterator is the one the last
    seek left. *)
Fixpoint pointsOf (o : scan.vectorSelector Raw It) (remaining : nat) (seriesTs : Z)
    (it : It) : list (Z * option float64) * It :=
  match remaining with
  | O => ([], it)
  | S remaining =>
      if seriesTs <=? scan.maxt o then
        let '(pt, it) :=
          scan.selectPoint it seriesTs (scan.lookbackDelta o) (scan.offset o) in
        let '(row, it) := pointsOf o remaining (add64 seriesTs (scan.step o)) it in
        ((seriesTs, snd <$> pt) :: row, it)
      else ([], it)
  end.

(** The row of a scanner in the batch that starts at the cursor. *)
Definition rowOf (o : scan.vectorSelector Raw It) (sc : scan.vectorScanner It)
    : list (Z * option float64) :=
  (pointsOf o (Z.to_nat (scan.numSteps o)) (scan.currentStep o) (scan.samples sc)).1.

(** The value a row has at step [k], if any, and the signature to file it
    under. *)
Definition rowPoint (row : list (Z * option float64)) (k : nat) : option float64 :=
  match row !! k with
  | Some (_, pt) => pt
  | None => None
  end.

Definition rowID (sig : N) (row : list (Z * option float64)) (k : nat) : option N :=
  match rowPoint row k with
  | Some _ => Some sig
  | None => None
  end.

(** The value a scanner has at step [k] of the batch, if any. *)
Definition pointAt (o : scan.vectorSelector Raw It) (sc : scan.vectorScanner It)
    (k : nat) : option float64 :=
  rowPoint (rowOf o sc) k.

(** A point of a series entered into a step vector. *)
Definition addPoint (sig : N) (pt : option float64) (sv : StepVector) : StepVector :=
  match pt with
  | Some v =>
      {| T := T sv; SampleIDs := SampleIDs sv ++ [sig]; Samples := Samples sv ++ [v] |}
  | None => sv
  end.

(** A row entered into a batch, step by step; steps the batch does not
    have yet are created. *)
Fixpoint mergeRow (p : VectorPool) (sig : N) (row : list (Z * option float64))
    (vectors : list StepVector) : list StepVector :=
  match row with
  | [] => vectors
  | (ts, pt) :: row =>
      match vectors with
      | [] => addPoint sig pt (GetStepVector p ts) :: mergeRow p sig row []
      | sv :: vectors => addPoint sig pt sv :: mergeRow p sig row vectors
      end
  end.

(** The scanner a series leaves behind: its iterator is the one the last
    seek of the batch left. *)
Definition advance (o : scan.vectorSelector Raw It) (ts : Z) (sc : scan.vectorScanner It)
    : scan.vectorScanner It :=
  {| scan.labels := scan.labels sc; scan.signature := scan.signature sc;
     scan.samples :=
       (pointsOf o (Z.to_nat (scan.numSteps o)) ts (scan.samples sc)).2 |}.

(** The signature of a scanner that has a value at step [k]. *)
Definition idAt (o : scan.vectorSelector Raw It) (sc : scan.vectorScanner It)
    (k : nat) : option N :=
  rowID (scan.signature sc) (rowOf o sc) k.

(** The batch [Next] delivers: the rows of the scanners, in scanner order,
    entered into an empty batch. *)
Definition batchOf (o : scan.vectorSelector Raw It) : list StepVector :=
  fold_left
    (fun vs sc => mergeRow (scan.vectorPool o) (scan.signature sc) (rowOf o sc) vs)
    (scan.scanners o) [].

(** The number of steps of the batch that starts at [seriesTs]. *)
Fixpoint stepsRun (o : scan.vectorSelector Raw It) (remaining : nat) (seriesTs : Z) : nat :=
  match remaining with
  | O => O
  | S remaining =>
      if seriesTs <=? scan.maxt o
      then S (stepsRun o remaining (add64 seriesTs (scan.step o)))
      else O
  end.

End ScanRows.


(** The consecutive output IDs [start, start + n). *)
Definition newIDs (start n : nat) : list N := map N.of_nat (seq start n).

(** What [join] records for one surviving group [kv]: its output series are
    consecutive from some [start], in the order of the group; the high
    cardinality index sends each member to its output; and the low
    cardinality index lists all of them under the group's first low
    cardinality series. *)
Definition grouped (highCardInputIndex : gmap N (list N))
    (lowCardHashes : gmap N (list Series)) (lowCardInputIndex : gmap N (list N))
    (includeLabels : list string) (kv : N * list Series) (st : binary.joinState) : Prop :=
  exists (low : Series) (l : N) (start : nat),
    mapget lowCardHashes kv.1 !! 0%nat = Some low
    /\ mapget lowCardInputIndex kv.1 !! 0%nat = Some l
    /\ binary.lowCardOutputIndex st !! N.to_nat l = Some (newIDs start (length kv.2))
    /\ forall (n : nat) (x : Series),
         kv.2 !! n = Some x ->
         exists hid : N,
           mapget highCardInputIndex kv.1 !! n = Some hid
           /\ binary.highCardOutputIndex st !! N.to_nat hid
              = Some (Some (N.of_nat (start + n)))
           /\ binary.outputIndex st !! (start + n)%nat
              = Some (binary.buildOutputSeries (N.of_nat (start + n)) x low includeLabels).

End spec.

(** * Properties of the scan operator *)

Import model.

Section WrapFacts.

Local Open Scope Z_scope.

Lemma wrap64_range (z : Z) : int64_range (wrap64 z).
Proof.
  unfold int64_range, wrap64, min_int64, max_int64.
  pose proof (Z.mod_pos_bound (z + 2 ^ 63) (2 ^ 64)). lia.
Qed.

Lemma wrap64_id (z : Z) : int64_range z -> wrap64 z = z.
Proof.
  unfold int64_range, wrap64, min_int64, max_int64. intros Hz.
  rewrite Z.mod_small by lia. lia.
Qed.

Lemma wrap64_add_idemp (a b : Z) : wrap64 (wrap64 a + b) = wrap64 (a + b).
Proof.
  unfold wrap64.
  replace ((a + 2 ^ 63) mod 2 ^ 64 - 2 ^ 63 + b + 2 ^ 63)
    with ((a + 2 ^ 63) mod 2 ^ 64 + b) by lia.
  rewrite Zplus_mod_idemp_l. do 2 f_equal. lia.
Qed.

End WrapFacts.

Section SelectPoint.

Local Open Scope Z_scope.
Context {Raw It : Type} `{!scan.SeriesIterator Raw It}.




End SelectPoint.

Section ScanNext.

Local Open Scope Z_scope.
Context {Raw It : Type} `{!scan.SeriesIterator Raw It}.

Implicit Types (o : scan.vectorSelector Raw It) (vectors : list StepVector).

Lemma stepTs_wrap (ts step : Z) (k : nat) :
  int64_range ts -> spec.stepTs ts step k = wrap64 (ts + Z.of_nat k * step).
Proof.
  intros Hts. induction k as [|k IH].
  - simpl. rewrite Z.add_0_r. symmetry. apply wrap64_id, Hts.
  - unfold spec.stepTs in *. rewrite Nat.iter_succ, IH.
    unfold add64. rewrite wrap64_add_idemp. f_equal. lia.
Qed.

Lemma aligned_nil (ts step : Z) : spec.aligned ts step [].
Proof. intros k sv Hk. rewrite lookup_nil in Hk. discriminate. Qed.

Lemma aligned_snoc (ts step : Z) vectors (sv : StepVector) :
  spec.aligned ts step vectors ->
  T sv = spec.stepTs ts step (length vectors) ->
  spec.aligned ts step (vectors ++ [sv]).
Proof.
  intros Hal Hsv k sv' Hk.
  apply lookup_app_Some in Hk as [Hk|[Hlen Hk]].
  - apply (Hal _ _ Hk).
  - apply list_lookup_singleton_Some in Hk as [Hk ->].
    replace k with (length vectors) by lia. exact Hsv.
Qed.

(** Appending a sample to a step vector of the batch cannot fail inside the
    batch and leaves every timestamp in place. *)
Lemma appendSample_aligned (ts step : Z) vectors (currStep : nat) (sig : N) (v : float64) :
  (currStep < length vectors)%nat ->
  spec.aligned ts step vectors ->
  exists vectors',
    scan.appendSample vectors currStep sig v = Return vectors'
    /\ length vectors' = length vectors
    /\ spec.aligned ts step vectors'.
Proof.
  intros Hlt Hal. unfold scan.appendSample, load, store.
  destruct (lookup_lt_is_Some_2 vectors currStep Hlt) as [sv Hsv].
  rewrite Hsv. simpl. rewrite decide_True by exact Hlt.
  eexists. split; [reflexivity|]. split; [apply length_insert|].
  intros k sv' Hk. destruct (decide (k = currStep)) as [->|Hne].
  - rewrite list_lookup_insert_eq in Hk by exact Hlt.
    injection Hk as <-. simpl. apply (Hal _ _ Hsv).
  - rewrite list_lookup_insert_ne in Hk by congruence. apply (Hal _ _ Hk).
Qed.

Lemma stepLoop_aligned o (sig : N) (ts : Z) (remaining : nat) :
  forall (currStep : nat) (it : It) vectors,
    (currStep <= length vectors)%nat ->
    spec.aligned ts (scan.step o) vectors ->
    exists (it' : It) vectors',
      scan.stepLoop o sig remaining currStep (spec.stepTs ts (scan.step o) currStep)
        it vectors = Return (it', vectors')
      /\ (length vectors <= length vectors')%nat
      /\ spec.aligned ts (scan.step o) vectors'.
Proof.
  induction remaining as [|remaining IH]; intros currStep it vectors Hle Hal; simpl.
  - eauto.
  - destruct (spec.stepTs ts (scan.step o) currStep <=? scan.maxt o); [|eauto].
    set (vectors1 := if (length vectors <=? currStep)%nat then _ else vectors).
    assert (Hv1 : (currStep < length vectors1)%nat
                  /\ (length vectors <= length vectors1)%nat
                  /\ spec.aligned ts (scan.step o) vectors1).
    { subst vectors1. destruct (Nat.leb_spec (length vectors) currStep) as [Hge|Hlt].
      - rewrite length_app. simpl. repeat split; try lia.
        apply aligned_snoc; [exact Hal|]. simpl. f_equal. lia.
      - auto with lia. }
    destruct Hv1 as (Hlt1 & Hlen1 & Hal1).
    destruct (scan.selectPoint it _ _ _) as [pt it1].
    assert (Hpt : exists vectors2,
               match pt with
               | Some (_, v) => scan.appendSample vectors1 currStep sig v
               | None => Return vectors1
               end = Return vectors2
               /\ length vectors2 = length vectors1
               /\ spec.aligned ts (scan.step o) vectors2).
    { destruct pt as [[t0 v0]|]; [|eauto].
      apply appendSample_aligned; assumption. }
    destruct Hpt as (vectors2 & -> & Hlen2 & Hal2). simpl.
    destruct (IH (S currStep) it1 vectors2) as (it' & vectors' & Hrun & Hlen & Hal');
      [lia|exact Hal2|].
    simpl in Hrun. rewrite Hrun. exists it', vectors'. repeat split; [lia|exact Hal'].
Qed.

Lemma scanLoop_aligned o (ts : Z) (todo : list (scan.vectorScanner It)) :
  forall vectors,
    spec.aligned ts (scan.step o) vectors ->
    exists (done : list (scan.vectorScanner It)) vectors',
      scan.scanLoop o ts todo vectors = Return (done, vectors')
      /\ spec.aligned ts (scan.step o) vectors'.
Proof.
  induction todo as [|sc todo IH]; intros vectors Hal; simpl.
  - eauto.
  - destruct (stepLoop_aligned o (scan.signature sc) ts (Z.to_nat (scan.numSteps o))
                0 (scan.samples sc) vectors) as (it' & vectors1 & Hrun & _ & Hal1);
      [lia|exact Hal|].
    simpl in Hrun. rewrite Hrun. simpl.
    destruct (IH vectors1 Hal1) as (done & vectors' & -> & Hal'). simpl. eauto.
Qed.

(** [loadSeries] only touches the once flag, the scanners, the series and
    the pool. *)
Lemma loadSeries_window o :
  let o' := snd (scan.loadSeries o) in
  scan.maxt o' = scan.maxt o /\ scan.currentStep o' = scan.currentStep o
  /\ scan.step o' = scan.step o /\ scan.numSteps o' = scan.numSteps o.
Proof.
  unfold scan.loadSeries. destruct (scan.once o); [simpl; auto|].
  destruct (scan.storage o _ _); simpl; auto.
Qed.

(** Every call of [Next] returns, and it does one of three things: report
    exhaustion and leave the operator alone, report the error of the
    initialization it just ran, or deliver an aligned batch and advance the
    cursor by [step * numSteps] with a zero step first set to one. *)
Lemma Next_cases o :
  (spec.exhausted o /\ scan.Next o = Return (Ok [], o))
  \/ (~ spec.exhausted o /\ scan.once o = false
      /\ exists (e : error) o',
          scan.Next o = Return (Err e, o') /\ scan.once o' = true
          /\ scan.maxt o' = scan.maxt o /\ scan.currentStep o' = scan.currentStep o
          /\ scan.step o' = scan.step o /\ scan.numSteps o' = scan.numSteps o)
  \/ (~ spec.exhausted o
      /\ exists vectors o',
          scan.Next o = Return (Ok vectors, o')
          /\ spec.aligned (scan.currentStep o) (scan.step o) vectors
          /\ scan.once o' = true
          /\ scan.maxt o' = scan.maxt o /\ scan.numSteps o' = scan.numSteps o
          /\ scan.step o' = (if scan.step o =? 0 then 1 else scan.step o)
          /\ scan.currentStep o'
             = add64 (scan.currentStep o) (mul64 (scan.step o') (scan.numSteps o))).
Proof.
  unfold spec.exhausted, scan.Next.
  destruct (Z.ltb_spec (scan.maxt o) (scan.currentStep o)) as [Hex|Hnex];
    [left; auto|right].
  pose proof (loadSeries_window o) as Hw.
  unfold scan.loadSeries in *.
  destruct (scan.once o) eqn:Honce.
  - right. split; [lia|]. simpl in *.
    destruct (scanLoop_aligned o (scan.currentStep o) (scan.scanners o)
                (GetVectorBatch (scan.vectorPool o))) as (done & vectors & Hrun & Hal);
      [apply aligned_nil|].
    rewrite Hrun. simpl. eexists _, _. split; [reflexivity|]. simpl. auto 10.
  - destruct (scan.storage o (scan.shard o) (scan.numShards o)) as [ss|e] eqn:Hst.
    + right. split; [lia|]. simpl in *.
      match goal with |- context [scan.scanLoop ?o1 ?ts ?todo ?vs] =>
        destruct (scanLoop_aligned o1 ts todo vs) as (done & vectors & Hrun & Hal);
          [apply aligned_nil|]
      end.
      rewrite Hrun. simpl. eexists _, _. split; [reflexivity|]. simpl. auto 10.
    + left. split; [lia|]. split; [reflexivity|]. simpl.
      eexists _, _. split; [reflexivity|]. simpl. auto 10.
Qed.

(** C7: every batch returned by the scan's [Next] is step-index aligned.
    [Next] always returns, and in a returned batch the vector at index [i]
    carries the timestamp [currentStep + i * step] of [int64] arithmetic,
    taken at the start of the call; it is that sum itself whenever the sum
    is an [int64], and it is the cursor itself when the step is zero.  This
    holds whatever the number of series. *)
Theorem Next_step_aligned o :
  int64_range (scan.currentStep o) ->
  exists (r : result (list StepVector)) o',
    scan.Next o = Return (r, o')
    /\ forall vectors, r = Ok vectors ->
       forall (i : nat) (sv : StepVector), vectors !! i = Some sv ->
         T sv = wrap64 (scan.currentStep o + Z.of_nat i * scan.step o)
         /\ (int64_range (scan.currentStep o + Z.of_nat i * scan.step o) ->
             T sv = scan.currentStep o + Z.of_nat i * scan.step o)
         /\ (scan.step o = 0 -> T sv = scan.currentStep o).
Proof.
  intros Hcs.
  assert (Hgoal : forall vectors,
             spec.aligned (scan.currentStep o) (scan.step o) vectors ->
             forall (i : nat) (sv : StepVector), vectors !! i = Some sv ->
               T sv = wrap64 (scan.currentStep o + Z.of_nat i * scan.step o)
               /\ (int64_range (scan.currentStep o + Z.of_nat i * scan.step o) ->
                   T sv = scan.currentStep o + Z.of_nat i * scan.step o)
               /\ (scan.step o = 0 -> T sv = scan.currentStep o)).
  { intros vectors Hal i sv Hi. apply Hal in Hi.
    rewrite stepTs_wrap in Hi by exact Hcs. rewrite Hi. split; [reflexivity|]. split.
    - intros Hr. apply wrap64_id, Hr.
    - intros ->. rewrite Z.mul_0_r, Z.add_0_r. apply wrap64_id, Hcs. }
  destruct (Next_cases o)
    as [[_ Hrun]|[(_ & _ & e & o' & Hrun & _)|(_ & vs & o' & Hrun & Hal & _)]].
  - eexists _, _. split; [exact Hrun|]. intros vectors [= <-]. apply Hgoal, aligned_nil.
  - eexists _, _. split; [exact Hrun|]. intros vectors [=].
  - eexists _, _. split; [exact Hrun|]. intros vectors [= <-]. apply Hgoal, Hal.
Qed.

End ScanNext.

Section ScanTermination.

Local Open Scope Z_scope.
Context {Raw It : Type} `{!scan.SeriesIterator Raw It}.

Implicit Types (o : scan.vectorSelector Raw It).

(** Past the end time [Next] reports exhaustion: an empty batch, no error,
    and an untouched operator. *)
Lemma Next_exhausted o :
  spec.exhausted o -> scan.Next o = Return (Ok [], o).
Proof.
  unfold spec.exhausted, scan.Next. intros Hex.
  rewrite (proj2 (Z.ltb_lt _ _)) by exact Hex. reflexivity.
Qed.

Lemma iterNext_succ (n : nat) o (r : result (list StepVector)) o' :
  scan.Next o = Return (r, o') -> spec.iterNext (S n) o = spec.iterNext n o'.
Proof. intros Hrun. simpl. rewrite Hrun. reflexivity. Qed.

(** In a steady window a delivered batch moves the cursor forward, sets a
    zero step to one, and leaves the window steady. *)
Lemma Next_advances o (vectors : list StepVector) o' :
  spec.steady_window o -> ~ spec.exhausted o ->
  scan.Next o = Return (Ok vectors, o') ->
  scan.step o' = Z.max 1 (scan.step o)
  /\ scan.currentStep o' = scan.currentStep o + scan.step o' * scan.numSteps o
  /\ scan.currentStep o < scan.currentStep o'
  /\ scan.maxt o' = scan.maxt o
  /\ scan.once o' = true
  /\ spec.steady_window o'.
Proof.
  intros (Hmin & Hstep & Hnum & Hmul & Hmax) Hnex Hrun.
  destruct (Next_cases o)
    as [[Hex _]|[(_ & _ & e & o1 & Hrun1 & _)
                |(_ & vs & o1 & Hrun1 & _ & Hon & Hmaxt & Hn & Hs & Hcs)]];
    [contradiction|congruence|].
  rewrite Hrun in Hrun1. injection Hrun1 as <- <-.
  assert (Hs' : scan.step o' = Z.max 1 (scan.step o)).
  { rewrite Hs. destruct (Z.eqb_spec (scan.step o) 0); lia. }
  unfold spec.exhausted in Hnex.
  assert (Hcs' : scan.currentStep o' = scan.currentStep o + scan.step o' * scan.numSteps o).
  { rewrite Hcs, Hs'. unfold add64, mul64.
    rewrite (wrap64_id (_ * _)) by (unfold int64_range, min_int64, max_int64 in *; nia).
    apply wrap64_id. unfold int64_range, min_int64, max_int64 in *. nia. }
  repeat split; try assumption.
  - rewrite Hcs', Hs'. nia.
  - rewrite Hcs', Hs'. nia.
  - lia.
  - lia.
  - rewrite Hs', Hn. rewrite Z.max_r by lia. exact Hmul.
  - rewrite Hs', Hn, Hmaxt. rewrite Z.max_r by lia. exact Hmax.
Qed.

Lemma steady_terminates (m : nat) :
  forall o, spec.steady_window o -> (spec.callsLeft o <= m)%nat -> spec.terminates o.
Proof.
  induction m as [|m IH]; intros o Hst Hm.
  - exists 0%nat, o. split; [reflexivity|].
    unfold spec.callsLeft, spec.exhausted in *. lia.
  - destruct (Next_cases o)
      as [[Hex _]|[(Hnex & Honce & e & o' & Hrun & Hon & Hmaxt & Hcs & Hs & Hn)
                  |(Hnex & vs & o' & Hrun & _)]].
    + exists 0%nat, o. split; [reflexivity|exact Hex].
    + destruct (IH o') as (n & o'' & Hiter & Hex).
      * unfold spec.steady_window in *. rewrite Hmaxt, Hcs, Hs, Hn. exact Hst.
      * unfold spec.callsLeft in *. rewrite Hon, Hmaxt, Hcs. rewrite Honce in Hm. lia.
      * exists (S n), o''. rewrite (iterNext_succ _ _ _ _ Hrun). auto.
    + destruct (Next_advances _ _ _ Hst Hnex Hrun) as (_ & _ & Hlt & Hmaxt & Hon & Hst').
      destruct (IH o') as (n & o'' & Hiter & Hex); [exact Hst'| |].
      * unfold spec.callsLeft, spec.exhausted in *. rewrite Hon, Hmaxt.
        destruct (scan.once o); lia.
      * exists (S n), o''. rewrite (iterNext_succ _ _ _ _ Hrun). auto.
Qed.

(** C9, amended: for every query window with a non-negative step, at least
    one step per batch and an end time that leaves room for one more batch
    below the largest [int64], the scan terminates.  A delivered batch sets a
    zero step to one and moves the cursor strictly forward; after finitely
    many calls of [Next] the cursor is past the end time; and from then on
    [Next] returns the exhausted result and changes nothing. *)
Theorem scan_terminates o :
  spec.steady_window o ->
  (forall (vectors : list StepVector) o',
      ~ spec.exhausted o -> scan.Next o = Return (Ok vectors, o') ->
      scan.step o' = Z.max 1 (scan.step o)
      /\ scan.currentStep o < scan.currentStep o'
      /\ spec.steady_window o')
  /\ spec.terminates o
  /\ (forall o', spec.exhausted o' -> scan.Next o' = Return (Ok [], o')).
Proof.
  intros Hst. split; [|split].
  - intros vectors o' Hnex Hrun.
    destruct (Next_advances _ _ _ Hst Hnex Hrun) as (Hs & _ & Hlt & _ & _ & Hst').
    auto.
  - apply (steady_terminates (spec.callsLeft o)); [exact Hst|lia].
  - apply Next_exhausted.
Qed.

(** With the end time at the largest [int64] no cursor is ever past it. *)
Lemma max_end_never_exhausted (n : nat) :
  forall o o',
    scan.maxt o = max_int64 -> scan.currentStep o <= max_int64 ->
    spec.iterNext n o = Return o' -> ~ spec.exhausted o'.
Proof.
  induction n as [|n IH]; intros o o' Hmax Hcs Hiter.
  - injection Hiter as <-. unfold spec.exhausted. lia.
  - simpl in Hiter.
    destruct (Next_cases o)
      as [[Hex _]|[(_ & _ & e & o1 & Hrun & _ & Hmaxt & Hcs1 & _)
                  |(_ & vs & o1 & Hrun & _ & _ & Hmaxt & _ & _ & Hcs1)]].
    + unfold spec.exhausted in Hex. lia.
    + rewrite Hrun in Hiter. apply (IH o1 o'); [congruence|lia|exact Hiter].
    + rewrite Hrun in Hiter. apply (IH o1 o'); [congruence| |exact Hiter].
      rewrite Hcs1. unfold add64.
      pose proof (wrap64_range (scan.currentStep o + mul64 (scan.step o1) (scan.numSteps o))) as Hr.
      unfold int64_range in Hr. lia.
Qed.

End ScanTermination.

(** * Properties of the binary-join operator *)

Section BinarySides.

(** What the top of [initOutputs] does with the two series sets: they are
    swapped for the one-to-many class and for no other. *)
Lemma cardSides_cases (card : binary.VectorMatchCardinality)
    (lhsSeries rhsSeries : list labels.Labels) :
  binary.cardSides card lhsSeries rhsSeries
  = match card with
    | binary.CardOneToMany => (rhsSeries, lhsSeries)
    | _ => (lhsSeries, rhsSeries)
    end.
Proof. destruct card; reflexivity. Qed.

(** C4, amended: the sides are swapped for the one-to-many class (and only
    for it), so the "one" side is the low cardinality side: the rhs for
    many-to-one, the lhs for one-to-many. *)
Theorem cardSides_one_side_low (lhsSeries rhsSeries : list labels.Labels) :
  binary.cardSides binary.CardOneToMany lhsSeries rhsSeries = (rhsSeries, lhsSeries)
  /\ binary.cardSides binary.CardManyToOne lhsSeries rhsSeries = (lhsSeries, rhsSeries)
  /\ binary.cardSides binary.CardOneToOne lhsSeries rhsSeries = (lhsSeries, rhsSeries)
  /\ snd (binary.cardSides binary.CardManyToOne lhsSeries rhsSeries) = rhsSeries
  /\ snd (binary.cardSides binary.CardOneToMany lhsSeries rhsSeries) = lhsSeries.
Proof. repeat split. Qed.

End BinarySides.

Section BinaryNext.

Context `{!binary.LabelHasher} `{!binary.MapOrder}.
Context {operation : Type} `{!binary.JoinTable operation}.
Context {L R : Type} `{!VectorOperator L} `{!VectorOperator R}.

Implicit Types (b : binary.vectorOperator operation L R).


(** An error of a child's [Next] is returned unchanged. *)
Lemma binary_Next_error b :
  (forall (e : error) (l' : L),
      op_Next (binary.lhs b) = Return (Err e, l') ->
      binary.Next b = Return (Err e, binary.with_lhs l' b))
  /\ (forall (lhsB : list StepVector) (e : error) (l' : L) (r' : R),
      op_Next (binary.lhs b) = Return (Ok lhsB, l') ->
      op_Next (binary.rhs b) = Return (Err e, r') ->
      binary.Next b = Return (Err e, binary.with_rhs r' (binary.with_lhs l' b))).
Proof.
  split.
  - intros e l' Hl. unfold binary.Next. rewrite Hl. reflexivity.
  - intros lhsB e l' r' Hl Hr. unfold binary.Next. rewrite Hl. simpl.
    rewrite Hr. reflexivity.
Qed.


(** The sizing hint [initOutputs] gives the pool is the size of the side it
    took for the high cardinality side. *)
Lemma initOutputs_high_side b (lhsSeries rhsSeries : list labels.Labels)
    (l' : L) (r' : R) (b' : binary.vectorOperator operation L R) :
  op_Series (binary.lhs b) = Return (Ok lhsSeries, l') ->
  op_Series (binary.rhs b) = Return (Ok rhsSeries, r') ->
  binary.initOutputs b = Return (None, b') ->
  stepSize (binary.pool b')
  = length (binary.cardSides (binary.Card (binary.matching b)) lhsSeries rhsSeries).1.
Proof.
  intros Hl Hr. unfold binary.initOutputs. rewrite Hl. cbn [mbind outcome_bind bind].
  cbn [binary.rhs binary.with_lhs]. rewrite Hr. cbn [mbind outcome_bind bind].
  cbn [binary.matching binary.with_lhs binary.with_rhs].
  destruct (binary.cardSides _ lhsSeries rhsSeries) as [high low].
  destruct (binary.hashSeries _ high _) as [hh hidx].
  destruct (binary.hashSeries _ low _) as [lh lidx].
  destruct (binary.join hh hidx lh lidx _) as [[[output hi] lo]|]; [|discriminate].
  cbn [mbind outcome_bind bind].
  destruct (binary.fillSeries output _) as [series_|]; [|discriminate].
  cbn [mbind outcome_bind bind]. intros [= <-]. reflexivity.
Qed.





End BinaryNext.

Section Join.

Context `{!binary.LabelHasher} `{!binary.MapOrder}.
Context {operation : Type} `{!binary.JoinTable operation}.
Context {L R : Type} `{!VectorOperator L} `{!VectorOperator R}.

Implicit Types (b : binary.vectorOperator operation L R).
Implicit Types (m hashes : gmap N (list Series)).

Lemma buildOutputSeries_ID (seriesID : N) (h l : Series) (includeLabels : list string) :
  ID (binary.buildOutputSeries seriesID h l includeLabels) = seriesID.
Proof. reflexivity. Qed.

(** One group appends one output per series, numbered from the current
    length of the output. *)
Lemma groupLoop_output (highCardInputIndex : gmap N (list N)) (hash lowID : N)
    (low : Series) (includeLabels : list string) :
  forall (highCardSeries : list Series) (i : nat) (st st' : binary.joinState),
    binary.groupLoop highCardInputIndex hash lowID low includeLabels i highCardSeries st
    = Return st' ->
    map ID (binary.outputIndex st')
    = map ID (binary.outputIndex st)
      ++ map N.of_nat (seq (length (binary.outputIndex st)) (length highCardSeries)).
Proof.
  induction highCardSeries as [|output rest IH]; intros i st st' Hrun; simpl in *.
  - injection Hrun as <-. rewrite app_nil_r. reflexivity.
  - destruct (load (mapget highCardInputIndex hash) i) as [hid|]; [|discriminate].
    simpl in Hrun.
    destruct (store (binary.highCardOutputIndex st) _ _) as [hidx|]; [|discriminate].
    simpl in Hrun.
    destruct (load (binary.lowCardOutputIndex st) _) as [slot|]; [|discriminate].
    simpl in Hrun.
    destruct (store (binary.lowCardOutputIndex st) _ _) as [lidx|]; [|discriminate].
    simpl in Hrun.
    apply IH in Hrun. simpl in Hrun. rewrite Hrun.
    rewrite map_app, length_app. simpl. rewrite <- app_assoc. simpl.
    replace (length (binary.outputIndex st) + 1) with (S (length (binary.outputIndex st)))
      by lia.
    reflexivity.
Qed.

(** The second loop of [join] numbers its outputs consecutively, one per
    series of the groups it visits. *)
Lemma joinLoop_output (highCardInputIndex : gmap N (list N))
    (lowCardHashes : gmap N (list Series)) (lowCardInputIndex : gmap N (list N))
    (includeLabels : list string) :
  forall (entries : list (N * list Series)) (st st' : binary.joinState),
    binary.joinLoop highCardInputIndex lowCardHashes lowCardInputIndex includeLabels
      entries st = Return st' ->
    map ID (binary.outputIndex st')
    = map ID (binary.outputIndex st)
      ++ map N.of_nat (seq (length (binary.outputIndex st))
                         (sum_list_with (fun kv => length kv.2) entries)).
Proof.
  induction entries as [|[hash highCardSeries] entries IH]; intros st st' Hrun;
    simpl in *.
  - injection Hrun as <-. rewrite app_nil_r. reflexivity.
  - destruct (load (mapget lowCardInputIndex hash) 0) as [lowID|]; [|discriminate].
    simpl in Hrun.
    destruct (load (mapget lowCardHashes hash) 0) as [low|]; [|discriminate].
    simpl in Hrun.
    destruct (store (binary.lowCardOutputIndex st) _ _) as [lidx|]; [|discriminate].
    simpl in Hrun.
    destruct (binary.groupLoop _ _ _ _ _ _ _ _) as [st1|] eqn:Hgroup; [|discriminate].
    simpl in Hrun.
    apply groupLoop_output in Hgroup. simpl in Hgroup.
    apply IH in Hrun. rewrite Hrun, Hgroup.
    assert (Hlen : length (binary.outputIndex st1)
                   = length (binary.outputIndex st) + length highCardSeries).
    { rewrite <- (length_map ID (binary.outputIndex st1)), Hgroup.
      rewrite length_app, !length_map, length_seq. reflexivity. }
    rewrite Hlen, <- app_assoc, <- map_app, <- seq_app. reflexivity.
Qed.

(** The first loop of [join] keeps exactly the groups with a low
    cardinality partner, whatever the order of the visit. *)
Lemma pruneLoop_lookup (lowCardHashes : gmap N (list Series)) (k : N) :
  forall (entries : list (N * list Series)) (n : nat) m,
    (binary.pruneLoop lowCardHashes entries n m).2 !! k
    = match lowCardHashes !! k with
      | Some _ => m !! k
      | None => if decide (k ∈ entries.*1) then None else m !! k
      end.
Proof.
  unfold binary.pruneLoop.
  induction entries as [|[hash series] entries IH]; intros n m.
  - cbn [fold_left snd]. destruct (lowCardHashes !! k); [reflexivity|].
    destruct (decide (k ∈ [].*1)) as [Hin|_]; [inversion Hin|reflexivity].
  - cbn [fold_left]. change (((hash, series) :: entries).*1) with (hash :: entries.*1).
    destruct (lowCardHashes !! hash) as [low|] eqn:Hlow; rewrite IH.
    + destruct (lowCardHashes !! k) eqn:Hk; [reflexivity|].
      assert (k <> hash) by congruence.
      destruct (decide (k ∈ entries.*1)) as [Hin|Hnin];
        destruct (decide (k ∈ hash :: entries.*1)) as [Hin'|Hnin'];
        try reflexivity; exfalso.
      * apply Hnin'. right. exact Hin.
      * apply elem_of_cons in Hin' as [?|?]; contradiction.
    + destruct (lowCardHashes !! k) eqn:Hk.
      * apply lookup_delete_ne. congruence.
      * destruct (decide (k ∈ entries.*1)) as [Hin|Hnin];
          destruct (decide (k ∈ hash :: entries.*1)) as [Hin'|Hnin'];
          try reflexivity.
        -- exfalso. apply Hnin'. right. exact Hin.
        -- apply elem_of_cons in Hin' as [->|?]; [apply lookup_delete_eq|contradiction].
        -- apply lookup_delete_ne. intros ->. apply Hnin'. left.
Qed.

Lemma pruneLoop_filter (lowCardHashes : gmap N (list Series)) hashes :
  (binary.pruneLoop lowCardHashes (binary.rangeOrder hashes) 0 hashes).2
  = filter (fun kv => is_Some (lowCardHashes !! kv.1)) hashes.
Proof.
  apply map_eq. intros k. rewrite pruneLoop_lookup, map_lookup_filter.
  destruct (hashes !! k) as [series|] eqn:Hk; simpl.
  - destruct (lowCardHashes !! k) as [low|] eqn:Hlow.
    + rewrite option_guard_True by eauto. reflexivity.
    + rewrite option_guard_False by (intros [? ?]; discriminate).
      destruct (decide (k ∈ (binary.rangeOrder hashes).*1)) as [_|Hnin]; [reflexivity|].
      exfalso. apply Hnin. rewrite (binary.rangeOrder_perm _ hashes).
      apply list_elem_of_fmap. exists (k, series). split; [reflexivity|].
      apply elem_of_map_to_list. exact Hk.
  - destruct (lowCardHashes !! k); [reflexivity|]. destruct (decide _); reflexivity.
Qed.

Lemma join_output (highCardHashes : gmap N (list Series))
    (highCardInputIndex : gmap N (list N)) (lowCardHashes : gmap N (list Series))
    (lowCardInputIndex : gmap N (list N)) (includeLabels : list string)
    (output : list Series) (hi : list (option N)) (lo : list (list N)) :
  binary.join highCardHashes highCardInputIndex lowCardHashes lowCardInputIndex
    includeLabels = Return (output, hi, lo) ->
  spec.denseIDs output
  /\ length output
     = spec.sumLen (filter (fun kv => is_Some (lowCardHashes !! kv.1)) highCardHashes).
Proof.
  unfold binary.join. intros Hrun.
  pose proof (pruneLoop_filter lowCardHashes highCardHashes) as Hprune.
  destruct (binary.pruneLoop lowCardHashes (binary.rangeOrder highCardHashes) 0
              highCardHashes) as [outputSize pruned].
  simpl in Hprune. subst pruned.
  destruct (binary.joinLoop _ _ _ _ _ _) as [st|] eqn:Hloop; [|discriminate].
  simpl in Hrun. injection Hrun as <- <- <-.
  apply joinLoop_output in Hloop. simpl in Hloop.
  rewrite (binary.rangeOrder_perm _ _) in Hloop.
  fold (spec.sumLen (filter (fun kv => is_Some (lowCardHashes !! kv.1)) highCardHashes))
    in Hloop.
  assert (Hlen : length (binary.outputIndex st)
                 = spec.sumLen (filter (fun kv => is_Some (lowCardHashes !! kv.1))
                                  highCardHashes)).
  { rewrite <- (length_map ID), Hloop, length_map, length_seq. reflexivity. }
  split; [|exact Hlen].
  unfold spec.denseIDs. rewrite Hloop, Hlen. reflexivity.
Qed.

Lemma sumLen_insert_snoc m (k : N) (x : Series) :
  spec.sumLen (<[k := mapget m k ++ [x]]> m) = S (spec.sumLen m).
Proof.
  unfold spec.sumLen, mapget. destruct (m !! k) as [old|] eqn:Hk; simpl.
  - rewrite <- (insert_delete_eq m).
    rewrite map_to_list_insert by apply lookup_delete_eq.
    rewrite <- (map_to_list_delete m k old Hk). simpl.
    rewrite length_app. simpl. lia.
  - rewrite map_to_list_insert by exact Hk. reflexivity.
Qed.

Lemma sumLen_filter_insert_snoc (low : gmap N (list Series)) m (k : N) (x : Series) :
  spec.sumLen (filter (fun kv => is_Some (low !! kv.1)) (<[k := mapget m k ++ [x]]> m))
  = spec.sumLen (filter (fun kv => is_Some (low !! kv.1)) m)
    + (if decide (is_Some (low !! k)) then 1 else 0).
Proof.
  destruct (decide (is_Some (low !! k))) as [Hyes|Hno].
  - rewrite map_filter_insert_True by exact Hyes.
    replace (mapget m k)
      with (mapget (filter (fun kv : N * list Series => is_Some (low !! kv.1)) m) k).
    + rewrite sumLen_insert_snoc. lia.
    + unfold mapget. rewrite map_lookup_filter.
      destruct (m !! k) as [old|]; simpl; [|reflexivity].
      rewrite option_guard_True by exact Hyes. reflexivity.
  - rewrite map_filter_insert_not by (intros y; exact Hno). lia.
Qed.

Lemma hashStep_hashes b (keepLabels : bool) hashes (idx : gmap N (list N))
    (i : nat) (s : labels.Labels) :
  (binary.hashStep b keepLabels (hashes, idx) i s).1
  = <[spec.sigOf b keepLabels s :=
        mapget hashes (spec.sigOf b keepLabels s)
        ++ [{| ID := N.of_nat i;
               Metric := (binary.signature s (negb (binary.On (binary.matching b)))
                            (binary.groupingLabels b) keepLabels).2 |}]]> hashes.
Proof.
  unfold binary.hashStep, spec.sigOf.
  destruct (binary.signature s _ _ _) as [sig lbls]. simpl.
  destruct (hashes !! sig) as [old|] eqn:Hsig; simpl; [reflexivity|].
  unfold mapget. rewrite lookup_insert_eq, Hsig. simpl.
  apply insert_insert_eq.
Qed.

(** The series filed by [hashSeries] under signatures known to [low] are
    the series whose signature [low] knows. *)
Lemma hashLoop_sumLen b (keepLabels : bool) (low : gmap N (list Series)) :
  forall (series : list labels.Labels) (i : nat)
         (acc : gmap N (list Series) * gmap N (list N)),
    spec.sumLen (filter (fun kv => is_Some (low !! kv.1))
                   (binary.hashLoop b keepLabels i series acc).1)
    = spec.sumLen (filter (fun kv => is_Some (low !! kv.1)) acc.1)
      + length (filter (fun s => is_Some (low !! spec.sigOf b keepLabels s)) series).
Proof.
  induction series as [|s series IH]; intros i [hashes idx].
  - simpl. lia.
  - cbn [binary.hashLoop].
    rewrite IH, hashStep_hashes, sumLen_filter_insert_snoc. cbn [fst].
    destruct (decide (is_Some (low !! spec.sigOf b keepLabels s))) as [Hyes|Hno].
    + rewrite filter_cons_True by exact Hyes. simpl. lia.
    + rewrite filter_cons_False by exact Hno. lia.
Qed.

(** The signatures [hashSeries] knows are those of the series it was given. *)
Lemma hashLoop_dom b (keepLabels : bool) (k : N) :
  forall (series : list labels.Labels) (i : nat)
         (acc : gmap N (list Series) * gmap N (list N)),
    is_Some ((binary.hashLoop b keepLabels i series acc).1 !! k)
    <-> is_Some (acc.1 !! k) \/ k ∈ map (spec.sigOf b keepLabels) series.
Proof.
  induction series as [|s series IH]; intros i [hashes idx].
  - simpl. split; [auto|]. intros [?|Hin]; [assumption|inversion Hin].
  - cbn [binary.hashLoop map]. rewrite IH, hashStep_hashes. cbn [fst].
    destruct (decide (k = spec.sigOf b keepLabels s)) as [->|Hne].
    + rewrite lookup_insert_eq. split; [intros _; right; left|eauto].
    + rewrite lookup_insert_ne by congruence. rewrite elem_of_cons. tauto.
Qed.

(** *** The sizes of the two reverse indices *)

Lemma pruneLoop_size (lowCardHashes : gmap N (list Series)) :
  forall (entries : list (N * list Series)) (n : nat) m,
    (binary.pruneLoop lowCardHashes entries n m).1
    = n + sum_list_with (fun kv => length kv.2) entries.
Proof.
  unfold binary.pruneLoop.
  induction entries as [|[hash series] entries IH]; intros n m; cbn [fold_left].
  - simpl. lia.
  - destruct (lowCardHashes !! hash); rewrite IH; simpl; lia.
Qed.

Lemma store_length {A : Type} (l l' : list A) (i : nat) (x : A) :
  store l i x = Return l' -> length l' = length l.
Proof.
  unfold store. destruct (decide (i < length l)); [|discriminate].
  intros [= <-]. apply length_insert.
Qed.

Lemma groupLoop_lengths (highCardInputIndex : gmap N (list N)) (hash lowID : N)
    (low : Series) (includeLabels : list string) :
  forall (highCardSeries : list Series) (i : nat) (st st' : binary.joinState),
    binary.groupLoop highCardInputIndex hash lowID low includeLabels i highCardSeries st
    = Return st' ->
    length (binary.highCardOutputIndex st') = length (binary.highCardOutputIndex st)
    /\ length (binary.lowCardOutputIndex st') = length (binary.lowCardOutputIndex st).
Proof.
  induction highCardSeries as [|output rest IH]; intros i st st' Hrun; simpl in *.
  - injection Hrun as <-. auto.
  - destruct (load (mapget highCardInputIndex hash) i) as [hid|]; [|discriminate].
    simpl in Hrun.
    destruct (store (binary.highCardOutputIndex st) _ _) as [hidx|] eqn:Hh; [|discriminate].
    simpl in Hrun.
    destruct (load (binary.lowCardOutputIndex st) _) as [slot|]; [|discriminate].
    simpl in Hrun.
    destruct (store (binary.lowCardOutputIndex st) _ _) as [lidx|] eqn:Hl; [|discriminate].
    simpl in Hrun.
    apply IH in Hrun as [HH HL]. simpl in HH, HL.
    apply store_length in Hh, Hl. split; congruence.
Qed.

Lemma joinLoop_lengths (highCardInputIndex : gmap N (list N))
    (lowCardHashes : gmap N (list Series)) (lowCardInputIndex : gmap N (list N))
    (includeLabels : list string) :
  forall (entries : list (N * list Series)) (st st' : binary.joinState),
    binary.joinLoop highCardInputIndex lowCardHashes lowCardInputIndex includeLabels
      entries st = Return st' ->
    length (binary.highCardOutputIndex st') = length (binary.highCardOutputIndex st)
    /\ length (binary.lowCardOutputIndex st') = length (binary.lowCardOutputIndex st).
Proof.
  induction entries as [|[hash highCardSeries] entries IH]; intros st st' Hrun;
    simpl in *.
  - injection Hrun as <-. auto.
  - destruct (load (mapget lowCardInputIndex hash) 0) as [lowID|]; [|discriminate].
    simpl in Hrun.
    destruct (load (mapget lowCardHashes hash) 0) as [low|]; [|discriminate].
    simpl in Hrun.
    destruct (store (binary.lowCardOutputIndex st) _ _) as [lidx|] eqn:Hl; [|discriminate].
    simpl in Hrun.
    destruct (binary.groupLoop _ _ _ _ _ _ _ _) as [st1|] eqn:Hgroup; [|discriminate].
    simpl in Hrun.
    apply groupLoop_lengths in Hgroup as [HH1 HL1]. simpl in HH1, HL1.
    apply IH in Hrun as [HH HL]. apply store_length in Hl. split; congruence.
Qed.

(** The indices [join] returns: the high cardinality index has one slot per
    high cardinality series, the low cardinality index one slot per low
    cardinality grouping signature. *)
Lemma join_index_lengths (highCardHashes : gmap N (list Series))
    (highCardInputIndex : gmap N (list N)) (lowCardHashes : gmap N (list Series))
    (lowCardInputIndex : gmap N (list N)) (includeLabels : list string)
    (output : list Series) (hi : list (option N)) (lo : list (list N)) :
  binary.join highCardHashes highCardInputIndex lowCardHashes lowCardInputIndex
    includeLabels = Return (output, hi, lo) ->
  length hi = spec.sumLen highCardHashes /\ length lo = size lowCardInputIndex.
Proof.
  unfold binary.join. intros Hrun.
  pose proof (pruneLoop_size lowCardHashes (binary.rangeOrder highCardHashes) 0
                highCardHashes) as Hsize.
  destruct (binary.pruneLoop lowCardHashes (binary.rangeOrder highCardHashes) 0
              highCardHashes) as [outputSize pruned].
  destruct (binary.joinLoop _ _ _ _ _ _) as [st|] eqn:Hloop; [|discriminate].
  simpl in Hrun. injection Hrun as <- <- <-.
  apply joinLoop_lengths in Hloop as [HH HL].
  cbn [binary.highCardOutputIndex binary.lowCardOutputIndex fst] in HH, HL, Hsize.
  rewrite length_replicate in HH. rewrite length_replicate in HL.
  rewrite (binary.rangeOrder_perm _ highCardHashes) in Hsize.
  split; [|exact HL]. rewrite HH, Hsize. reflexivity.
Qed.

(** *** When [join] returns *)

Lemma hashLoop_total b (keepLabels : bool) :
  forall (series : list labels.Labels) (i : nat)
         (acc : gmap N (list Series) * gmap N (list N)),
    spec.sumLen (binary.hashLoop b keepLabels i series acc).1
    = spec.sumLen acc.1 + length series.
Proof.
  induction series as [|s series IH]; intros i [hashes idx].
  - simpl. lia.
  - cbn [binary.hashLoop]. rewrite IH, hashStep_hashes, sumLen_insert_snoc.
    simpl. lia.
Qed.

(** The index map of [hashStep], once its branch is known. *)
Ltac solve_index Hidx :=
  unfold mapget; try rewrite Hidx;
  try rewrite lookup_insert_eq; cbn [default];
  try rewrite insert_insert_eq; reflexivity.

Lemma hashStep_filed b (keepLabels : bool) hashes (idx : gmap N (list N))
    (i : nat) (s : labels.Labels) :
  spec.filed i hashes idx ->
  spec.filed (S i) (binary.hashStep b keepLabels (hashes, idx) i s).1
    (binary.hashStep b keepLabels (hashes, idx) i s).2
  /\ (binary.hashStep b keepLabels (hashes, idx) i s).2
     = <[spec.sigOf b keepLabels s := mapget idx (spec.sigOf b keepLabels s) ++ [N.of_nat i]]> idx.
Proof.
  intros Hfiled. unfold binary.hashStep, spec.sigOf.
  destruct (binary.signature s _ _ _) as [sig lbls]. cbn [fst snd].
  assert (Hmono : forall ids, Forall (fun id => N.to_nat id < i) ids ->
                              Forall (fun id => N.to_nat id < S i) ids).
  { intros ids Hall. eapply Forall_impl; [exact Hall|]. intros id. simpl. lia. }
  pose proof (Hfiled sig) as Hsig.
  destruct (hashes !! sig) as [ss|] eqn:Hh; destruct (idx !! sig) as [ids|] eqn:Hi;
    try contradiction; cbn [fst snd]; (split; [|solve_index Hi]).
  - intros k. destruct (decide (k = sig)) as [->|Hne].
    + rewrite !lookup_insert_eq. unfold mapget. rewrite Hh, Hi. cbn [default].
      destruct Hsig as (Hlen & Hne & Hall). rewrite !length_app. simpl.
      split; [lia|]. split; [destruct ss; discriminate|].
      apply Forall_app. split; [apply Hmono, Hall|].
      constructor; [rewrite Nat2N.id; lia|constructor].
    + rewrite !lookup_insert_ne by congruence. specialize (Hfiled k).
      destruct (hashes !! k), (idx !! k); try assumption.
      destruct Hfiled as (? & ? & ?). auto.
  - intros k. destruct (decide (k = sig)) as [->|Hne].
    + rewrite !lookup_insert_eq. unfold mapget. rewrite !lookup_insert_eq.
      cbn [default]. simpl. split; [reflexivity|]. split; [discriminate|].
      constructor; [rewrite Nat2N.id; lia|constructor].
    + rewrite !lookup_insert_ne by congruence. specialize (Hfiled k).
      destruct (hashes !! k), (idx !! k); try assumption.
      destruct Hfiled as (? & ? & ?). auto.
Qed.

Lemma hashLoop_filed b (keepLabels : bool) :
  forall (series : list labels.Labels) (i : nat)
         (acc : gmap N (list Series) * gmap N (list N)),
    spec.filed i acc.1 acc.2 ->
    spec.filed (i + length series) (binary.hashLoop b keepLabels i series acc).1
      (binary.hashLoop b keepLabels i series acc).2.
Proof.
  induction series as [|s series IH]; intros i [hashes idx] Hfiled.
  - simpl. rewrite Nat.add_0_r. exact Hfiled.
  - cbn [binary.hashLoop length].
    replace (i + S (length series)) with (S i + length series) by lia.
    apply IH. apply hashStep_filed. exact Hfiled.
Qed.

(** With pairwise distinct signatures every series opens a group. *)
Lemma hashLoop_size b (keepLabels : bool) :
  forall (series : list labels.Labels) (i : nat)
         (acc : gmap N (list Series) * gmap N (list N)),
    spec.filed i acc.1 acc.2 ->
    NoDup (map (spec.sigOf b keepLabels) series) ->
    (forall s, s ∈ series -> acc.1 !! spec.sigOf b keepLabels s = None) ->
    size (binary.hashLoop b keepLabels i series acc).2 = size acc.2 + length series.
Proof.
  induction series as [|s series IH]; intros i [hashes idx] Hfiled Hnodup Hfresh.
  - simpl. lia.
  - cbn [binary.hashLoop length]. cbn [map] in Hnodup.
    apply NoDup_cons in Hnodup as [Hnin Hnodup].
    destruct (hashStep_filed b keepLabels hashes idx i s Hfiled) as [Hfiled' Hidx].
    destruct (binary.hashStep b keepLabels (hashes, idx) i s) as [hashes' idx'] eqn:Hstep.
    rewrite IH; [| exact Hfiled' | exact Hnodup |].
    + cbn [fst snd] in *. rewrite Hidx.
      assert (Hnone : idx !! spec.sigOf b keepLabels s = None).
      { pose proof (Hfiled (spec.sigOf b keepLabels s)) as Hs.
        rewrite (Hfresh s) in Hs by left.
        destruct (idx !! spec.sigOf b keepLabels s); [contradiction|reflexivity]. }
      rewrite map_size_insert_None by exact Hnone. lia.
    + intros s' Hs'. cbn [fst].
      replace hashes' with (binary.hashStep b keepLabels (hashes, idx) i s).1
        by (rewrite Hstep; reflexivity).
      rewrite hashStep_hashes.
      rewrite lookup_insert_ne.
      * apply Hfresh. right. exact Hs'.
      * intros Heq. apply Hnin. rewrite Heq.
        apply list_elem_of_fmap. exists s'. auto.
Qed.

(** The loop over one group returns when the group's input IDs and the low
    cardinality ID are inside the two indices. *)
Lemma groupLoop_returns (highCardInputIndex : gmap N (list N)) (hash lowID : N)
    (low : Series) (includeLabels : list string) (nH nL : nat) :
  Forall (fun id => N.to_nat id < nH) (mapget highCardInputIndex hash) ->
  N.to_nat lowID < nL ->
  forall (highCardSeries : list Series) (i : nat) (st : binary.joinState),
    i + length highCardSeries <= length (mapget highCardInputIndex hash) ->
    length (binary.highCardOutputIndex st) = nH ->
    length (binary.lowCardOutputIndex st) = nL ->
    exists st',
      binary.groupLoop highCardInputIndex hash lowID low includeLabels i highCardSeries st
      = Return st'
      /\ length (binary.highCardOutputIndex st') = nH
      /\ length (binary.lowCardOutputIndex st') = nL.
Proof.
  intros Hids Hlow.
  induction highCardSeries as [|output rest IH]; intros i st Hlen HnH HnL.
  - simpl. eauto.
  - cbn [binary.groupLoop]. simpl in Hlen. unfold load, store.
    destruct (lookup_lt_is_Some_2 (mapget highCardInputIndex hash) i) as [hid Hhid];
      [lia|].
    rewrite Hhid. cbn [mbind outcome_bind bind].
    rewrite decide_True
      by (rewrite HnH; apply (proj1 (Forall_lookup _ _) Hids _ _ Hhid)).
    cbn [mbind outcome_bind bind].
    destruct (lookup_lt_is_Some_2 (binary.lowCardOutputIndex st) (N.to_nat lowID))
      as [slot Hslot]; [lia|].
    rewrite Hslot. cbn [mbind outcome_bind bind].
    rewrite decide_True by lia. cbn [mbind outcome_bind bind].
    apply IH; cbn [binary.highCardOutputIndex binary.lowCardOutputIndex].
    + lia.
    + rewrite length_insert. exact HnH.
    + rewrite length_insert. exact HnL.
Qed.

Lemma joinLoop_returns (highCardInputIndex : gmap N (list N))
    (lowCardHashes : gmap N (list Series)) (lowCardInputIndex : gmap N (list N))
    (includeLabels : list string) (nH nL : nat) :
  forall (entries : list (N * list Series)) (st : binary.joinState),
    Forall (fun kv =>
              length kv.2 <= length (mapget highCardInputIndex kv.1)
              /\ Forall (fun id => N.to_nat id < nH) (mapget highCardInputIndex kv.1)
              /\ (exists lowID, mapget lowCardInputIndex kv.1 !! 0 = Some lowID
                                /\ N.to_nat lowID < nL)
              /\ is_Some (mapget lowCardHashes kv.1 !! 0)) entries ->
    length (binary.highCardOutputIndex st) = nH ->
    length (binary.lowCardOutputIndex st) = nL ->
    exists st',
      binary.joinLoop highCardInputIndex lowCardHashes lowCardInputIndex includeLabels
        entries st = Return st'.
Proof.
  induction entries as [|[hash highCardSeries] entries IH]; intros st Hall HnH HnL.
  - simpl. eauto.
  - apply Forall_cons in Hall as [(Hlen & Hids & (lowID & HlowID & HlowLt) & [low Hlow]) Hall].
    cbn [fst snd] in *. cbn [binary.joinLoop]. unfold load at 1 2.
    rewrite HlowID, Hlow. cbn [mbind outcome_bind bind].
    unfold store at 1. rewrite decide_True by lia. cbn [mbind outcome_bind bind].
    edestruct (groupLoop_returns highCardInputIndex hash lowID low includeLabels nH nL
                 Hids HlowLt highCardSeries 0) as (st1 & Hrun & HnH1 & HnL1);
      [| | |rewrite Hrun].
    + simpl. exact Hlen.
    + exact HnH.
    + cbn [binary.lowCardOutputIndex]. rewrite length_insert. exact HnL.
    + cbn [mbind outcome_bind bind]. apply IH; assumption.
Qed.

(** [join] returns on the maps of [hashSeries] when the low cardinality
    series have pairwise distinct grouping signatures. *)
Lemma join_returns b (keepLabels : bool) (highCardSide lowCardSide : list labels.Labels)
    (includeLabels : list string) :
  NoDup (map (spec.sigOf b keepLabels) lowCardSide) ->
  exists (output : list Series) (hi : list (option N)) (lo : list (list N)),
    binary.join (binary.hashSeries b highCardSide keepLabels).1
      (binary.hashSeries b highCardSide keepLabels).2
      (binary.hashSeries b lowCardSide keepLabels).1
      (binary.hashSeries b lowCardSide keepLabels).2
      includeLabels = Return (output, hi, lo).
Proof.
  intros Hnodup.
  assert (Hempty : spec.filed 0 (∅ : gmap N (list Series)) (∅ : gmap N (list N))).
  { intros k. rewrite !lookup_empty. exact I. }
  pose proof (hashLoop_filed b keepLabels highCardSide 0 (∅, ∅) Hempty) as HfH.
  pose proof (hashLoop_filed b keepLabels lowCardSide 0 (∅, ∅) Hempty) as HfL.
  pose proof (hashLoop_total b keepLabels highCardSide 0 (∅, ∅)) as HsumH.
  pose proof (hashLoop_size b keepLabels lowCardSide 0 (∅, ∅) Hempty Hnodup
                (fun s _ => lookup_empty _)) as HsizeL.
  unfold binary.join. fold (binary.hashSeries b highCardSide keepLabels) in *.
  fold (binary.hashSeries b lowCardSide keepLabels) in *.
  destruct (binary.hashSeries b highCardSide keepLabels) as [hh hidx].
  destruct (binary.hashSeries b lowCardSide keepLabels) as [lh lidx].
  cbn [fst snd] in *.
  pose proof (pruneLoop_filter lh hh) as Hprune.
  pose proof (pruneLoop_size lh (binary.rangeOrder hh) 0 hh) as Hsize.
  destruct (binary.pruneLoop lh (binary.rangeOrder hh) 0 hh) as [outputSize pruned].
  cbn [fst snd] in *. subst pruned.
  rewrite (binary.rangeOrder_perm _ hh) in Hsize.
  fold (spec.sumLen hh) in Hsize. rewrite HsumH in Hsize.
  unfold spec.sumLen in Hsize. rewrite map_to_list_empty in Hsize. simpl in Hsize.
  rewrite map_size_empty in HsizeL. simpl in HsizeL.
  edestruct (joinLoop_returns hidx lh lidx includeLabels outputSize (size lidx))
    as (st' & Hrun); [| | |rewrite Hrun; cbn [mbind outcome_bind bind]; eauto].
  - apply Forall_forall. intros [hash hcs] Hin. cbn [fst snd].
    rewrite (binary.rangeOrder_perm _ _) in Hin.
    apply elem_of_map_to_list in Hin.
    apply map_lookup_filter_Some in Hin as [Hhh [lss Hlss]]. cbn [fst] in Hlss.
    pose proof (HfH hash) as HH. rewrite Hhh in HH.
    pose proof (HfL hash) as HL. rewrite Hlss in HL.
    unfold mapget.
    destruct (hidx !! hash) as [ids|]; [|contradiction].
    destruct (lidx !! hash) as [lids|]; [|contradiction].
    rewrite Hlss. cbn [default from_option id].
    destruct HH as (HlenH & _ & HallH). destruct HL as (HlenL & HneL & HallL).
    split; [lia|]. split.
    { subst outputSize. simpl in HallH. exact HallH. }
    destruct lss as [|l0 lss]; [congruence|].
    destruct lids as [|lid lids]; [discriminate|].
    split; [|simpl; eauto].
    exists lid. split; [reflexivity|].
    rewrite HsizeL. apply Forall_cons in HallL as [Hlid _]. simpl in Hlid. exact Hlid.
  - cbn [binary.highCardOutputIndex]. apply length_replicate.
  - cbn [binary.lowCardOutputIndex]. apply length_replicate.
Qed.

(** C6: the output series IDs assigned by [join] are the dense zero-based
    range [0 .. n-1], in output order, and [n] is the number of high
    cardinality input series whose grouping signature is present on the low
    cardinality side.  This holds for every order in which the maps are
    visited, whenever [join] returns; and it returns whenever the low
    cardinality series have pairwise distinct grouping signatures. *)
Theorem join_dense_ids b (keepLabels : bool) (highCardSide lowCardSide : list labels.Labels)
    (includeLabels : list string) :
  (forall (output : list Series) (hi : list (option N)) (lo : list (list N)),
      binary.join (binary.hashSeries b highCardSide keepLabels).1
        (binary.hashSeries b highCardSide keepLabels).2
        (binary.hashSeries b lowCardSide keepLabels).1
        (binary.hashSeries b lowCardSide keepLabels).2
        includeLabels = Return (output, hi, lo) ->
      map ID output = map N.of_nat (seq 0 (length output))
      /\ length output = spec.matched b keepLabels highCardSide lowCardSide)
  /\ (NoDup (map (spec.sigOf b keepLabels) lowCardSide) ->
      exists (output : list Series) (hi : list (option N)) (lo : list (list N)),
        binary.join (binary.hashSeries b highCardSide keepLabels).1
          (binary.hashSeries b highCardSide keepLabels).2
          (binary.hashSeries b lowCardSide keepLabels).1
          (binary.hashSeries b lowCardSide keepLabels).2
          includeLabels = Return (output, hi, lo)).
Proof.
  split; [|apply join_returns].
  intros output hi lo Hrun. apply join_output in Hrun as [Hdense Hlen].
  split; [exact Hdense|]. rewrite Hlen.
  unfold binary.hashSeries. rewrite hashLoop_sumLen. cbn [fst].
  rewrite map_filter_empty. unfold spec.sumLen at 1. rewrite map_to_list_empty.
  simpl. unfold spec.matched. f_equal. apply list_filter_iff. intros s.
  rewrite hashLoop_dom. cbn [fst]. rewrite lookup_empty.
  split; [intros [[? ?]|?]; [discriminate|assumption]|auto].
Qed.

End Join.

(** * The labels of a grouping signature and of an output series *)

Section SignatureLabels.

Context `{!binary.LabelHasher}.













End SignatureLabels.

(** * What [hashSeries] files *)

Section HashSeries.

Context `{!binary.LabelHasher} `{!binary.MapOrder}.
Context {operation : Type} `{!binary.JoinTable operation}.
Context {L R : Type} `{!VectorOperator L} `{!VectorOperator R}.

Implicit Types (b : binary.vectorOperator operation L R).

Lemma mapget_insert {A : Type} (m : gmap N (list A)) (k k' : N) (x : list A) :
  mapget (<[k := x]> m) k' = if decide (k' = k) then x else mapget m k'.
Proof.
  unfold mapget. destruct (decide (k' = k)) as [->|Hne].
  - rewrite lookup_insert_eq. reflexivity.
  - rewrite lookup_insert_ne by congruence. reflexivity.
Qed.

Lemma groupOf_cons b (keepLabels : bool) (k : N) (i : nat) (s : labels.Labels)
    (series : list labels.Labels) :
  spec.groupOf b keepLabels k i (s :: series)
  = (if decide (spec.sigOf b keepLabels s = k) then [(i, s)] else [])
    ++ spec.groupOf b keepLabels k (S i) series.
Proof.
  unfold spec.groupOf. cbn [length seq zip zip_with].
  rewrite filter_cons. cbn [snd]. destruct (decide _); reflexivity.
Qed.

(** Under each signature [hashLoop] appends the series of that signature,
    in input order, with their positions as IDs. *)
Lemma hashLoop_groups b (keepLabels : bool) (k : N) :
  forall (series : list labels.Labels) (i : nat)
         (acc : gmap N (list Series) * gmap N (list N)),
    spec.filed i acc.1 acc.2 ->
    mapget (binary.hashLoop b keepLabels i series acc).1 k
    = mapget acc.1 k ++ map (spec.entryOf b keepLabels) (spec.groupOf b keepLabels k i series)
    /\ mapget (binary.hashLoop b keepLabels i series acc).2 k
       = mapget acc.2 k
         ++ map (fun p => N.of_nat p.1) (spec.groupOf b keepLabels k i series).
Proof.
  induction series as [|s series IH]; intros i [hashes idx] Hfiled.
  - cbn [binary.hashLoop]. unfold spec.groupOf. simpl. rewrite !app_nil_r. auto.
  - cbn [binary.hashLoop].
    destruct (hashStep_filed b keepLabels hashes idx i s Hfiled) as [Hfiled' Hidx].
    pose proof (hashStep_hashes b keepLabels hashes idx i s) as Hhashes.
    destruct (binary.hashStep b keepLabels (hashes, idx) i s) as [hashes' idx'].
    cbn [fst snd] in *. destruct (IH (S i) (hashes', idx') Hfiled') as [IH1 IH2].
    cbn [fst snd] in *. rewrite IH1, IH2, Hhashes, Hidx, !mapget_insert, groupOf_cons.
    destruct (decide (k = spec.sigOf b keepLabels s)) as [->|Hne].
    + rewrite decide_True by reflexivity. cbn [map app].
      rewrite <- !app_assoc. split; reflexivity.
    + rewrite decide_False by congruence. split; reflexivity.
Qed.

(** Where a series is filed: position [i] holds [s] and [s] has signature [k]. *)
Lemma groupOf_elem_of b (keepLabels : bool) (k : N) (series : list labels.Labels)
    (i : nat) (s : labels.Labels) :
  (i, s) ∈ spec.groupOf b keepLabels k 0 series
  <-> series !! i = Some s /\ spec.sigOf b keepLabels s = k.
Proof.
  unfold spec.groupOf. rewrite list_elem_of_filter. cbn [snd].
  rewrite elem_of_lookup_zip_with. split.
  - intros (Hk & n & x & y & Heq & Hx & Hy). injection Heq as -> ->.
    apply lookup_seq in Hx as [-> _]. auto.
  - intros [Hs Hk]. split; [exact Hk|]. exists i, i, s. split; [reflexivity|].
    split; [|exact Hs]. apply lookup_seq. split; [reflexivity|].
    eapply lookup_lt_Some. exact Hs.
Qed.

Lemma groupOf_positions_NoDup b (keepLabels : bool) (k : N) (series : list labels.Labels) :
  NoDup (map (fun p => N.of_nat p.1) (spec.groupOf b keepLabels k 0 series)).
Proof.
  assert (Hfst : NoDup ((spec.groupOf b keepLabels k 0 series).*1)).
  { apply (sublist_NoDup _ (seq 0 (length series))); [apply NoDup_seq|].
    unfold spec.groupOf.
    rewrite <- (fst_zip (seq 0 (length series)) series) at 2
      by (rewrite length_seq; lia).
    apply fmap_sublist, sublist_filter. }
  replace (map (fun p : nat * labels.Labels => N.of_nat p.1)
             (spec.groupOf b keepLabels k 0 series))
    with (N.of_nat <$> (spec.groupOf b keepLabels k 0 series).*1)
    by (rewrite <- list_fmap_compose; reflexivity).
  apply NoDup_fmap_2; [intros x y; apply Nat2N.inj|exact Hfst].
Qed.

Lemma groupOf_nonempty b (keepLabels : bool) (k : N) (series : list labels.Labels) :
  k ∈ map (spec.sigOf b keepLabels) series <-> spec.groupOf b keepLabels k 0 series <> [].
Proof.
  split.
  - intros Hk Hnil. apply list_elem_of_fmap in Hk as (s & -> & Hs).
    apply list_elem_of_lookup in Hs as [i Hi].
    assert (Hin : (i, s) ∈ spec.groupOf b keepLabels (spec.sigOf b keepLabels s) 0 series)
      by (apply groupOf_elem_of; auto).
    rewrite Hnil in Hin. apply elem_of_nil in Hin. exact Hin.
  - intros Hne. destruct (spec.groupOf b keepLabels k 0 series) as [|[i s] g] eqn:Hg;
      [congruence|].
    assert (Hin : (i, s) ∈ spec.groupOf b keepLabels k 0 series)
      by (rewrite Hg; apply list_elem_of_here).
    apply groupOf_elem_of in Hin as [Hi <-].
    apply list_elem_of_fmap. exists s. split; [reflexivity|].
    eapply list_elem_of_lookup_2. exact Hi.
Qed.

(** The two maps of [hashSeries], read under a signature. *)
Lemma hashSeries_mapget b (keepLabels : bool) (series : list labels.Labels) (k : N) :
  mapget (binary.hashSeries b series keepLabels).1 k
  = map (spec.entryOf b keepLabels) (spec.groupOf b keepLabels k 0 series)
  /\ mapget (binary.hashSeries b series keepLabels).2 k
     = map (fun p => N.of_nat p.1) (spec.groupOf b keepLabels k 0 series).
Proof.
  assert (Hempty : spec.filed 0 (∅ : gmap N (list Series)) (∅ : gmap N (list N))).
  { intros k'. rewrite !lookup_empty. exact I. }
  unfold binary.hashSeries.
  destruct (hashLoop_groups b keepLabels k series 0 (∅, ∅) Hempty) as [Hg1 Hg2].
  cbn [fst snd] in *.
  assert (He : forall A : Type, mapget (∅ : gmap N (list A)) k = []).
  { intros A. unfold mapget. rewrite lookup_empty. reflexivity. }
  rewrite He in Hg1, Hg2. cbn [app] in Hg1, Hg2. auto.
Qed.

Lemma hashSeries_dom b (keepLabels : bool) (series : list labels.Labels) (k : N) :
  is_Some ((binary.hashSeries b series keepLabels).1 !! k)
  <-> k ∈ map (spec.sigOf b keepLabels) series.
Proof.
  unfold binary.hashSeries.
  rewrite (hashLoop_dom b keepLabels k series 0 (∅, ∅)). cbn [fst].
  rewrite lookup_empty. split; [intros [[? ?]|?]; [discriminate|assumption]|auto].
Qed.

(** X9: [hashSeries] files every series exactly once: under each grouping
    signature it holds the series with that signature, in input order, each
    with its input position as ID and the labels [signature] keeps; the
    second map holds the same positions; a signature is a key of both maps
    exactly when some series has it; and the series at position [i] is found
    under its own signature and under no other. *)
Theorem hashSeries_groups b (keepLabels : bool) (series : list labels.Labels) (k : N) :
  mapget (binary.hashSeries b series keepLabels).1 k
  = map (spec.entryOf b keepLabels) (spec.groupOf b keepLabels k 0 series)
  /\ mapget (binary.hashSeries b series keepLabels).2 k
     = map (fun p => N.of_nat p.1) (spec.groupOf b keepLabels k 0 series)
  /\ (is_Some ((binary.hashSeries b series keepLabels).1 !! k)
      <-> k ∈ map (spec.sigOf b keepLabels) series)
  /\ (is_Some ((binary.hashSeries b series keepLabels).2 !! k)
      <-> k ∈ map (spec.sigOf b keepLabels) series)
  /\ (forall i : nat,
        N.of_nat i ∈ mapget (binary.hashSeries b series keepLabels).2 k
        <-> exists s, series !! i = Some s /\ spec.sigOf b keepLabels s = k)
  /\ NoDup (mapget (binary.hashSeries b series keepLabels).2 k).
Proof.
  destruct (hashSeries_mapget b keepLabels series k) as [Hg1 Hg2].
  pose proof (hashSeries_dom b keepLabels series k) as Hdom.
  assert (Hempty : spec.filed 0 (∅ : gmap N (list Series)) (∅ : gmap N (list N))).
  { intros k'. rewrite !lookup_empty. exact I. }
  pose proof (hashLoop_filed b keepLabels series 0 (∅, ∅) Hempty k) as Hk.
  fold (binary.hashSeries b series keepLabels) in Hk.
  split; [exact Hg1|]. split; [exact Hg2|]. split; [exact Hdom|]. split; [|split].
  - rewrite <- Hdom.
    destruct ((binary.hashSeries b series keepLabels).1 !! k),
             ((binary.hashSeries b series keepLabels).2 !! k);
      try contradiction; split; intros [? ?]; try discriminate; eauto.
  - intros i. rewrite Hg2, list_elem_of_fmap. split.
    + intros ([i' s] & Heq & Hin). cbn [fst] in Heq. apply Nat2N.inj in Heq. subst i'.
      apply groupOf_elem_of in Hin. eauto.
    + intros (s & Hs & Hsig). exists (i, s). split; [reflexivity|].
      apply groupOf_elem_of. auto.
  - rewrite Hg2. apply groupOf_positions_NoDup.
Qed.

End HashSeries.

(** * The indexes [join] builds *)

Section JoinIndexes.

Context `{!binary.LabelHasher} `{!binary.MapOrder}.
Context {operation : Type} `{!binary.JoinTable operation}.
Context {L R : Type} `{!VectorOperator L} `{!VectorOperator R}.

Implicit Types (b : binary.vectorOperator operation L R).

Lemma newIDs_lookup (start n i : nat) :
  (i < n)%nat -> spec.newIDs start n !! i = Some (N.of_nat (start + i)).
Proof.
  intros Hlt. unfold spec.newIDs. rewrite list_lookup_fmap.
  rewrite (lookup_seq_lt _ _ _ Hlt). reflexivity.
Qed.

Lemma newIDs_S (start n : nat) :
  spec.newIDs start (S n) = N.of_nat start :: spec.newIDs (S start) n.
Proof. reflexivity. Qed.

(** One group of [join]: the outputs appended, the slot of the low
    cardinality series extended, and the cells of the high cardinality index
    written. *)
Lemma load_inv {A B : Type} (l : list A) (i : nat) (k : A -> outcome B) (r : B) :
  (x ← load l i; k x) = Return r -> exists x, l !! i = Some x /\ k x = Return r.
Proof.
  unfold load. destruct (l !! i) as [x|]; cbn [mbind outcome_bind bind]; [eauto|discriminate].
Qed.

Lemma store_inv {A B : Type} (l : list A) (i : nat) (x : A) (k : list A -> outcome B)
    (r : B) :
  (l' ← store l i x; k l') = Return r -> (i < length l)%nat /\ k (<[i := x]> l) = Return r.
Proof.
  unfold store. destruct (decide (i < length l)%nat);
    cbn [mbind outcome_bind bind]; [eauto|discriminate].
Qed.

Lemma groupLoop_exact (highCardInputIndex : gmap N (list N)) (hash lowID : N)
    (low : Series) (includeLabels : list string) :
  forall (highCardSeries : list Series) (i : nat) (st st' : binary.joinState),
    binary.groupLoop highCardInputIndex hash lowID low includeLabels i highCardSeries st
    = Return st' ->
    NoDup (drop i (mapget highCardInputIndex hash)) ->
    binary.outputIndex st'
    = binary.outputIndex st
      ++ zip_with (fun id x => binary.buildOutputSeries id x low includeLabels)
           (spec.newIDs (length (binary.outputIndex st)) (length highCardSeries))
           highCardSeries
    /\ binary.lowCardOutputIndex st'
       = <[N.to_nat lowID :=
             default [] (binary.lowCardOutputIndex st !! N.to_nat lowID)
             ++ spec.newIDs (length (binary.outputIndex st)) (length highCardSeries)]>
           (binary.lowCardOutputIndex st)
    /\ (forall (n : nat) (x : Series),
          highCardSeries !! n = Some x ->
          exists hid : N,
            mapget highCardInputIndex hash !! (i + n)%nat = Some hid
            /\ binary.highCardOutputIndex st' !! N.to_nat hid
               = Some (Some (N.of_nat (length (binary.outputIndex st) + n))))
    /\ (forall p : nat,
          (forall (n : nat) (hid : N),
              (n < length highCardSeries)%nat ->
              mapget highCardInputIndex hash !! (i + n)%nat = Some hid ->
              N.to_nat hid <> p) ->
          binary.highCardOutputIndex st' !! p = binary.highCardOutputIndex st !! p).
Proof.
  induction highCardSeries as [|x rest IH]; intros i st st' Hrun Hnodup.
  - cbn [binary.groupLoop] in Hrun. injection Hrun as <-.
    cbn [length spec.newIDs seq map zip_with]. rewrite !app_nil_r.
    split; [reflexivity|]. split.
    + destruct (binary.lowCardOutputIndex st !! N.to_nat lowID) as [slot|] eqn:Hslot;
        cbn [default from_option id].
      * symmetry. apply list_insert_id. exact Hslot.
      * symmetry. apply list_insert_ge. apply lookup_ge_None. exact Hslot.
    + split; [intros n y Hy; destruct n; discriminate Hy|reflexivity].
  - cbn [binary.groupLoop] in Hrun.
    destruct (load_inv _ _ _ _ Hrun) as (hid0 & Hhid0 & Hrun1). clear Hrun.
    destruct (store_inv _ _ _ _ _ Hrun1) as (HinH & Hrun2). clear Hrun1.
    destruct (load_inv _ _ _ _ Hrun2) as (slot & Hslot & Hrun3). clear Hrun2.
    destruct (store_inv _ _ _ _ _ Hrun3) as (HinL & Hrun). clear Hrun3.
    rewrite (drop_S _ _ _ Hhid0) in Hnodup. apply NoDup_cons in Hnodup as [Hfresh Hnodup].
    destruct (IH (S i) _ st' Hrun Hnodup) as (Hout & Hlow & Hwritten & Hother).
    cbn [binary.outputIndex binary.highCardOutputIndex binary.lowCardOutputIndex]
      in Hout, Hlow, Hwritten, Hother.
    rewrite buildOutputSeries_ID in Hlow, Hother.
    rewrite length_app in Hout, Hlow, Hwritten. cbn [length] in Hout, Hlow, Hwritten.
    rewrite Nat.add_1_r in Hout, Hlow, Hwritten.
    assert (Hrest : forall (n : nat) (hid : N),
               (n < length rest)%nat ->
               mapget highCardInputIndex hash !! (S i + n)%nat = Some hid ->
               N.to_nat hid <> N.to_nat hid0).
    { intros n hid _ Hhid Heq. apply N2Nat.inj in Heq. subst hid.
      apply Hfresh. apply (list_elem_of_lookup_2 _ n). rewrite lookup_drop. exact Hhid. }
    split; [|split; [|split]].
    + rewrite Hout, <- app_assoc. cbn [length]. rewrite newIDs_S. reflexivity.
    + rewrite Hlow, list_lookup_insert_eq by exact HinL.
      rewrite list_insert_insert_eq, Hslot. cbn [default from_option id length].
      rewrite newIDs_S, <- app_assoc. reflexivity.
    + intros n y Hy. destruct n as [|n].
      * exists hid0. rewrite Nat.add_0_r. split; [exact Hhid0|].
        rewrite (Hother _ Hrest). rewrite Nat.add_0_r.
        apply list_lookup_insert_eq. exact HinH.
      * cbn in Hy. destruct (Hwritten n y Hy) as (hid & Hhid & Hcell).
        exists hid. rewrite Nat.add_succ_r. split; [exact Hhid|].
        rewrite Hcell. do 3 f_equal. lia.
    + intros p Havoid. rewrite Hother.
      * apply list_lookup_insert_ne. apply (Havoid 0%nat hid0); [cbn [length]; lia|].
        rewrite Nat.add_0_r. exact Hhid0.
      * intros n hid Hlt Hhid. apply (Havoid (S n) hid); [cbn [length]; lia|].
        rewrite Nat.add_succ_r. exact Hhid.
Qed.

(** The second loop of [join], group by group, for input indexes that file
    each position once. *)
Lemma joinLoop_groups (highCardInputIndex : gmap N (list N))
    (lowCardHashes : gmap N (list Series)) (lowCardInputIndex : gmap N (list N))
    (includeLabels : list string) :
  (forall k, NoDup (mapget highCardInputIndex k)) ->
  (forall k1 k2 x, x ∈ mapget highCardInputIndex k1 ->
                   x ∈ mapget highCardInputIndex k2 -> k1 = k2) ->
  (forall k1 k2 l, mapget lowCardInputIndex k1 !! 0%nat = Some l ->
                   mapget lowCardInputIndex k2 !! 0%nat = Some l -> k1 = k2) ->
  forall (entries : list (N * list Series)) (st st' : binary.joinState),
    binary.joinLoop highCardInputIndex lowCardHashes lowCardInputIndex includeLabels
      entries st = Return st' ->
    NoDup entries.*1 ->
    (forall kv, kv ∈ entries ->
        spec.grouped highCardInputIndex lowCardHashes lowCardInputIndex includeLabels kv st')
    /\ (forall p : nat,
          (forall kv hid, kv ∈ entries -> hid ∈ mapget highCardInputIndex kv.1 ->
                          N.to_nat hid <> p) ->
          binary.highCardOutputIndex st' !! p = binary.highCardOutputIndex st !! p)
    /\ (forall p : nat,
          (forall kv l, kv ∈ entries -> mapget lowCardInputIndex kv.1 !! 0%nat = Some l ->
                        N.to_nat l <> p) ->
          binary.lowCardOutputIndex st' !! p = binary.lowCardOutputIndex st !! p)
    /\ exists ext, binary.outputIndex st' = binary.outputIndex st ++ ext.
Proof.
  intros HN HD LD.
  induction entries as [|[k hcs] es IH]; intros st st' Hrun Hkeys.
  - cbn [binary.joinLoop] in Hrun. injection Hrun as <-.
    split; [intros kv Hin; apply elem_of_nil in Hin; contradiction|].
    split; [reflexivity|]. split; [reflexivity|]. exists []. rewrite app_nil_r. reflexivity.
  - cbn [binary.joinLoop] in Hrun.
    destruct (load_inv _ _ _ _ Hrun) as (l & Hl & Hrun1). clear Hrun.
    destruct (load_inv _ _ _ _ Hrun1) as (low & Hlow & Hrun2). clear Hrun1.
    destruct (store_inv _ _ _ _ _ Hrun2) as (HinL & Hrun). clear Hrun2.
    destruct (binary.groupLoop highCardInputIndex k l low includeLabels 0 hcs _)
      as [st1|] eqn:Hgroup; [|discriminate].
    cbn [mbind outcome_bind bind] in Hrun.
    cbn [fmap list_fmap fst] in Hkeys. apply NoDup_cons in Hkeys as [Hfresh Hkeys].
    destruct (IH st1 st' Hrun Hkeys) as (Hes & HhiEs & HloEs & [ext Hext]).
    apply groupLoop_exact in Hgroup as (Hout & Hlo & Hwritten & Hother);
      [|rewrite drop_0; apply HN].
    cbn [binary.outputIndex binary.highCardOutputIndex binary.lowCardOutputIndex]
      in Hout, Hlo, Hwritten, Hother.
    rewrite list_lookup_insert_eq in Hlo by exact HinL.
    rewrite list_insert_insert_eq in Hlo. cbn [default from_option id app] in Hlo.
    assert (Hother_key : forall kv, kv ∈ es -> kv.1 <> k).
    { intros kv Hin Heq. apply Hfresh. rewrite <- Heq.
      apply list_elem_of_fmap. exists kv. auto. }
    split; [|split; [|split]].
    + intros kv Hin. apply elem_of_cons in Hin as [->|Hin]; [|apply Hes; exact Hin].
      exists low, l, (length (binary.outputIndex st)). cbn [fst snd].
      split; [exact Hlow|]. split; [exact Hl|]. split.
      * rewrite HloEs.
        -- rewrite Hlo. apply list_lookup_insert_eq. exact HinL.
        -- intros kv l' Hin Hl' Heq. apply N2Nat.inj in Heq. subst l'.
           apply (Hother_key kv Hin). apply (LD _ _ l); assumption.
      * intros n x Hx. destruct (Hwritten n x Hx) as (hid & Hhid & Hcell).
        cbn [Nat.add] in Hhid. exists hid. split; [exact Hhid|]. split.
        -- rewrite HhiEs; [exact Hcell|].
           intros kv hid' Hin Hhid' Heq. apply N2Nat.inj in Heq. subst hid'.
           apply (Hother_key kv Hin). apply (HD _ _ hid); [exact Hhid'|].
           eapply list_elem_of_lookup_2. exact Hhid.
        -- rewrite Hext, Hout.
           assert (Hnew : zip_with
                            (fun id y => binary.buildOutputSeries id y low includeLabels)
                            (spec.newIDs (length (binary.outputIndex st)) (length hcs))
                            hcs !! n
                          = Some (binary.buildOutputSeries
                                    (N.of_nat (length (binary.outputIndex st) + n)) x low
                                    includeLabels)).
           { rewrite lookup_zip_with.
             rewrite newIDs_lookup by (eapply lookup_lt_Some; exact Hx).
             cbn [mbind option_bind]. rewrite Hx. reflexivity. }
           apply lookup_app_l_Some. rewrite lookup_app_r by lia.
           replace (length (binary.outputIndex st) + n - length (binary.outputIndex st))%nat
             with n by lia.
           exact Hnew.
    + intros p Havoid. rewrite HhiEs.
      * apply Hother. intros n hid _ Hhid. cbn [Nat.add] in Hhid.
        apply (Havoid (k, hcs) hid); [apply list_elem_of_here|].
        eapply list_elem_of_lookup_2. exact Hhid.
      * intros kv hid Hin. apply Havoid. apply list_elem_of_further. exact Hin.
    + intros p Havoid. rewrite HloEs.
      * rewrite Hlo. apply list_lookup_insert_ne.
        apply (Havoid (k, hcs) l); [apply list_elem_of_here|exact Hl].
      * intros kv l' Hin. apply Havoid. apply list_elem_of_further. exact Hin.
    + exists (zip_with (fun id y => binary.buildOutputSeries id y low includeLabels)
                (spec.newIDs (length (binary.outputIndex st)) (length hcs)) hcs ++ ext).
      rewrite Hext, Hout, <- app_assoc. reflexivity.
Qed.

(** The surviving groups [join] visits: the groups of the high cardinality
    side whose signature the low cardinality side has, each once. *)
Lemma pruned_entries (highCardHashes lowCardHashes : gmap N (list Series)) :
  NoDup (binary.rangeOrder
           (filter (fun kv => is_Some (lowCardHashes !! kv.1)) highCardHashes)).*1
  /\ forall k hcs,
       (k, hcs) ∈ binary.rangeOrder
                    (filter (fun kv => is_Some (lowCardHashes !! kv.1)) highCardHashes)
       <-> highCardHashes !! k = Some hcs /\ is_Some (lowCardHashes !! k).
Proof.
  split.
  - rewrite (binary.rangeOrder_perm _ _). apply NoDup_fst_map_to_list.
  - intros k hcs. rewrite (binary.rangeOrder_perm _ _), elem_of_map_to_list.
    rewrite map_lookup_filter_Some. reflexivity.
Qed.

(** X10: what [join] returns for the two sides of a binary operation.  The high
    cardinality index has one cell per high cardinality series.  For every
    signature both sides have, the outputs of the group are consecutive IDs:
    the [n]-th high cardinality series of the group owns output [start + n],
    built from it and from the first low cardinality series of that
    signature, and the slot of that low cardinality series lists all of
    them.  A high cardinality series without partner has an empty cell, and
    only the first low cardinality series of a shared signature has a
    non-empty slot. *)
Theorem join_indexes b (keepLabels : bool) (highCardSide lowCardSide : list labels.Labels)
    (includeLabels : list string)
    (output : list Series) (hi : list (option N)) (lo : list (list N)) :
  binary.join (binary.hashSeries b highCardSide keepLabels).1
    (binary.hashSeries b highCardSide keepLabels).2
    (binary.hashSeries b lowCardSide keepLabels).1
    (binary.hashSeries b lowCardSide keepLabels).2
    includeLabels = Return (output, hi, lo) ->
  length hi = length highCardSide
  /\ (forall k,
        k ∈ map (spec.sigOf b keepLabels) highCardSide ->
        k ∈ map (spec.sigOf b keepLabels) lowCardSide ->
        exists (start j : nat) (t : labels.Labels),
          head (spec.groupOf b keepLabels k 0 lowCardSide) = Some (j, t)
          /\ lo !! j
             = Some (spec.newIDs start
                       (length (spec.groupOf b keepLabels k 0 highCardSide)))
          /\ forall (n i : nat) (s : labels.Labels),
               spec.groupOf b keepLabels k 0 highCardSide !! n = Some (i, s) ->
               hi !! i = Some (Some (N.of_nat (start + n)))
               /\ output !! (start + n)%nat
                  = Some (binary.buildOutputSeries (N.of_nat (start + n))
                            (spec.entryOf b keepLabels (i, s))
                            (spec.entryOf b keepLabels (j, t)) includeLabels))
  /\ (forall (i : nat) (s : labels.Labels),
        highCardSide !! i = Some s ->
        spec.sigOf b keepLabels s ∉ map (spec.sigOf b keepLabels) lowCardSide ->
        hi !! i = Some None)
  /\ (forall (j : nat) (ids : list N),
        lo !! j = Some ids -> ids <> [] ->
        exists t : labels.Labels,
          head (spec.groupOf b keepLabels (spec.sigOf b keepLabels t) 0 lowCardSide)
          = Some (j, t)
          /\ spec.sigOf b keepLabels t ∈ map (spec.sigOf b keepLabels) highCardSide).
Proof.
  intros Hjoin.
  pose proof (join_index_lengths _ _ _ _ _ _ _ _ Hjoin) as [HlenH _].
  assert (Htotal : length hi = length highCardSide).
  { rewrite HlenH. unfold binary.hashSeries. rewrite hashLoop_total. cbn [fst].
    unfold spec.sumLen. rewrite map_to_list_empty. reflexivity. }
  pose proof (fun k => proj1 (hashSeries_mapget b keepLabels highCardSide k)) as HhhK.
  pose proof (fun k => proj2 (hashSeries_mapget b keepLabels highCardSide k)) as HhidxK.
  pose proof (fun k => proj1 (hashSeries_mapget b keepLabels lowCardSide k)) as HlhK.
  pose proof (fun k => proj2 (hashSeries_mapget b keepLabels lowCardSide k)) as HlidxK.
  pose proof (hashSeries_dom b keepLabels highCardSide) as HdomH.
  pose proof (hashSeries_dom b keepLabels lowCardSide) as HdomL.
  destruct (binary.hashSeries b highCardSide keepLabels) as [hh hidx].
  destruct (binary.hashSeries b lowCardSide keepLabels) as [lh lidx].
  cbn [fst snd] in *.
  assert (Hpos : forall k x, x ∈ mapget hidx k ->
                   exists i s, x = N.of_nat i /\ highCardSide !! i = Some s
                               /\ spec.sigOf b keepLabels s = k).
  { intros k x Hx. rewrite HhidxK in Hx.
    apply list_elem_of_fmap in Hx as ([i s] & -> & Hin).
    apply groupOf_elem_of in Hin as [Hi Hs]. cbn [fst]. eauto. }
  assert (Hfirst : forall k l, mapget lidx k !! 0%nat = Some l ->
                     exists j t, l = N.of_nat j
                                 /\ spec.groupOf b keepLabels k 0 lowCardSide !! 0%nat
                                    = Some (j, t)
                                 /\ spec.sigOf b keepLabels t = k).
  { intros k l Hl. rewrite HlidxK, list_lookup_fmap in Hl.
    destruct (spec.groupOf b keepLabels k 0 lowCardSide !! 0%nat) as [[j t]|] eqn:Hg;
      [|discriminate].
    cbn in Hl. injection Hl as <-. exists j, t. split; [reflexivity|].
    split; [reflexivity|].
    apply list_elem_of_lookup_2 in Hg. apply groupOf_elem_of in Hg as [_ Hs]. exact Hs. }
  assert (HN : forall k, NoDup (mapget hidx k)).
  { intros k. rewrite HhidxK. apply groupOf_positions_NoDup. }
  assert (HD : forall k1 k2 x, x ∈ mapget hidx k1 -> x ∈ mapget hidx k2 -> k1 = k2).
  { intros k1 k2 x Hx1 Hx2.
    apply Hpos in Hx1 as (i1 & s1 & -> & Hi1 & <-).
    apply Hpos in Hx2 as (i2 & s2 & Heq & Hi2 & <-).
    apply Nat2N.inj in Heq. subst i2. congruence. }
  assert (LD : forall k1 k2 l, mapget lidx k1 !! 0%nat = Some l ->
                 mapget lidx k2 !! 0%nat = Some l -> k1 = k2).
  { intros k1 k2 l Hl1 Hl2.
    apply Hfirst in Hl1 as (j1 & t1 & -> & Hg1 & <-).
    apply Hfirst in Hl2 as (j2 & t2 & Heq & Hg2 & <-).
    apply Nat2N.inj in Heq. subst j2.
    apply list_elem_of_lookup_2, groupOf_elem_of in Hg1 as [Hj1 _].
    apply list_elem_of_lookup_2, groupOf_elem_of in Hg2 as [Hj2 _]. congruence. }
  unfold binary.join in Hjoin.
  pose proof (pruneLoop_filter lh hh) as Hprune.
  destruct (binary.pruneLoop lh (binary.rangeOrder hh) 0 hh) as [outputSize pruned].
  cbn [snd] in Hprune. subst pruned.
  destruct (binary.joinLoop _ _ _ _ _ _) as [st|] eqn:Hloop; [|discriminate].
  cbn [mbind outcome_bind bind] in Hjoin. injection Hjoin as <- <- <-.
  destruct (pruned_entries hh lh) as [Hkeys Hentries].
  pose proof (joinLoop_lengths _ _ _ _ _ _ _ Hloop) as [HsizeH _].
  destruct (joinLoop_groups hidx lh lidx includeLabels HN HD LD _ _ _ Hloop Hkeys)
    as (Hgroups & HhiOther & HloOther & _).
  cbn [binary.outputIndex binary.highCardOutputIndex binary.lowCardOutputIndex]
    in HhiOther, HloOther, HsizeH.
  split; [exact Htotal|]. split; [|split].
  - intros k HkH HkL.
    apply HdomH in HkH as [hcs Hhcs]. apply HdomL in HkL.
    assert (Hin : (k, hcs) ∈ binary.rangeOrder
                    (filter (fun kv => is_Some (lh !! kv.1)) hh))
      by (apply Hentries; auto).
    destruct (Hgroups _ Hin) as (lowS & l & start & Hlow & Hl & Hslot & Hall).
    cbn [fst snd] in Hlow, Hl, Hslot, Hall.
    assert (Hmembers : hcs = map (spec.entryOf b keepLabels)
                               (spec.groupOf b keepLabels k 0 highCardSide)).
    { rewrite <- HhhK. unfold mapget. rewrite Hhcs. reflexivity. }
    destruct (Hfirst k l Hl) as (j & t & -> & Hg & _).
    rewrite HlhK, list_lookup_fmap, Hg in Hlow. cbn in Hlow. injection Hlow as <-.
    exists start, j, t. rewrite head_lookup. split; [exact Hg|].
    rewrite Nat2N.id in Hslot. split.
    + rewrite Hslot, Hmembers, length_map. reflexivity.
    + intros n i s Hn.
      assert (Hx : hcs !! n = Some (spec.entryOf b keepLabels (i, s))).
      { rewrite Hmembers, list_lookup_fmap, Hn. reflexivity. }
      destruct (Hall n _ Hx) as (hid & Hhid & Hcell & Hout).
      rewrite HhidxK, list_lookup_fmap, Hn in Hhid. cbn in Hhid. injection Hhid as <-.
      rewrite Nat2N.id in Hcell. auto.
  - intros i s Hi Hsig.
    assert (Hcell : binary.highCardOutputIndex st !! i
                    = replicate outputSize (@None N) !! i).
    { apply HhiOther. intros [k hcs] hid Hin Hhid Heq. cbn [fst] in Hhid.
      apply Hpos in Hhid as (i' & s' & -> & Hi' & Hs').
      rewrite Nat2N.id in Heq. subst i'.
      apply Hentries in Hin as [_ HkL]. apply HdomL in HkL.
      apply Hsig. congruence. }
    rewrite Hcell. apply lookup_replicate_2.
    rewrite length_replicate in HsizeH. rewrite <- HsizeH, Htotal.
    eapply lookup_lt_Some. exact Hi.
  - intros j ids Hslot Hne.
    destruct (decide (Exists (fun kv : N * list Series =>
                                mapget lidx kv.1 !! 0%nat = Some (N.of_nat j))
                        (binary.rangeOrder
                           (filter (fun kv => is_Some (lh !! kv.1)) hh))))
      as [Hex|Hnone].
    + apply Exists_exists in Hex as ([k hcs] & Hin & Hl). cbn [fst] in Hl.
      destruct (Hfirst k _ Hl) as (j' & t & Heq & Hg & Hs).
      apply Nat2N.inj in Heq. subst j'.
      exists t. rewrite Hs, head_lookup. split; [exact Hg|].
      apply Hentries in Hin as [Hhcs _]. apply HdomH. eauto.
    + exfalso. apply Hne.
      assert (Hcell : binary.lowCardOutputIndex st !! j
                      = replicate (size lidx) (@nil N) !! j).
      { apply HloOther. intros kv l Hin Hl Heq. apply Hnone.
        apply Exists_exists. exists kv. split; [exact Hin|].
        rewrite Hl, <- Heq, N2Nat.id. reflexivity. }
      rewrite Hslot in Hcell. symmetry in Hcell.
      apply lookup_replicate in Hcell as [-> _]. reflexivity.
Qed.

Lemma hashSeries_index_dom b (keepLabels : bool) (series : list labels.Labels) (k : N) :
  is_Some ((binary.hashSeries b series keepLabels).2 !! k)
  <-> k ∈ map (spec.sigOf b keepLabels) series.
Proof.
  rewrite <- hashSeries_dom.
  assert (Hempty : spec.filed 0 (∅ : gmap N (list Series)) (∅ : gmap N (list N))).
  { intros k'. rewrite !lookup_empty. exact I. }
  pose proof (hashLoop_filed b keepLabels series 0 (∅, ∅) Hempty k) as Hk.
  fold (binary.hashSeries b series keepLabels) in Hk.
  destruct ((binary.hashSeries b series keepLabels).1 !! k),
           ((binary.hashSeries b series keepLabels).2 !! k);
    try contradiction; split; intros [? ?]; try discriminate; eauto.
Qed.

(** The low cardinality index has one slot per distinct signature. *)
Lemma hashSeries_index_size b (keepLabels : bool) (series : list labels.Labels) :
  size (binary.hashSeries b series keepLabels).2
  = length (remove_dups (map (spec.sigOf b keepLabels) series)).
Proof.
  rewrite <- length_map_to_list, <- (length_fmap fst).
  apply Permutation_length, NoDup_Permutation.
  - apply NoDup_fst_map_to_list.
  - apply NoDup_remove_dups.
  - intros k. rewrite elem_of_remove_dups, <- hashSeries_index_dom. split.
    + intros Hk. apply list_elem_of_fmap in Hk as ([k' v] & -> & Hin).
      apply elem_of_map_to_list in Hin. cbn [fst]. eauto.
    + intros [v Hv]. apply list_elem_of_fmap. exists (k, v). split; [reflexivity|].
      apply elem_of_map_to_list. exact Hv.
Qed.

(** X11: the low cardinality index gets as many slots as there are distinct low
    cardinality signatures (the size of the input index map), and [join]
    returns exactly when the first low cardinality series of every shared
    signature sits below that number: the slots are counted by signature but
    addressed by series position.  Otherwise a store into the index is out
    of range. *)
Theorem join_returns_iff b (keepLabels : bool) (highCardSide lowCardSide : list labels.Labels)
    (includeLabels : list string) :
  size (binary.hashSeries b lowCardSide keepLabels).2
  = length (remove_dups (map (spec.sigOf b keepLabels) lowCardSide))
  /\ ((exists r,
         binary.join (binary.hashSeries b highCardSide keepLabels).1
           (binary.hashSeries b highCardSide keepLabels).2
           (binary.hashSeries b lowCardSide keepLabels).1
           (binary.hashSeries b lowCardSide keepLabels).2
           includeLabels = Return r)
      <-> forall (k : N) (j : nat) (t : labels.Labels),
            k ∈ map (spec.sigOf b keepLabels) highCardSide ->
            head (spec.groupOf b keepLabels k 0 lowCardSide) = Some (j, t) ->
            (j < length (remove_dups (map (spec.sigOf b keepLabels) lowCardSide)))%nat).
Proof.
  split; [apply hashSeries_index_size|].
  rewrite <- (hashSeries_index_size b keepLabels lowCardSide).
  pose proof (fun k => proj1 (hashSeries_mapget b keepLabels highCardSide k)) as HhhK.
  pose proof (fun k => proj2 (hashSeries_mapget b keepLabels highCardSide k)) as HhidxK.
  pose proof (fun k => proj1 (hashSeries_mapget b keepLabels lowCardSide k)) as HlhK.
  pose proof (fun k => proj2 (hashSeries_mapget b keepLabels lowCardSide k)) as HlidxK.
  pose proof (hashSeries_dom b keepLabels highCardSide) as HdomH.
  pose proof (hashSeries_dom b keepLabels lowCardSide) as HdomL.
  pose proof (hashLoop_total b keepLabels highCardSide 0 (∅, ∅)) as HsumH.
  fold (binary.hashSeries b highCardSide keepLabels) in HsumH.
  destruct (binary.hashSeries b highCardSide keepLabels) as [hh hidx].
  destruct (binary.hashSeries b lowCardSide keepLabels) as [lh lidx].
  cbn [fst snd] in *.
  unfold spec.sumLen in HsumH at 2. rewrite map_to_list_empty in HsumH.
  cbn [sum_list_with Nat.add] in HsumH.
  unfold binary.join.
  pose proof (pruneLoop_filter lh hh) as Hprune.
  pose proof (pruneLoop_size lh (binary.rangeOrder hh) 0 hh) as Hsize.
  destruct (binary.pruneLoop lh (binary.rangeOrder hh) 0 hh) as [outputSize pruned].
  cbn [fst snd] in Hprune, Hsize. subst pruned.
  rewrite (binary.rangeOrder_perm _ hh) in Hsize.
  fold (spec.sumLen hh) in Hsize. rewrite HsumH in Hsize. cbn [Nat.add] in Hsize.
  destruct (pruned_entries hh lh) as [Hkeys Hentries].
  split.
  - intros [r Hjoin] k j t HkH Hhead.
    destruct (binary.joinLoop _ _ _ _ _ _) as [st|] eqn:Hloop; [|discriminate].
    pose proof (joinLoop_lengths _ _ _ _ _ _ _ Hloop) as [_ HsizeL].
    cbn [binary.lowCardOutputIndex] in HsizeL. rewrite length_replicate in HsizeL.
    assert (HN : forall k', NoDup (mapget hidx k')).
    { intros k'. rewrite HhidxK. apply groupOf_positions_NoDup. }
    assert (Hpos : forall (g : list labels.Labels) k' x,
               x ∈ map (fun p : nat * labels.Labels => N.of_nat p.1)
                     (spec.groupOf b keepLabels k' 0 g) ->
               exists i s, x = N.of_nat i /\ g !! i = Some s
                           /\ spec.sigOf b keepLabels s = k').
    { intros g k' x Hx. apply list_elem_of_fmap in Hx as ([i s] & -> & Hin).
      apply groupOf_elem_of in Hin as [Hi Hs]. cbn [fst]. eauto. }
    assert (HD : forall k1 k2 x, x ∈ mapget hidx k1 -> x ∈ mapget hidx k2 -> k1 = k2).
    { intros k1 k2 x Hx1 Hx2. rewrite HhidxK in Hx1, Hx2.
      apply Hpos in Hx1 as (i1 & s1 & -> & Hi1 & <-).
      apply Hpos in Hx2 as (i2 & s2 & Heq & Hi2 & <-).
      apply Nat2N.inj in Heq. subst i2. congruence. }
    assert (LD : forall k1 k2 l, mapget lidx k1 !! 0%nat = Some l ->
                   mapget lidx k2 !! 0%nat = Some l -> k1 = k2).
    { intros k1 k2 l Hl1 Hl2. rewrite HlidxK in Hl1, Hl2.
      apply list_elem_of_lookup_2, Hpos in Hl1 as (j1 & t1 & -> & Hj1 & <-).
      apply list_elem_of_lookup_2, Hpos in Hl2 as (j2 & t2 & Heq & Hj2 & <-).
      apply Nat2N.inj in Heq. subst j2. congruence. }
    destruct (joinLoop_groups hidx lh lidx includeLabels HN HD LD _ _ _ Hloop Hkeys)
      as (Hgroups & _).
    apply HdomH in HkH as [hcs Hhcs].
    assert (HkL : is_Some (lh !! k)).
    { apply HdomL, groupOf_nonempty. intros Hnil. rewrite Hnil in Hhead. discriminate. }
    assert (Hin : (k, hcs) ∈ binary.rangeOrder
                    (filter (fun kv => is_Some (lh !! kv.1)) hh))
      by (apply Hentries; auto).
    destruct (Hgroups _ Hin) as (lowS & l & start & _ & Hl & Hslot & _).
    cbn [fst snd] in Hl, Hslot.
    rewrite HlidxK, list_lookup_fmap, <- head_lookup, Hhead in Hl. cbn in Hl.
    injection Hl as <-. rewrite Nat2N.id in Hslot.
    apply lookup_lt_Some in Hslot. lia.
  - intros Hroom.
    edestruct (joinLoop_returns hidx lh lidx includeLabels outputSize (size lidx))
      as (st' & Hrun); [| | |rewrite Hrun; cbn [mbind outcome_bind bind]; eauto].
    + apply Forall_forall. intros [k hcs] Hin. cbn [fst snd].
      apply Hentries in Hin as [Hhcs HkL].
      assert (Hmembers : hcs = map (spec.entryOf b keepLabels)
                                 (spec.groupOf b keepLabels k 0 highCardSide)).
      { rewrite <- HhhK. unfold mapget. rewrite Hhcs. reflexivity. }
      split; [rewrite HhidxK, Hmembers, !length_map; lia|]. split.
      { rewrite HhidxK. apply Forall_forall. intros x Hx.
        apply list_elem_of_fmap in Hx as ([i s] & -> & Hx).
        apply groupOf_elem_of in Hx as [Hi _]. cbn [fst]. rewrite Nat2N.id, Hsize.
        eapply lookup_lt_Some. exact Hi. }
      apply HdomL, groupOf_nonempty in HkL.
      destruct (spec.groupOf b keepLabels k 0 lowCardSide) as [|[j t] g] eqn:Hg;
        [congruence|].
      rewrite HlidxK, HlhK, Hg. cbn. split; [|eauto].
      exists (N.of_nat j). split; [reflexivity|]. rewrite Nat2N.id.
      apply (Hroom k j t); [apply HdomH; eauto|rewrite Hg; reflexivity].
    + cbn [binary.highCardOutputIndex]. apply length_replicate.
    + cbn [binary.lowCardOutputIndex]. apply length_replicate.
Qed.

End JoinIndexes.

(** * The output series of the binary operator *)

Section BinarySeries.

Context `{!binary.LabelHasher} `{!binary.MapOrder}.
Context {operation : Type} `{!binary.JoinTable operation}.
Context {L R : Type} `{!VectorOperator L} `{!VectorOperator R}.

Implicit Types (b : binary.vectorOperator operation L R).

(** [hashSeries] reads the matching and the grouping labels of its receiver,
    nothing else. *)
Lemma hashSeries_ext b1 b2 (keepLabels : bool) (series : list labels.Labels) :
  binary.matching b1 = binary.matching b2 ->
  binary.groupingLabels b1 = binary.groupingLabels b2 ->
  binary.hashSeries b1 series keepLabels = binary.hashSeries b2 series keepLabels.
Proof.
  intros Hm Hg. unfold binary.hashSeries. generalize 0%nat.
  generalize ((∅, ∅) : gmap N (list Series) * gmap N (list N)).
  induction series as [|s series IH]; intros acc i; cbn [binary.hashLoop]; [reflexivity|].
  rewrite IH. f_equal. unfold binary.hashStep. rewrite Hm, Hg. reflexivity.
Qed.

(** With dense output IDs the loop [series[s.ID] = s.Metric] writes the label
    sets in the order of the output. *)
Lemma fillSeries_dense :
  forall (rest : list Series) (pre suf : list labels.Labels),
    map ID rest = spec.newIDs (length pre) (length rest) ->
    length suf = length rest ->
    binary.fillSeries rest (pre ++ suf) = Return (pre ++ map Metric rest).
Proof.
  induction rest as [|s rest IH]; intros pre suf Hids Hlen.
  - destruct suf; [|discriminate]. reflexivity.
  - destruct suf as [|x suf]; [discriminate|].
    cbn [length map] in Hids, Hlen. rewrite newIDs_S in Hids.
    injection Hids as Hid Hids. injection Hlen as Hlen.
    cbn [binary.fillSeries]. unfold store. rewrite Hid, Nat2N.id.
    rewrite decide_True by (rewrite length_app; cbn [length]; lia).
    cbn [mbind outcome_bind bind].
    replace (<[length pre := Metric s]> (pre ++ x :: suf))
      with ((pre ++ [Metric s]) ++ suf).
    + rewrite IH.
      * rewrite <- app_assoc. reflexivity.
      * rewrite length_app. cbn [length]. rewrite Nat.add_1_r. exact Hids.
      * exact Hlen.
    + rewrite <- app_assoc. cbn [app]. symmetry.
      rewrite (insert_app_r_alt pre (x :: suf) (length pre)) by lia.
      rewrite Nat.sub_diag. reflexivity.
Qed.

(** The number of output series of [join]: the high cardinality series with
    a partner. *)
Lemma join_matched b (keepLabels : bool) (highCardSide lowCardSide : list labels.Labels)
    (includeLabels : list string)
    (output : list Series) (hi : list (option N)) (lo : list (list N)) :
  binary.join (binary.hashSeries b highCardSide keepLabels).1
    (binary.hashSeries b highCardSide keepLabels).2
    (binary.hashSeries b lowCardSide keepLabels).1
    (binary.hashSeries b lowCardSide keepLabels).2
    includeLabels = Return (output, hi, lo) ->
  spec.denseIDs output
  /\ length output = spec.matched b keepLabels highCardSide lowCardSide.
Proof.
  intros Hrun. apply join_output in Hrun as [Hdense Hlen].
  split; [exact Hdense|]. rewrite Hlen.
  unfold binary.hashSeries. rewrite hashLoop_sumLen. cbn [fst].
  rewrite map_filter_empty. unfold spec.sumLen at 1. rewrite map_to_list_empty.
  simpl. unfold spec.matched. f_equal. apply list_filter_iff. intros s.
  rewrite hashLoop_dom. cbn [fst]. rewrite lookup_empty.
  split; [intros [[? ?]|?]; [discriminate|assumption]|auto].
Qed.

(** [initOutputs] once both inputs have delivered their series. *)
Lemma initOutputs_run b (lhsSeries rhsSeries : list labels.Labels) (l' : L) (r' : R) :
  op_Series (binary.lhs b) = Return (Ok lhsSeries, l') ->
  op_Series (binary.rhs b) = Return (Ok rhsSeries, r') ->
  let keepLabels :=
    negb (bool_decide (binary.Card (binary.matching b) = binary.CardOneToOne)) in
  let sides := binary.cardSides (binary.Card (binary.matching b)) lhsSeries rhsSeries in
  binary.initOutputs b
  = ('(output, hi, lo) ←
       binary.join (binary.hashSeries b sides.1 keepLabels).1
         (binary.hashSeries b sides.1 keepLabels).2
         (binary.hashSeries b sides.2 keepLabels).1
         (binary.hashSeries b sides.2 keepLabels).2
         (binary.Include (binary.matching b));
     series_ ← binary.fillSeries output (replicate (length output) []);
     let outputCache_ :=
       replicate (length series_) {| binary.t := -1; binary.v := 0%N |} in
     let pool_ := SetStepSize (length sides.1) (binary.pool b) in
     Return (None,
       {| binary.pool := pool_; binary.once := binary.once b;
          binary.lhs := l'; binary.rhs := r';
          binary.matching := binary.matching b;
          binary.groupingLabels := binary.groupingLabels b;
          binary.operation_ := binary.operation_ b; binary.opName := binary.opName b;
          binary.series := series_; binary.outputCache := outputCache_;
          binary.table_ :=
            Some (binary.newTable pool_ (binary.Card (binary.matching b))
                    (binary.operation_ b) outputCache_ hi lo) |})).
Proof.
  intros Hl Hr keepLabels sides. unfold binary.initOutputs.
  rewrite Hl. cbn [mbind outcome_bind bind]. cbn [binary.rhs binary.with_lhs].
  rewrite Hr. cbn [mbind outcome_bind bind].
  cbn [binary.matching binary.with_lhs binary.with_rhs binary.pool binary.once
       binary.lhs binary.rhs binary.groupingLabels binary.operation_ binary.opName].
  fold keepLabels. fold sides.
  rewrite (surjective_pairing sides). cbn [fst snd].
  rewrite (hashSeries_ext (binary.with_rhs r' (binary.with_lhs l' b)) b keepLabels sides.1)
    by reflexivity.
  rewrite (hashSeries_ext (binary.with_rhs r' (binary.with_lhs l' b)) b keepLabels sides.2)
    by reflexivity.
  rewrite (surjective_pairing (binary.hashSeries b sides.1 keepLabels)).
  rewrite (surjective_pairing (binary.hashSeries b sides.2 keepLabels)).
  cbn [fst snd].
  replace (if (0 <? length (binary.Include (binary.matching b)))%nat
           then binary.Include (binary.matching b) else [])
    with (binary.Include (binary.matching b))
    by (destruct (binary.Include (binary.matching b)); reflexivity).
  reflexivity.
Qed.

Lemma Series_initialized b :
  binary.once b = true -> binary.Series b = Return (Ok (binary.series b), b).
Proof. intros Honce. unfold binary.Series, binary.onceInit. rewrite Honce. reflexivity. Qed.

Lemma binary_Series_no_error b (lhsSeries rhsSeries : list labels.Labels)
    (l' : L) (r' : R) :
  binary.once b = false ->
  op_Series (binary.lhs b) = Return (Ok lhsSeries, l') ->
  op_Series (binary.rhs b) = Return (Ok rhsSeries, r') ->
  forall e b', binary.Series b <> Return (Err e, b').
Proof.
  intros Honce Hl Hr e b'.
  pose proof (initOutputs_run b lhsSeries rhsSeries l' r' Hl Hr) as Hinit.
  cbv zeta in Hinit.
  unfold binary.Series, binary.onceInit. rewrite Honce, Hinit. clear Hinit.
  destruct (binary.join _ _ _ _ _) as [[[output hi] lo]|]; [|discriminate].
  cbn [mbind outcome_bind bind].
  destruct (binary.fillSeries output _) as [series_|]; discriminate.
Qed.

(** X12: the first [Series] call of the binary operator, both inputs delivering
    their series.  It never returns an error of its own, and it returns when
    the low cardinality signatures are distinct.  When it returns, the result
    is the label sets of the series [join] built, in the order of their IDs,
    one for every high cardinality series with a partner; the operator keeps
    them, an output cache of that length with every time stamp at -1, the
    join table over the indexes of [join], and a pool whose step size is the
    number of high cardinality series; and a second [Series] call returns the
    same series without consulting the inputs again. *)
Theorem binary_Series_outputs b (lhsSeries rhsSeries : list labels.Labels)
    (l' : L) (r' : R) :
  binary.once b = false ->
  op_Series (binary.lhs b) = Return (Ok lhsSeries, l') ->
  op_Series (binary.rhs b) = Return (Ok rhsSeries, r') ->
  let keepLabels :=
    negb (bool_decide (binary.Card (binary.matching b) = binary.CardOneToOne)) in
  let highCardSide :=
    (binary.cardSides (binary.Card (binary.matching b)) lhsSeries rhsSeries).1 in
  let lowCardSide :=
    (binary.cardSides (binary.Card (binary.matching b)) lhsSeries rhsSeries).2 in
  (forall e b', binary.Series b <> Return (Err e, b'))
  /\ (NoDup (map (spec.sigOf b keepLabels) lowCardSide) ->
      exists series_ b', binary.Series b = Return (Ok series_, b'))
  /\ forall series_ b',
       binary.Series b = Return (Ok series_, b') ->
       (exists (output : list Series) (hi : list (option N)) (lo : list (list N)),
           binary.join (binary.hashSeries b highCardSide keepLabels).1
             (binary.hashSeries b highCardSide keepLabels).2
             (binary.hashSeries b lowCardSide keepLabels).1
             (binary.hashSeries b lowCardSide keepLabels).2
             (binary.Include (binary.matching b)) = Return (output, hi, lo)
           /\ series_ = map Metric output
           /\ binary.table_ b'
              = Some (binary.newTable (binary.pool b') (binary.Card (binary.matching b))
                        (binary.operation_ b) (binary.outputCache b') hi lo))
       /\ length series_ = spec.matched b keepLabels highCardSide lowCardSide
       /\ binary.series b' = series_
       /\ binary.outputCache b'
          = replicate (length series_) {| binary.t := -1; binary.v := 0%N |}
       /\ stepSize (binary.pool b') = length highCardSide
       /\ binary.once b' = true /\ binary.lhs b' = l' /\ binary.rhs b' = r'
       /\ binary.Series b' = Return (Ok series_, b').
Proof.
  intros Honce Hl Hr keepLabels highCardSide lowCardSide.
  pose proof (initOutputs_run b lhsSeries rhsSeries l' r' Hl Hr) as Hinit.
  cbv zeta in Hinit. fold keepLabels highCardSide lowCardSide in Hinit.
  unfold binary.Series, binary.onceInit. rewrite Honce, Hinit. clear Hinit.
  destruct (binary.join _ _ _ _ _) as [[[output hi] lo]|] eqn:Hjoin.
  - destruct (join_matched _ _ _ _ _ _ _ _ Hjoin) as [Hdense Hcount].
    cbn [mbind outcome_bind bind].
    pose proof (fillSeries_dense output [] (replicate (length output) []) Hdense
                  (length_replicate _ _)) as Hfill.
    cbn [app] in Hfill. rewrite Hfill. clear Hfill.
    cbn [mbind outcome_bind bind binary.with_once].
    split; [intros e b'; discriminate|]. split; [eauto|].
    intros series_ b' Hret. injection Hret as <- <-.
    cbn [binary.pool binary.once binary.lhs binary.rhs binary.series
         binary.outputCache binary.table_].
    split; [exists output, hi, lo; auto|].
    split; [rewrite length_map; exact Hcount|].
    repeat (split; [reflexivity|]). reflexivity.
  - cbn [mbind outcome_bind bind].
    split; [intros e b'; discriminate|]. split; [|intros ? ? ?; discriminate].
    intros Hnodup.
    destruct (join_returns b keepLabels highCardSide lowCardSide
                (binary.Include (binary.matching b)) Hnodup)
      as (output & hi & lo & Hret).
    rewrite Hret in Hjoin. discriminate.
Qed.

(** X13: [Series] of the binary operator returns an error only on its first call,
    and only an error of an input's [Series], unchanged: that of the lhs
    without consulting the rhs, or that of the rhs after the lhs has
    delivered.  The operator is left marked as initialized. *)
Theorem binary_Series_error b (e : error) (b' : binary.vectorOperator operation L R) :
  binary.Series b = Return (Err e, b')
  <-> binary.once b = false
      /\ ((exists l' : L,
              op_Series (binary.lhs b) = Return (Err e, l')
              /\ b' = binary.with_once (binary.with_lhs l' b))
          \/ (exists (lhsSeries : list labels.Labels) (l' : L) (r' : R),
                 op_Series (binary.lhs b) = Return (Ok lhsSeries, l')
                 /\ op_Series (binary.rhs b) = Return (Err e, r')
                 /\ b' = binary.with_once (binary.with_rhs r' (binary.with_lhs l' b)))).
Proof.
  split.
  - intros Hret. destruct (binary.once b) eqn:Honce.
    { rewrite (Series_initialized b Honce) in Hret. discriminate. }
    split; [reflexivity|].
    destruct (op_Series (binary.lhs b)) as [[[lhsSeries|e1] l']|] eqn:Hl.
    + destruct (op_Series (binary.rhs b)) as [[[rhsSeries|e2] r']|] eqn:Hr.
      * destruct (binary_Series_no_error b lhsSeries rhsSeries l' r' Honce Hl Hr e b' Hret).
      * right. exists lhsSeries, l', r'.
        unfold binary.Series, binary.onceInit, binary.initOutputs in Hret.
        rewrite Honce, Hl in Hret. cbn [mbind outcome_bind bind] in Hret.
        cbn [binary.rhs binary.with_lhs] in Hret. rewrite Hr in Hret.
        cbn [mbind outcome_bind bind] in Hret. injection Hret as <- <-. auto.
      * unfold binary.Series, binary.onceInit, binary.initOutputs in Hret.
        rewrite Honce, Hl in Hret. cbn [mbind outcome_bind bind] in Hret.
        cbn [binary.rhs binary.with_lhs] in Hret. rewrite Hr in Hret. discriminate.
    + left. exists l'.
      unfold binary.Series, binary.onceInit, binary.initOutputs in Hret.
      rewrite Honce, Hl in Hret. cbn [mbind outcome_bind bind] in Hret.
      injection Hret as <- <-. auto.
    + unfold binary.Series, binary.onceInit, binary.initOutputs in Hret.
      rewrite Honce, Hl in Hret. discriminate.
  - intros [Honce [(l' & Hl & ->)|(lhsSeries & l' & r' & Hl & Hr & ->)]];
      unfold binary.Series, binary.onceInit, binary.initOutputs;
      rewrite Honce, Hl; cbn [mbind outcome_bind bind]; [reflexivity|].
    cbn [binary.rhs binary.with_lhs]. rewrite Hr. reflexivity.
Qed.

(** X14: after a [Series] call that returned an error the operator counts as
    initialized although it has neither output series nor join table: the
    next [Series] call returns the series it had before, with no error, and a
    [Next] call for which both inputs deliver a non-empty batch panics on the
    missing table. *)
Theorem binary_failed_init b (e : error) (b' : binary.vectorOperator operation L R) :
  binary.Series b = Return (Err e, b') ->
  binary.Series b' = Return (Ok (binary.series b), b')
  /\ binary.table_ b' = binary.table_ b
  /\ (binary.table_ b = None ->
      forall (lhsB rhsB : list StepVector) (l'' : L) (r'' : R),
        op_Next (binary.lhs b') = Return (Ok lhsB, l'') ->
        op_Next (binary.rhs b') = Return (Ok rhsB, r'') ->
        lhsB <> [] -> rhsB <> [] ->
        binary.Next b' = Panic).
Proof.
  intros Hret.
  assert (Hstate : binary.once b' = true /\ binary.series b' = binary.series b
                   /\ binary.table_ b' = binary.table_ b).
  { unfold binary.Series, binary.onceInit in Hret.
    destruct (binary.once b); [discriminate|].
    unfold binary.initOutputs in Hret.
    destruct (op_Series (binary.lhs b)) as [[[lhsSeries|e1] l']|]; [| |discriminate].
    - cbn [mbind outcome_bind bind] in Hret.
      destruct (op_Series (binary.rhs (binary.with_lhs l' b)))
        as [[[rhsSeries|e2] r']|]; [| |discriminate].
      + cbn [mbind outcome_bind bind] in Hret.
        destruct (binary.cardSides _ lhsSeries rhsSeries) as [high low].
        destruct (binary.hashSeries _ high _) as [hh hidx].
        destruct (binary.hashSeries _ low _) as [lh lidx].
        destruct (binary.join hh hidx lh lidx _) as [[[output hi] lo]|]; [|discriminate].
        cbn [mbind outcome_bind bind] in Hret.
        destruct (binary.fillSeries output _) as [series_|]; discriminate.
      + cbn [mbind outcome_bind bind] in Hret. injection Hret as _ <-. auto.
    - cbn [mbind outcome_bind bind] in Hret. injection Hret as _ <-. auto. }
  destruct Hstate as (Honce & Hseries & Htable).
  split; [rewrite <- Hseries; apply Series_initialized; exact Honce|].
  split; [exact Htable|].
  intros Hnil lhsB rhsB l'' r'' Hl Hr HneL HneR.
  unfold binary.Next. rewrite Hl. cbn [mbind outcome_bind bind].
  cbn [binary.rhs binary.with_lhs]. rewrite Hr. cbn [mbind outcome_bind bind].
  destruct lhsB as [|lv lhsB]; [congruence|]. destruct rhsB as [|rv rhsB]; [congruence|].
  cbn [length Nat.eqb orb]. unfold binary.onceInit.
  cbn [binary.once binary.with_lhs binary.with_rhs]. rewrite Honce.
  cbn [mbind outcome_bind bind binary.execLoop lookup list_lookup].
  cbn [binary.table_ binary.with_lhs binary.with_rhs]. rewrite Htable, Hnil. reflexivity.
Qed.

Lemma onceInit_error b (e : error) (b' : binary.vectorOperator operation L R) :
  binary.onceInit b = Return (Some e, b') <-> binary.Series b = Return (Err e, b').
Proof.
  unfold binary.Series.
  destruct (binary.onceInit b) as [[[e1|] b1]|]; cbn [mbind outcome_bind bind];
    split; intros Heq; try discriminate; injection Heq as <- <-; reflexivity.
Qed.

(** X15: [Next] of the binary operator returns an error in three cases only, and
    returns it unchanged: the lhs fails to deliver a batch, and then the rhs
    is not asked; the rhs fails after the lhs has delivered; or both deliver
    a non-empty batch and the initialization fails, exactly as [Series] would
    on the operator holding the two advanced inputs. *)
Theorem binary_Next_errors b (e : error) (b' : binary.vectorOperator operation L R) :
  binary.Next b = Return (Err e, b')
  <-> (exists l' : L,
          op_Next (binary.lhs b) = Return (Err e, l') /\ b' = binary.with_lhs l' b)
      \/ (exists (lhsB : list StepVector) (l' : L) (r' : R),
             op_Next (binary.lhs b) = Return (Ok lhsB, l')
             /\ op_Next (binary.rhs b) = Return (Err e, r')
             /\ b' = binary.with_rhs r' (binary.with_lhs l' b))
      \/ (exists (lhsB rhsB : list StepVector) (l' : L) (r' : R),
             op_Next (binary.lhs b) = Return (Ok lhsB, l')
             /\ op_Next (binary.rhs b) = Return (Ok rhsB, r')
             /\ lhsB <> [] /\ rhsB <> []
             /\ binary.Series (binary.with_rhs r' (binary.with_lhs l' b))
                = Return (Err e, b')).
Proof.
  unfold binary.Next. split.
  - intros Hret.
    destruct (op_Next (binary.lhs b)) as [[[lhsB|e1] l']|] eqn:Hl; [| |discriminate].
    + cbn [mbind outcome_bind bind binary.rhs binary.with_lhs] in Hret.
      destruct (op_Next (binary.rhs b)) as [[[rhsB|e2] r']|] eqn:Hr; [| |discriminate].
      * cbn [mbind outcome_bind bind] in Hret.
        destruct lhsB as [|lv lhsB]; [discriminate|].
        destruct rhsB as [|rv rhsB]; [discriminate|].
        cbn [length Nat.eqb orb] in Hret.
        destruct (binary.onceInit _) as [[[e3|] b3]|] eqn:Hinit; [| |discriminate].
        -- cbn [mbind outcome_bind bind] in Hret. injection Hret as <- <-.
           right. right. exists (lv :: lhsB), (rv :: rhsB), l', r'.
           split; [reflexivity|]. split; [reflexivity|].
           split; [discriminate|]. split; [discriminate|].
           apply onceInit_error. exact Hinit.
        -- cbn [mbind outcome_bind bind] in Hret.
           destruct (binary.execLoop _ _ _ _ _) as [[batch b4]|]; discriminate.
      * cbn [mbind outcome_bind bind] in Hret. injection Hret as <- <-.
        right. left. exists lhsB, l', r'. auto.
    + cbn [mbind outcome_bind bind] in Hret. injection Hret as <- <-.
      left. exists l'. auto.
  - intros [(l' & Hl & ->)|[(lhsB & l' & r' & Hl & Hr & ->)
                           |(lhsB & rhsB & l' & r' & Hl & Hr & HneL & HneR & Hinit)]];
      rewrite Hl; cbn [mbind outcome_bind bind binary.rhs binary.with_lhs];
      [reflexivity| |]; rewrite Hr; cbn [mbind outcome_bind bind]; [reflexivity|].
    destruct lhsB as [|lv lhsB]; [congruence|]. destruct rhsB as [|rv rhsB]; [congruence|].
    cbn [length Nat.eqb orb]. apply onceInit_error in Hinit. rewrite Hinit. reflexivity.
Qed.


End BinarySeries.

(** * The content of a scan batch *)

Section ScanBatch.

Local Open Scope Z_scope.
Context {Raw It : Type} `{!scan.SeriesIterator Raw It}.

Implicit Types (o : scan.vectorSelector Raw It) (vectors : list StepVector).
Implicit Types (sc : scan.vectorScanner It).

Lemma appendSample_insert vectors (currStep : nat) (sig : N) (v : float64)
    (sv : StepVector) :
  vectors !! currStep = Some sv ->
  scan.appendSample vectors currStep sig v
  = Return (<[currStep := spec.addPoint sig (Some v) sv]> vectors).
Proof.
  intros Hsv. unfold scan.appendSample, load, store. rewrite Hsv. simpl.
  rewrite decide_True by (eapply lookup_lt_Some; exact Hsv). reflexivity.
Qed.

(** The inner loop of [Next] enters the row of its series into the batch,
    from the step it starts at. *)
Lemma stepLoop_mergeRow o (sig : N) (remaining : nat) :
  forall (currStep : nat) (seriesTs : Z) (it : It) vectors,
    (currStep <= length vectors)%nat ->
    scan.stepLoop o sig remaining currStep seriesTs it vectors
    = Return ((spec.pointsOf o remaining seriesTs it).2,
              take currStep vectors
              ++ spec.mergeRow (scan.vectorPool o) sig
                   (spec.pointsOf o remaining seriesTs it).1 (drop currStep vectors)).
Proof.
  induction remaining as [|remaining IH]; intros currStep seriesTs it vectors Hle.
  - simpl. rewrite take_drop. reflexivity.
  - cbn [scan.stepLoop spec.pointsOf].
    destruct (seriesTs <=? scan.maxt o); [|simpl; rewrite take_drop; reflexivity].
    destruct (scan.selectPoint it seriesTs _ _) as [pt it1].
    destruct (Nat.leb_spec (length vectors) currStep) as [Hge|Hlt].
    + assert (Hlen : length vectors = currStep) by lia.
      assert (Hstep : match pt with
                      | Some (_, v) =>
                          scan.appendSample
                            (vectors ++ [GetStepVector (scan.vectorPool o) seriesTs])
                            currStep sig v
                      | None =>
                          Return (vectors ++ [GetStepVector (scan.vectorPool o) seriesTs])
                      end
                      = Return (vectors
                                ++ [spec.addPoint sig (snd <$> pt)
                                      (GetStepVector (scan.vectorPool o) seriesTs)])).
      { destruct pt as [[t0 v0]|]; [|reflexivity].
        erewrite appendSample_insert
          by (rewrite lookup_app_r by lia; rewrite Hlen, Nat.sub_diag; reflexivity).
        rewrite <- Hlen.
        rewrite (insert_app_r_alt vectors) by lia.
        rewrite Nat.sub_diag. reflexivity. }
      rewrite Hstep. cbn [mbind outcome_bind bind].
      rewrite IH by (rewrite length_app; simpl; lia).
      destruct (spec.pointsOf o remaining _ it1) as [row it2]. cbn [fst snd].
      rewrite (drop_ge vectors currStep) by lia.
      rewrite (take_ge vectors currStep) by lia.
      rewrite take_ge by (rewrite length_app; simpl; lia).
      rewrite drop_ge by (rewrite length_app; simpl; lia).
      cbn [spec.mergeRow]. rewrite <- app_assoc. reflexivity.
    + destruct (lookup_lt_is_Some_2 vectors currStep Hlt) as [sv Hsv].
      assert (Hstep : match pt with
                      | Some (_, v) => scan.appendSample vectors currStep sig v
                      | None => Return vectors
                      end
                      = Return (<[currStep := spec.addPoint sig (snd <$> pt) sv]> vectors)).
      { destruct pt as [[t0 v0]|]; [apply appendSample_insert, Hsv|].
        simpl. rewrite list_insert_id by exact Hsv. reflexivity. }
      rewrite Hstep. cbn [mbind outcome_bind bind].
      rewrite IH by (rewrite length_insert; lia).
      destruct (spec.pointsOf o remaining _ it1) as [row it2]. cbn [fst snd].
      rewrite (drop_S _ _ _ Hsv). cbn [spec.mergeRow].
      rewrite drop_insert_lt by lia.
      rewrite (take_S_r _ _ (spec.addPoint sig (snd <$> pt) sv))
        by (apply list_lookup_insert_eq; exact Hlt).
      rewrite take_insert_ge by lia. rewrite <- app_assoc. reflexivity.
Qed.

(** The outer loop of [Next] enters one row per scanner, in scanner order. *)
Lemma scanLoop_mergeRows o (ts : Z) (todo : list (scan.vectorScanner It)) :
  forall vectors,
    scan.scanLoop o ts todo vectors
    = Return (map (spec.advance o ts) todo,
              fold_left
                (fun vs sc =>
                   spec.mergeRow (scan.vectorPool o) (scan.signature sc)
                     (spec.pointsOf o (Z.to_nat (scan.numSteps o)) ts (scan.samples sc)).1
                     vs)
                todo vectors).
Proof.
  induction todo as [|sc todo IH]; intros vectors; [reflexivity|].
  cbn [scan.scanLoop]. rewrite stepLoop_mergeRow by lia.
  cbn [mbind outcome_bind bind]. rewrite take_0, drop_0. cbn [app].
  rewrite IH. reflexivity.
Qed.

Lemma mergeRow_lookup (p : VectorPool) (sig : N) (row : list (Z * option float64)) :
  forall vectors (k : nat),
    spec.mergeRow p sig row vectors !! k
    = match row !! k with
      | Some (ts, pt) =>
          Some (spec.addPoint sig pt (default (GetStepVector p ts) (vectors !! k)))
      | None => vectors !! k
      end.
Proof.
  induction row as [|[ts pt] row IH]; intros vectors k; [reflexivity|].
  destruct vectors as [|sv vectors]; destruct k as [|k]; cbn [spec.mergeRow];
    try reflexivity.
  - cbn [lookup list_lookup]. rewrite IH. reflexivity.
  - cbn [lookup list_lookup]. rewrite IH. reflexivity.
Qed.

Lemma mergeRow_length (p : VectorPool) (sig : N) (row : list (Z * option float64)) :
  forall vectors,
    length (spec.mergeRow p sig row vectors) = Nat.max (length row) (length vectors).
Proof.
  induction row as [|[ts pt] row IH]; intros vectors; [reflexivity|].
  destruct vectors as [|sv vectors]; cbn [spec.mergeRow length]; rewrite IH; simpl; lia.
Qed.

(** The rows of a batch all span the same steps. *)
Lemma pointsOf_steps o (remaining : nat) :
  forall (seriesTs : Z) (it : It),
    length (spec.pointsOf o remaining seriesTs it).1 = spec.stepsRun o remaining seriesTs
    /\ forall (k : nat) (t0 : Z) (pt : option float64),
         (spec.pointsOf o remaining seriesTs it).1 !! k = Some (t0, pt) ->
         t0 = spec.stepTs seriesTs (scan.step o) k.
Proof.
  induction remaining as [|remaining IH]; intros seriesTs it; cbn [spec.pointsOf spec.stepsRun].
  - split; [reflexivity|]. intros k t0 pt Hk. discriminate.
  - destruct (seriesTs <=? scan.maxt o); [|split; [reflexivity|intros k t0 pt Hk; discriminate]].
    destruct (scan.selectPoint it seriesTs _ _) as [pt0 it1].
    specialize (IH (add64 seriesTs (scan.step o)) it1).
    destruct (spec.pointsOf o remaining _ it1) as [row it2]. cbn [fst snd] in *.
    destruct IH as [Hlen Hts]. split; [simpl; lia|].
    intros [|k] t0 pt Hk; simpl in Hk.
    + injection Hk as <- _. reflexivity.
    + apply Hts in Hk. rewrite Hk. unfold spec.stepTs.
      rewrite Nat.iter_succ_r. reflexivity.
Qed.

(** A value found by [selectPoint] is never the stale marker. *)
Lemma selectPoint_not_stale (it : It) (ts lookbackDelta offset t0 : Z) (v : float64) :
  (scan.selectPoint it ts lookbackDelta offset).1 = Some (t0, v) ->
  scan.IsStaleNaN v = false.
Proof.
  unfold scan.selectPoint.
  destruct (scan.Seek (sub64 ts offset) it) as [ok it'].
  destruct (if ok then scan.At it' else (0, 0%N)) as [t1 v1].
  destruct (negb ok || (sub64 ts offset <? t1)).
  - destruct (scan.PeekPrev it') as [[t2 v2]|]; [|discriminate].
    destruct (t2 <? _); [discriminate|].
    destruct (scan.IsStaleNaN v2) eqn:Hstale; [discriminate|].
    simpl. intros [= _ <-]. exact Hstale.
  - destruct (scan.IsStaleNaN v1) eqn:Hstale; [discriminate|].
    simpl. intros [= _ <-]. exact Hstale.
Qed.

Lemma pointsOf_not_stale o (remaining : nat) :
  forall (seriesTs : Z) (it : It) (k : nat) (t0 : Z) (v : float64),
    (spec.pointsOf o remaining seriesTs it).1 !! k = Some (t0, Some v) ->
    scan.IsStaleNaN v = false.
Proof.
  induction remaining as [|remaining IH]; intros seriesTs it k t0 v; cbn [spec.pointsOf].
  - intros Hk. discriminate.
  - destruct (seriesTs <=? scan.maxt o); [|intros Hk; discriminate].
    destruct (scan.selectPoint it seriesTs _ _) as [pt0 it1] eqn:Hsel.
    specialize (IH (add64 seriesTs (scan.step o)) it1).
    destruct (spec.pointsOf o remaining _ it1) as [row it2]. cbn [fst snd] in *.
    destruct k as [|k]; simpl; [|apply IH].
    intros [= _ Hpt]. destruct pt0 as [[t1 v1]|]; [|discriminate].
    simpl in Hpt. injection Hpt as <-.
    apply (selectPoint_not_stale it seriesTs (scan.lookbackDelta o) (scan.offset o) t1).
    rewrite Hsel. reflexivity.
Qed.

Lemma rowPoint_lookup (sig : N) (row : list (Z * option float64)) (k : nat)
    (t0 : Z) (pt : option float64) :
  row !! k = Some (t0, pt) ->
  spec.rowPoint row k = pt
  /\ spec.rowID sig row k = match pt with Some _ => Some sig | None => None end.
Proof. intros Hrow. unfold spec.rowID, spec.rowPoint. rewrite Hrow. auto. Qed.

(** Rows of equal length entered one after the other into an empty batch:
    step [k] holds, in the order of the rows, the points the rows have at
    step [k]. *)
Lemma mergeRows_transposed (p : VectorPool) (m : nat) (tsAt : nat -> Z)
    (rowf : scan.vectorScanner It -> list (Z * option float64)) :
  forall scs : list (scan.vectorScanner It),
    (forall sc, sc ∈ scs -> length (rowf sc) = m) ->
    (forall sc k t0 pt, sc ∈ scs -> rowf sc !! k = Some (t0, pt) -> t0 = tsAt k) ->
    let vectors :=
      fold_left (fun vs sc => spec.mergeRow p (scan.signature sc) (rowf sc) vs) scs [] in
    length vectors = (if scs is [] then 0 else m)%nat
    /\ forall (k : nat) (sv : StepVector),
         vectors !! k = Some sv ->
         T sv = tsAt k
         /\ SampleIDs sv
            = omap (fun sc => spec.rowID (scan.signature sc) (rowf sc) k) scs
         /\ Samples sv = omap (fun sc => spec.rowPoint (rowf sc) k) scs.
Proof.
  induction scs as [|sc scs IH] using rev_ind; intros Hlen Hts vectors.
  - split; [reflexivity|]. intros k sv Hk. discriminate.
  - subst vectors. rewrite fold_left_app. cbn [fold_left].
    destruct IH as [IHlen IHk].
    { intros sc' Hin. apply Hlen. apply elem_of_app. left. exact Hin. }
    { intros sc' k t0 pt Hin. apply Hts. apply elem_of_app. left. exact Hin. }
    set (vs := fold_left _ scs []) in *.
    assert (Hsc : sc ∈ scs ++ [sc]) by (apply elem_of_app; right; left).
    split.
    + rewrite mergeRow_length, IHlen, (Hlen sc Hsc).
      destruct scs as [|sc0 scs0]; simpl; lia.
    + intros k sv Hk. rewrite mergeRow_lookup in Hk. rewrite !omap_app.
      cbn [omap list_omap].
      destruct (rowf sc !! k) as [[t0 pt]|] eqn:Hrow.
      * injection Hk as <-. pose proof (Hts sc k t0 pt Hsc Hrow) as ->.
        destruct (rowPoint_lookup (scan.signature sc) _ _ _ _ Hrow) as [-> ->].
        destruct (vs !! k) as [sv0|] eqn:Hvs; cbn [default from_option id].
        -- destruct (IHk k sv0 Hvs) as (HT & Hids & Hvals).
           rewrite <- Hids, <- Hvals.
           destruct pt as [v|]; cbn [spec.addPoint T SampleIDs Samples];
             rewrite ?app_nil_r; auto.
        -- assert (Hnil : scs = []).
           { destruct scs as [|sc0 scs0]; [reflexivity|]. exfalso.
             apply lookup_ge_None in Hvs. rewrite IHlen in Hvs.
             apply lookup_lt_Some in Hrow. rewrite (Hlen sc Hsc) in Hrow. lia. }
           subst scs. cbn [omap app].
           destruct pt as [v|]; cbn [spec.addPoint T SampleIDs Samples GetStepVector app];
             auto.
      * exfalso. apply lookup_ge_None in Hrow. rewrite (Hlen sc Hsc) in Hrow.
        apply lookup_lt_Some in Hk. rewrite IHlen in Hk. destruct scs; simpl in *; lia.
Qed.

(** A call of [Next] that finds the series loaded and the cursor not past
    the end delivers [batchOf] and leaves every scanner where its row ended. *)
Lemma Next_batchOf o (o1 : scan.vectorSelector Raw It) :
  scan.loadSeries o = (None, o1) ->
  ~ spec.exhausted o ->
  exists o',
    scan.Next o = Return (Ok (spec.batchOf o1), o')
    /\ scan.scanners o' = map (spec.advance o1 (scan.currentStep o1)) (scan.scanners o1)
    /\ scan.series o' = scan.series o1
    /\ scan.once o' = scan.once o1.
Proof.
  intros Hload Hnex. unfold scan.Next, spec.exhausted in *.
  rewrite (proj2 (Z.ltb_ge _ _)) by lia. rewrite Hload.
  rewrite scanLoop_mergeRows. cbn [mbind outcome_bind bind].
  eexists. split; [reflexivity|]. cbn [scan.scanners scan.series scan.once]. auto.
Qed.

(** What a call of [Next] can do, by the state it finds. *)
Lemma Next_inversion o (vectors : list StepVector) (o' : scan.vectorSelector Raw It) :
  scan.Next o = Return (Ok vectors, o') ->
  (spec.exhausted o /\ vectors = [] /\ o' = o)
  \/ (~ spec.exhausted o
      /\ exists o1,
          scan.loadSeries o = (None, o1) /\ vectors = spec.batchOf o1
          /\ scan.scanners o'
             = map (spec.advance o1 (scan.currentStep o1)) (scan.scanners o1)).
Proof.
  intros Hrun. destruct (Z.lt_ge_cases (scan.maxt o) (scan.currentStep o)) as [Hex|Hnex].
  - left. rewrite (Next_exhausted o Hex) in Hrun. injection Hrun as <- <-. auto.
  - right. assert (Hn : ~ spec.exhausted o) by (unfold spec.exhausted; lia).
    split; [exact Hn|].
    destruct (scan.loadSeries o) as [[e|] o1] eqn:Hload.
    + exfalso. unfold scan.Next in Hrun.
      rewrite (proj2 (Z.ltb_ge _ _)) in Hrun by lia. rewrite Hload in Hrun. discriminate.
    + destruct (Next_batchOf o o1 Hload Hn) as (o2 & Hrun2 & Hscs & _).
      rewrite Hrun in Hrun2. injection Hrun2 as -> ->. eauto.
Qed.

(** The steps of [batchOf]: as many as a row has, and in each the points of
    the scanners in scanner order. *)
Lemma batchOf_steps o :
  length (spec.batchOf o)
  = (if scan.scanners o is []
     then 0
     else spec.stepsRun o (Z.to_nat (scan.numSteps o)) (scan.currentStep o))%nat
  /\ forall (k : nat) (sv : StepVector),
       spec.batchOf o !! k = Some sv ->
       SampleIDs sv = omap (fun sc => spec.idAt o sc k) (scan.scanners o)
       /\ Samples sv = omap (fun sc => spec.pointAt o sc k) (scan.scanners o).
Proof.
  destruct (mergeRows_transposed (scan.vectorPool o)
              (spec.stepsRun o (Z.to_nat (scan.numSteps o)) (scan.currentStep o))
              (spec.stepTs (scan.currentStep o) (scan.step o))
              (spec.rowOf o) (scan.scanners o)) as [Hlen Hk].
  - intros sc _. apply pointsOf_steps.
  - intros sc k t0 pt _ Hrow. eapply pointsOf_steps. exact Hrow.
  - split; [exact Hlen|]. intros k sv Hsv. destruct (Hk k sv Hsv) as (_ & Hids & Hvals).
    auto.
Qed.

Lemma idAt_sublist o (k : nat) (scs : list (scan.vectorScanner It)) :
  omap (fun sc => spec.idAt o sc k) scs `sublist_of` map scan.signature scs
  /\ length (omap (fun sc => spec.idAt o sc k) scs)
     = length (omap (fun sc => spec.pointAt o sc k) scs).
Proof.
  induction scs as [|sc scs [IHsub IHlen]]; [split; [constructor|reflexivity]|].
  assert (Hid : spec.idAt o sc k
                = match spec.pointAt o sc k with
                  | Some _ => Some (scan.signature sc)
                  | None => None
                  end) by reflexivity.
  cbn [omap list_omap map]. rewrite Hid.
  destruct (spec.pointAt o sc k).
  - split; [apply sublist_skip; exact IHsub|cbn [length]; f_equal; exact IHlen].
  - split; [apply sublist_cons; exact IHsub|exact IHlen].
Qed.

Lemma advance_signatures o (ts : Z) (scs : list (scan.vectorScanner It)) :
  map scan.signature (map (spec.advance o ts) scs) = map scan.signature scs
  /\ map scan.labels (map (spec.advance o ts) scs) = map scan.labels scs.
Proof. rewrite !map_map. split; reflexivity. Qed.

(** X1: every step vector [Next] delivers holds, in scanner order, the signature
    and the value of each series that has a point at that step: the values
    [selectPoint] finds when the series' iterator is taken through the steps
    of the batch.  Its first step is the cursor. *)
Theorem Next_batch_by_step o (o1 : scan.vectorSelector Raw It) :
  scan.loadSeries o = (None, o1) ->
  ~ spec.exhausted o ->
  exists (vectors : list StepVector) (o' : scan.vectorSelector Raw It),
    scan.Next o = Return (Ok vectors, o')
    /\ (forall (k : nat) (sv : StepVector),
          vectors !! k = Some sv ->
          SampleIDs sv = omap (fun sc => spec.idAt o1 sc k) (scan.scanners o1)
          /\ Samples sv = omap (fun sc => spec.pointAt o1 sc k) (scan.scanners o1))
    /\ (forall sc, 0 < scan.numSteps o ->
          spec.pointAt o1 sc 0
          = snd <$> (scan.selectPoint (scan.samples sc) (scan.currentStep o)
                       (scan.lookbackDelta o) (scan.offset o)).1)
    /\ scan.scanners o'
       = map (spec.advance o1 (scan.currentStep o1)) (scan.scanners o1).
Proof.
  intros Hload Hnex.
  destruct (Next_batchOf o o1 Hload Hnex) as (o' & Hrun & Hscs & _).
  exists (spec.batchOf o1), o'. split; [exact Hrun|].
  split; [apply batchOf_steps|]. split; [|exact Hscs].
  intros sc Hnum.
  destruct (loadSeries_window o) as (Hmaxt & Hcs & _ & Hn). rewrite Hload in *.
  cbn [snd] in *. unfold spec.pointAt, spec.rowPoint, spec.rowOf.
  rewrite Hn, Hcs. destruct (Z.to_nat (scan.numSteps o)) as [|n] eqn:Hnat; [lia|].
  cbn [spec.pointsOf]. unfold spec.exhausted in Hnex.
  rewrite Hmaxt, (proj2 (Z.leb_le _ _)) by lia.
  assert (Hlb : scan.lookbackDelta o1 = scan.lookbackDelta o
                /\ scan.offset o1 = scan.offset o).
  { unfold scan.loadSeries in Hload. destruct (scan.once o); [injection Hload as <-; auto|].
    destruct (scan.storage o _ _); [|discriminate]. injection Hload as <-. auto. }
  destruct Hlb as [-> ->].
  destruct (scan.selectPoint (scan.samples sc) _ _ _) as [pt it1].
  destruct (spec.pointsOf o1 n _ it1). reflexivity.
Qed.

(** X2: the step vectors [Next] delivers are well formed: the two arrays have
    the same length, and the IDs are signatures of the scanners, in scanner
    order, each scanner at most once. *)
Theorem Next_vectors_well_formed o (vectors : list StepVector)
    (o' : scan.vectorSelector Raw It) :
  scan.Next o = Return (Ok vectors, o') ->
  forall sv : StepVector, sv ∈ vectors ->
    length (SampleIDs sv) = length (Samples sv)
    /\ SampleIDs sv `sublist_of` map scan.signature (scan.scanners o')
    /\ (NoDup (map scan.signature (scan.scanners o')) -> NoDup (SampleIDs sv)).
Proof.
  intros Hrun sv Hsv.
  assert (Hmain : length (SampleIDs sv) = length (Samples sv)
                  /\ SampleIDs sv `sublist_of` map scan.signature (scan.scanners o')).
  { destruct (Next_inversion o vectors o' Hrun)
      as [(_ & -> & _)|(_ & o1 & _ & -> & Hscs)]; [inversion Hsv|].
    apply list_elem_of_lookup in Hsv as [k Hk].
    destruct (proj2 (batchOf_steps o1) k sv Hk) as [-> ->].
    rewrite Hscs, (proj1 (advance_signatures _ _ _)).
    destruct (idAt_sublist o1 k (scan.scanners o1)) as [Hsub Hlen]. auto. }
  destruct Hmain as [Hlen Hsub]. repeat split; [exact Hlen|exact Hsub|].
  intros Hnodup. exact (sublist_NoDup _ _ Hnodup Hsub).
Qed.

(** X3: no value [Next] delivers is the stale marker. *)
Theorem Next_never_stale o (vectors : list StepVector)
    (o' : scan.vectorSelector Raw It) :
  scan.Next o = Return (Ok vectors, o') ->
  forall (sv : StepVector) (v : float64),
    sv ∈ vectors -> v ∈ Samples sv -> scan.IsStaleNaN v = false.
Proof.
  intros Hrun sv v Hsv Hv.
  destruct (Next_inversion o vectors o' Hrun)
    as [(_ & -> & _)|(_ & o1 & _ & -> & _)]; [inversion Hsv|].
  apply list_elem_of_lookup in Hsv as [k Hk].
  destruct (proj2 (batchOf_steps o1) k sv Hk) as [_ Hvals]. rewrite Hvals in Hv.
  apply list_elem_of_omap in Hv as (sc & _ & Hpt).
  unfold spec.pointAt, spec.rowPoint in Hpt.
  destruct (spec.rowOf o1 sc !! k) as [[t0 pt]|] eqn:Hrow; [|discriminate].
  subst pt. exact (pointsOf_not_stale _ _ _ _ _ _ _ Hrow).
Qed.

(** *** The length of a batch *)

Lemma stepsRun_window o (o1 : scan.vectorSelector Raw It) (remaining : nat) :
  scan.maxt o1 = scan.maxt o -> scan.step o1 = scan.step o ->
  forall seriesTs : Z,
    spec.stepsRun o1 remaining seriesTs = spec.stepsRun o remaining seriesTs.
Proof.
  intros Hmaxt Hstep. induction remaining as [|remaining IH]; intros seriesTs;
    cbn [spec.stepsRun]; [reflexivity|].
  rewrite Hmaxt, Hstep, IH. reflexivity.
Qed.

Lemma stepsRun_zero_step o (remaining : nat) (seriesTs : Z) :
  scan.step o = 0 -> int64_range seriesTs -> seriesTs <= scan.maxt o ->
  spec.stepsRun o remaining seriesTs = remaining.
Proof.
  intros Hstep Hr Hle. induction remaining as [|remaining IH]; cbn [spec.stepsRun];
    [reflexivity|].
  rewrite (proj2 (Z.leb_le _ _)) by exact Hle.
  rewrite Hstep. unfold add64. rewrite Z.add_0_r, (wrap64_id _ Hr), IH. reflexivity.
Qed.

Lemma stepsRun_positive_step o (remaining : nat) :
  0 < scan.step o -> scan.maxt o + scan.step o <= max_int64 ->
  forall seriesTs : Z,
    min_int64 <= seriesTs ->
    Z.of_nat (spec.stepsRun o remaining seriesTs)
    = Z.max 0 (Z.min (Z.of_nat remaining)
                 ((scan.maxt o - seriesTs) / scan.step o + 1)).
Proof.
  intros Hstep Hmax. induction remaining as [|remaining IH]; intros seriesTs Hmin;
    cbn [spec.stepsRun].
  - assert (Hq : (scan.maxt o - seriesTs) / scan.step o + 1 <= 0
                 \/ 0 <= (scan.maxt o - seriesTs) / scan.step o + 1) by lia.
    lia.
  - destruct (Z.leb_spec seriesTs (scan.maxt o)) as [Hle|Hgt].
    + assert (Hnext : add64 seriesTs (scan.step o) = seriesTs + scan.step o).
      { apply wrap64_id. unfold int64_range, min_int64, max_int64 in *. lia. }
      rewrite Hnext, Nat2Z.inj_succ, IH by lia.
      replace (scan.maxt o - (seriesTs + scan.step o))
        with (scan.maxt o - seriesTs + (-1) * scan.step o) by lia.
      rewrite Z.div_add by lia.
      assert (Hq : 0 <= (scan.maxt o - seriesTs) / scan.step o)
        by (apply Z.div_pos; lia).
      lia.
    + assert (Hq : (scan.maxt o - seriesTs) / scan.step o < 0)
        by (apply Z.div_lt_upper_bound; lia).
      lia.
Qed.

(** X4: the number of step vectors in a batch.  A scan without series delivers
    an empty batch.  Otherwise a batch has [numSteps] vectors when the step
    is zero, and for a positive step as many as there are steps from the
    cursor to the end time, at most [numSteps]. *)
Theorem Next_batch_length o (vectors : list StepVector)
    (o' : scan.vectorSelector Raw It) :
  scan.Next o = Return (Ok vectors, o') ->
  ~ spec.exhausted o ->
  int64_range (scan.currentStep o) ->
  (scan.scanners o' = [] -> vectors = [])
  /\ (scan.scanners o' <> [] -> scan.step o = 0 ->
      length vectors = Z.to_nat (scan.numSteps o))
  /\ (scan.scanners o' <> [] -> 0 < scan.step o ->
      scan.maxt o + scan.step o <= max_int64 ->
      Z.of_nat (length vectors)
      = Z.max 0 (Z.min (scan.numSteps o)
                   ((scan.maxt o - scan.currentStep o) / scan.step o + 1))).
Proof.
  intros Hrun Hnex Hcs.
  destruct (Next_inversion o vectors o' Hrun)
    as [(Hex & _)|(_ & o1 & Hload & -> & Hscs)]; [contradiction|].
  destruct (loadSeries_window o) as (Hmaxt & Hcs1 & Hstep & Hn).
  rewrite Hload in *. cbn [snd] in *.
  destruct (batchOf_steps o1) as [Hlen _].
  rewrite (stepsRun_window o o1 _ Hmaxt Hstep), Hn, Hcs1 in Hlen.
  unfold spec.exhausted in Hnex.
  assert (Hnil : scan.scanners o' = [] <-> scan.scanners o1 = []).
  { rewrite Hscs. destruct (scan.scanners o1); simpl; split; congruence. }
  split; [|split].
  - intros Ho'. apply Hnil in Ho'. rewrite Ho' in Hlen.
    destruct (spec.batchOf o1); [reflexivity|discriminate].
  - intros Hne Hzero. rewrite Hlen.
    destruct (scan.scanners o1); [exfalso; apply Hne, Hnil; reflexivity|].
    apply stepsRun_zero_step; [exact Hzero|exact Hcs|lia].
  - intros Hne Hpos Hmax. rewrite Hlen.
    destruct (scan.scanners o1); [exfalso; apply Hne, Hnil; reflexivity|].
    rewrite stepsRun_positive_step by (unfold int64_range in Hcs; lia).
    assert (Hq : 0 <= (scan.maxt o - scan.currentStep o) / scan.step o)
      by (apply Z.div_pos; lia).
    lia.
Qed.

(** *** Errors and memoization of the series set *)

(** A call of [Next] on a loaded scan changes the cursor, the step and the
    iterators, and nothing else. *)
Lemma Next_frame o (r : result (list StepVector)) (o' : scan.vectorSelector Raw It) :
  scan.once o = true ->
  scan.Next o = Return (r, o') ->
  scan.once o' = true
  /\ scan.series o' = scan.series o
  /\ map scan.labels (scan.scanners o') = map scan.labels (scan.scanners o)
  /\ map scan.signature (scan.scanners o') = map scan.signature (scan.scanners o)
  /\ scan.vectorPool o' = scan.vectorPool o
  /\ scan.maxt o' = scan.maxt o /\ scan.mint o' = scan.mint o
  /\ scan.lookbackDelta o' = scan.lookbackDelta o /\ scan.offset o' = scan.offset o
  /\ scan.numSteps o' = scan.numSteps o.
Proof.
  intros Honce Hrun. unfold scan.Next, scan.loadSeries in Hrun. rewrite Honce in Hrun.
  destruct (scan.maxt o <? scan.currentStep o).
  - injection Hrun as <- <-. auto 12.
  - rewrite scanLoop_mergeRows in Hrun. cbn [mbind outcome_bind bind] in Hrun.
    injection Hrun as <- <-.
    cbn [scan.once scan.series scan.scanners scan.vectorPool scan.maxt scan.mint
         scan.lookbackDelta scan.offset scan.numSteps].
    destruct (advance_signatures o (scan.currentStep o) (scan.scanners o)) as [Hs Hl].
    auto 12.
Qed.

Lemma iterNext_frame (n : nat) :
  forall o (o' : scan.vectorSelector Raw It),
    scan.once o = true ->
    spec.iterNext n o = Return o' ->
    scan.once o' = true
    /\ scan.series o' = scan.series o
    /\ map scan.labels (scan.scanners o') = map scan.labels (scan.scanners o)
    /\ map scan.signature (scan.scanners o') = map scan.signature (scan.scanners o).
Proof.
  induction n as [|n IH]; intros o o' Honce Hiter; simpl in Hiter.
  - injection Hiter as <-. auto.
  - destruct (scan.Next o) as [[r o1]|] eqn:Hrun; [|discriminate].
    destruct (Next_frame o r o1 Honce Hrun) as (Honce1 & Hser & Hlab & Hsig & _).
    destruct (IH o1 o' Honce1 Hiter) as (? & ? & ? & ?).
    repeat split; congruence.
Qed.

(** X5: the series set is loaded once and then kept: when the storage resolves
    the series, [Series] returns their label sets in the storage's order and
    tells the pool how many there are; after that, and after any number of
    calls of [Next], [Series] returns the same label sets and changes
    nothing, and the scanners still carry the storage's labels and
    signatures. *)
Theorem Series_memoized o (ss : list (scan.SignedSeries Raw)) :
  scan.once o = false ->
  scan.storage o (scan.shard o) (scan.numShards o) = Ok ss ->
  exists o1 : scan.vectorSelector Raw It,
    scan.Series o = Return (Ok (map scan.sLabels ss), o1)
    /\ stepSize (scan.vectorPool o1) = length ss
    /\ forall (n : nat) (o2 : scan.vectorSelector Raw It),
         spec.iterNext n o1 = Return o2 ->
         scan.Series o2 = Return (Ok (map scan.sLabels ss), o2)
         /\ map scan.labels (scan.scanners o2) = map scan.sLabels ss
         /\ map scan.signature (scan.scanners o2) = map scan.Signature ss.
Proof.
  intros Honce Hst. unfold scan.Series at 1, scan.loadSeries. rewrite Honce, Hst.
  eexists. split; [reflexivity|]. split; [reflexivity|].
  intros n o2 Hiter.
  apply iterNext_frame in Hiter as (Honce2 & Hser & Hlab & Hsig); [|reflexivity].
  cbn [scan.series scan.scanners] in Hser, Hlab, Hsig.
  rewrite !map_map in Hlab, Hsig. cbn [scan.labels scan.signature] in Hlab, Hsig.
  split; [|split; assumption].
  unfold scan.Series, scan.loadSeries. rewrite Honce2, Hser. reflexivity.
Qed.

(** X6: errors come from the storage only, and only out of the call that runs
    the initialization: [Series] returns an error exactly when the series
    are not loaded yet and the storage fails, [Next] exactly when in
    addition the cursor is not past the end time; the error is the
    storage's, and the call changes nothing but the once flag. *)
Theorem scan_error_iff o (e : error) (o' : scan.vectorSelector Raw It) :
  (scan.Series o = Return (Err e, o')
   <-> scan.once o = false
       /\ scan.storage o (scan.shard o) (scan.numShards o) = Err e
       /\ o' = (scan.loadSeries o).2)
  /\ (scan.Next o = Return (Err e, o')
      <-> ~ spec.exhausted o
          /\ scan.once o = false
          /\ scan.storage o (scan.shard o) (scan.numShards o) = Err e
          /\ o' = (scan.loadSeries o).2)
  /\ (scan.once o = false ->
      scan.storage o (scan.shard o) (scan.numShards o) = Err e ->
      let o1 := (scan.loadSeries o).2 in
      scan.once o1 = true /\ scan.series o1 = scan.series o
      /\ scan.scanners o1 = scan.scanners o
      /\ scan.currentStep o1 = scan.currentStep o /\ scan.step o1 = scan.step o).
Proof.
  split; [|split].
  - unfold scan.Series, scan.loadSeries. destruct (scan.once o).
    + split; [discriminate|]. intros (? & _). discriminate.
    + destruct (scan.storage o _ _) as [ss|e0].
      * split; [discriminate|]. intros (_ & ? & _). discriminate.
      * split.
        -- intros [= <- <-]. auto.
        -- intros (_ & [= <-] & ->). reflexivity.
  - unfold spec.exhausted, scan.Next.
    destruct (Z.ltb_spec (scan.maxt o) (scan.currentStep o)) as [Hex|Hnex].
    + split; [discriminate|]. intros (Hn & _). lia.
    + unfold scan.loadSeries. destruct (scan.once o).
      * rewrite scanLoop_mergeRows. cbn [mbind outcome_bind bind].
        split; [discriminate|]. intros (_ & ? & _). discriminate.
      * destruct (scan.storage o _ _) as [ss|e0].
        -- rewrite scanLoop_mergeRows. cbn [mbind outcome_bind bind].
           split; [discriminate|]. intros (_ & _ & ? & _). discriminate.
        -- split.
           ++ intros [= <- <-]. repeat split; auto. lia.
           ++ intros (_ & _ & [= <-] & ->). reflexivity.
  - intros Honce Hst. unfold scan.loadSeries. rewrite Honce, Hst. simpl. auto.
Qed.

End ScanBatch.

(** * The operators on explicit inputs *)

Section Concrete.

Import examples.
Local Open Scope Z_scope.

(** Evaluate the left-hand side of an equation, then compare. *)
Ltac run_lhs :=
  match goal with
  | |- ?lhs = _ =>
      let v := eval vm_compute in lhs in
      transitivity v; [vm_compute; reflexivity | reflexivity]
  end.

#[local] Instance listIterator_contract
  : spec.SeekContract (Raw := list (Z * float64)) (It := listIterator).
Proof.
  intros ts it it'. simpl. destruct it as [bef ahd]. simpl.
  revert bef. induction ahd as [|s rest IH]; intros bef Hseek; simpl in Hseek.
  - discriminate.
  - destruct (Z.ltb_spec (fst s) ts) as [Hlt|Hge].
    + apply (IH _ Hseek).
    + injection Hseek as <-. simpl. exact Hge.
Qed.

#[local] Instance scan_pool_contract {Raw It : Type} `{!scan.SeriesIterator Raw It}
  : spec.PoolContract (scan.vectorSelector Raw It).
Proof. intros f x. reflexivity. Qed.

(** The examples of the specification: with a lookback of 300000 ms a sole
    sample 100000 ms before the query time is found, one 400000 ms before it
    is not. *)
Example selectPoint_within_lookback :
  fst (scan.selectPoint {| before := []; ahead := [(-100000, 5%N)] |} 0 300000 0)
  = Some (-100000, 5%N).
Proof. reflexivity. Qed.

Example selectPoint_beyond_lookback :
  fst (scan.selectPoint {| before := []; ahead := [(-400000, 5%N)] |} 0 300000 0) = None.
Proof. reflexivity. Qed.

Example selectPoint_stale_only :
  fst (scan.selectPoint {| before := []; ahead := [(0, scan.StaleNaN)] |} 0 300000 0) = None.
Proof. reflexivity. Qed.



Lemma Next_step_aligned_witness :
  exists (r : result (list StepVector)) o',
    scan.Next (scanOf [seriesA; seriesB] range3) = Return (r, o')
    /\ forall vectors, r = Ok vectors ->
       forall (i : nat) (sv : StepVector), vectors !! i = Some sv ->
         T sv = wrap64 (0 + Z.of_nat i * 5)
         /\ (int64_range (0 + Z.of_nat i * 5) -> T sv = 0 + Z.of_nat i * 5)
         /\ (5 = 0 -> T sv = 0).
Proof.
  apply (Next_step_aligned (scanOf [seriesA; seriesB] range3)).
  vm_compute. split; discriminate.
Defined.

Example Next_range3 :
  exists o',
    scan.Next (scanOf [seriesA; seriesB] range3)
    = Return (Ok [ {| T := 0; SampleIDs := [11; 22]%N; Samples := [5; 2]%N |};
                   {| T := 5; SampleIDs := [11; 22]%N; Samples := [5; 2]%N |};
                   {| T := 10; SampleIDs := [11; 22]%N; Samples := [5; 2]%N |} ], o').
Proof. eexists. run_lhs. Qed.

Lemma scan_terminates_witness :
  spec.terminates (scanOf [seriesA] instant)
  /\ spec.terminates (scanOf [seriesA; seriesB] range3).
Proof.
  split.
  - apply (scan_terminates (scanOf [seriesA] instant)).
    vm_compute. repeat split; discriminate.
  - apply (scan_terminates (scanOf [seriesA; seriesB] range3)).
    vm_compute. repeat split; discriminate.
Defined.

(** With the end time at the largest [int64] the cursor is never past it:
    no number of calls of [Next] exhausts the scan.  And with a negative
    step a delivered batch moves the cursor backwards. *)
Lemma scan_endless_window :
  ~ spec.terminates (scanOf [seriesA] endless)
  /\ exists vectors o',
      scan.Next (scanOf [seriesA] (window 0 10 (-1000) 1)) = Return (Ok vectors, o')
      /\ scan.currentStep o' = -1000
      /\ ~ (scan.currentStep (scanOf [seriesA] (window 0 10 (-1000) 1))
            < scan.currentStep o').
Proof.
  split.
  - intros (n & o' & Hiter & Hex).
    apply (max_end_never_exhausted n (scanOf [seriesA] endless) o') in Hiter;
      [contradiction|reflexivity|].
    vm_compute. discriminate.
  - eexists _, _. split; [run_lhs|]. split; [reflexivity|].
    vm_compute. intros Hlt. discriminate Hlt.
Qed.

(** The end-to-end example of the specification: [a + on(job) b] over one
    series on each side yields a single output series labelled [job="x"]. *)
Example Series_on_job :
  exists b',
    binary.Series (joinOf (scanOf [seriesA] instant) (scanOf [seriesB] instant)
                     (onJob binary.CardOneToOne []))
    = Return (Ok [[lbl "job" "x"]], b').
Proof. eexists. run_lhs. Qed.



Lemma join_dense_ids_witness :
  exists (output : list Series) (hi : list (option N)) (lo : list (list N)),
    binary.join (binary.hashSeries joinXY highXY false).1
      (binary.hashSeries joinXY highXY false).2
      (binary.hashSeries joinXY lowXY false).1
      (binary.hashSeries joinXY lowXY false).2 []
    = Return (output, hi, lo)
    /\ map ID output = map N.of_nat (seq 0 (length output))
    /\ length output = spec.matched joinXY false highXY lowXY
    /\ length output = 2%nat.
Proof.
  destruct (join_dense_ids joinXY false highXY lowXY []) as [Hdense Hreturns].
  destruct Hreturns as (output & hi & lo & Hrun).
  { apply (bool_decide_unpack _). vm_compute. exact I. }
  exists output, hi, lo. split; [exact Hrun|].
  destruct (Hdense output hi lo Hrun) as [Hids Hlen].
  split; [exact Hids|]. split; [exact Hlen|].
  rewrite Hlen. vm_compute. reflexivity.
Defined.

(** For the many-to-one class the series sets are not swapped: the lhs
    stays the high cardinality side, as the sizing hint of two shows for an
    lhs of two series and an rhs of one. *)
Lemma cardSides_many_to_one_not_swapped :
  binary.cardSides binary.CardManyToOne [scan.sLabels seriesA] [scan.sLabels seriesB]
  = ([scan.sLabels seriesA], [scan.sLabels seriesB])
  /\ binary.cardSides binary.CardManyToOne [scan.sLabels seriesA] [scan.sLabels seriesB]
     <> ([scan.sLabels seriesB], [scan.sLabels seriesA])
  /\ exists series_ b',
      binary.Series (joinOf (scanOf [manySide; manySide2] instant) (scanOf [oneSide] instant)
                       (onJob binary.CardManyToOne []))
      = Return (Ok series_, b')
      /\ stepSize (binary.pool b') = 2%nat.
Proof.
  split; [reflexivity|]. split; [vm_compute; discriminate|].
  eexists _, _. split; [run_lhs|reflexivity].
Qed.

(** After a failed initialization the scan's [Series] reports the error
    once; the next call reports success with the series set the operator
    started with. *)
Lemma scan_Series_error_once {Raw It : Type} `{!scan.SeriesIterator Raw It}
    (o : scan.vectorSelector Raw It) (e : error) :
  scan.once o = false ->
  scan.storage o (scan.shard o) (scan.numShards o) = Err e ->
  exists o1,
    scan.Series o = Return (Err e, o1)
    /\ scan.Series o1 = Return (Ok (scan.series o), o1).
Proof.
  intros Honce Hst. unfold scan.Series, scan.loadSeries.
  rewrite Honce, Hst. eexists. split; reflexivity.
Qed.

(** C1, on the code: when the storage fails, the first call of [Series]
    returns the error, which is then lost.  The second call returns a nil
    error and an empty series set, and [Next] delivers empty batches instead
    of the error; the binary operator above such a scan behaves the same. *)
Theorem init_error_returned_once :
  (exists o1 o2,
      scan.Series (failingScan "storage down" range3) = Return (Err "storage down", o1)
      /\ scan.Series o1 = Return (Ok [], o1)
      /\ scan.Next o1 = Return (Ok [], o2))
  /\ (exists b1 b2,
      binary.Series (joinOf (failingScan "storage down" range3) (scanOf [seriesB] range3)
                       (onJob binary.CardOneToOne []))
      = Return (Err "storage down", b1)
      /\ binary.Series b1 = Return (Ok [], b1)
      /\ binary.Next b1 = Return (Ok [], b2)).
Proof.
  split.
  - eexists _, _. split; [run_lhs|]. split; run_lhs.
  - eexists _, _. split; [run_lhs|]. split; run_lhs.
Qed.

(** C2, on the code: the low cardinality index has one slot per grouping
    signature, not one per series.  With three low cardinality series of
    which the first two share their signature, the index has two slots, and
    filing the outputs of the third series under its input ID 2 panics;
    with two series sharing one signature the join returns an index of a
    single slot, so the second series has none. *)
Theorem join_low_index_too_short :
  binary.Series (joinOf (scanOf highY instant) (scanOf lowDup instant)
                   (onJob binary.CardOneToOne []))
  = Panic
  /\ binary.join
       {[ 2%N := [ {| ID := 0; Metric := [lbl "job" "y"] |} ] ]}
       {[ 2%N := [0%N] ]}
       (<[ 1%N := [ {| ID := 0; Metric := [lbl "job" "x"] |};
                    {| ID := 1; Metric := [lbl "job" "x"] |} ] ]>
          {[ 2%N := [ {| ID := 2; Metric := [lbl "job" "y"] |} ] ]})
       (<[ 1%N := [0%N; 1%N] ]> {[ 2%N := [2%N] ]})
       []
     = Panic
  /\ binary.join
       {[ 1%N := [ {| ID := 0; Metric := [lbl "job" "x"] |} ] ]}
       {[ 1%N := [0%N] ]}
       {[ 1%N := [ {| ID := 0; Metric := [lbl "job" "x"] |};
                   {| ID := 1; Metric := [lbl "job" "x"] |} ] ]}
       {[ 1%N := [0%N; 1%N] ]}
       []
     = Return ([ {| ID := 0; Metric := [lbl "job" "x"] |} ], [Some 0%N], [[0%N]]).
Proof. repeat split; vm_compute; reflexivity. Qed.

(** Without include labels an output series carries the labels of its high
    cardinality series unchanged. *)
Lemma buildOutputSeries_no_include (seriesID : N) (h l : Series) :
  Metric (binary.buildOutputSeries seriesID h l []) = Metric h.
Proof. reflexivity. Qed.

(** C8, on the code: the included labels are appended behind the labels of
    the high cardinality series, so the output label set is not sorted by
    name when an included name sorts before one of them. *)
Theorem include_labels_unsorted :
  Metric (binary.buildOutputSeries 0
            {| ID := 0; Metric := [lbl "instance" "i1"; lbl "job" "x"] |}
            {| ID := 0; Metric := [lbl "env" "prod"; lbl "job" "x"] |}
            ["env"%string])
  = [lbl "instance" "i1"; lbl "job" "x"; lbl "env" "prod"]
  /\ ~ labels.sorted_by_name [lbl "instance" "i1"; lbl "job" "x"; lbl "env" "prod"]
  /\ exists b',
      binary.Series (joinOf (scanOf [manySide] instant) (scanOf [oneSide] instant)
                       (onJob binary.CardManyToOne ["env"%string]))
      = Return (Ok [[lbl "instance" "i1"; lbl "job" "x"; lbl "env" "prod"]], b').
Proof.
  split; [vm_compute; reflexivity|]. split.
  - intros Hsorted.
    specialize (Hsorted 1%nat 2%nat (lbl "job" "x") (lbl "env" "prod")
                  eq_refl eq_refl (le_n 2)).
    vm_compute in Hsorted. discriminate.
  - eexists. run_lhs.
Qed.

(** The extended properties on explicit inputs. *)

Lemma Next_batch_by_step_witness :
  let o := scanOf [seriesA; seriesStale] range3 in
  let o1 := (scan.loadSeries o).2 in
  exists (vectors : list StepVector)
         (o' : scan.vectorSelector (list (Z * float64)) listIterator),
    scan.Next o = Return (Ok vectors, o')
    /\ (forall (k : nat) (sv : StepVector),
          vectors !! k = Some sv ->
          SampleIDs sv = omap (fun sc => spec.idAt o1 sc k) (scan.scanners o1)
          /\ Samples sv = omap (fun sc => spec.pointAt o1 sc k) (scan.scanners o1))
    /\ (forall sc, 0 < scan.numSteps o ->
          spec.pointAt o1 sc 0
          = snd <$> (scan.selectPoint (scan.samples sc) (scan.currentStep o)
                       (scan.lookbackDelta o) (scan.offset o)).1)
    /\ scan.scanners o'
       = map (spec.advance o1 (scan.currentStep o1)) (scan.scanners o1).
Proof.
  intros o o1. apply (Next_batch_by_step o o1).
  - vm_compute. reflexivity.
  - vm_compute. intros Hlt. discriminate Hlt.
Defined.

(** The stale sample of the second series is left out of the first step. *)
Example Next_stale_left_out :
  exists o',
    scan.Next (scanOf [seriesA; seriesStale] range3)
    = Return (Ok [ {| T := 0; SampleIDs := [11]%N; Samples := [5]%N |};
                   {| T := 5; SampleIDs := [11; 33]%N; Samples := [5; 4]%N |};
                   {| T := 10; SampleIDs := [11; 33]%N; Samples := [5; 4]%N |} ], o').
Proof. eexists. run_lhs. Qed.

Lemma Next_vectors_well_formed_witness :
  exists (vectors : list StepVector)
         (o' : scan.vectorSelector (list (Z * float64)) listIterator),
    scan.Next (scanOf [seriesA; seriesStale] range3) = Return (Ok vectors, o')
    /\ forall sv : StepVector, sv ∈ vectors ->
         length (SampleIDs sv) = length (Samples sv)
         /\ SampleIDs sv `sublist_of` map scan.signature (scan.scanners o')
         /\ (NoDup (map scan.signature (scan.scanners o')) -> NoDup (SampleIDs sv)).
Proof.
  eexists _, _. split; [run_lhs|].
  eapply (Next_vectors_well_formed (scanOf [seriesA; seriesStale] range3)).
  run_lhs.
Defined.

Lemma Next_never_stale_witness :
  exists (vectors : list StepVector)
         (o' : scan.vectorSelector (list (Z * float64)) listIterator),
    scan.Next (scanOf [seriesA; seriesStale] range3) = Return (Ok vectors, o')
    /\ forall (sv : StepVector) (v : float64),
         sv ∈ vectors -> v ∈ Samples sv -> scan.IsStaleNaN v = false.
Proof.
  eexists _, _. split; [run_lhs|].
  eapply (Next_never_stale (scanOf [seriesA; seriesStale] range3)).
  run_lhs.
Defined.

Lemma Next_batch_length_witness :
  let o := scanOf [seriesA; seriesB] (window 0 10 5 7) in
  exists (vectors : list StepVector)
         (o' : scan.vectorSelector (list (Z * float64)) listIterator),
    scan.Next o = Return (Ok vectors, o')
    /\ (scan.scanners o' = [] -> vectors = [])
    /\ (scan.scanners o' <> [] -> scan.step o = 0 ->
        length vectors = Z.to_nat (scan.numSteps o))
    /\ (scan.scanners o' <> [] -> 0 < scan.step o ->
        scan.maxt o + scan.step o <= max_int64 ->
        Z.of_nat (length vectors)
        = Z.max 0 (Z.min (scan.numSteps o)
                     ((scan.maxt o - scan.currentStep o) / scan.step o + 1))).
Proof.
  intros o. eexists _, _. split; [run_lhs|].
  eapply (Next_batch_length o).
  - run_lhs.
  - vm_compute. intros Hlt. discriminate Hlt.
  - vm_compute. split; intros Hgt; discriminate Hgt.
Defined.

Lemma Series_memoized_witness :
  let o := scanOf [seriesA; seriesB] range3 in
  exists o1 : scan.vectorSelector (list (Z * float64)) listIterator,
    scan.Series o = Return (Ok (map scan.sLabels [seriesA; seriesB]), o1)
    /\ stepSize (scan.vectorPool o1) = length [seriesA; seriesB]
    /\ forall (n : nat) (o2 : scan.vectorSelector (list (Z * float64)) listIterator),
         spec.iterNext n o1 = Return o2 ->
         scan.Series o2 = Return (Ok (map scan.sLabels [seriesA; seriesB]), o2)
         /\ map scan.labels (scan.scanners o2) = map scan.sLabels [seriesA; seriesB]
         /\ map scan.signature (scan.scanners o2)
            = map scan.Signature [seriesA; seriesB].
Proof.
  intros o. apply (Series_memoized o [seriesA; seriesB]); reflexivity.
Defined.


Lemma join_indexes_witness :
  exists (output : list Series) (hi : list (option N)) (lo : list (list N)),
    binary.join (binary.hashSeries joinXY highXY false).1
      (binary.hashSeries joinXY highXY false).2
      (binary.hashSeries joinXY lowXY false).1
      (binary.hashSeries joinXY lowXY false).2 []
    = Return (output, hi, lo)
    /\ length hi = length highXY
    /\ (forall k,
          k ∈ map (spec.sigOf joinXY false) highXY ->
          k ∈ map (spec.sigOf joinXY false) lowXY ->
          exists (start j : nat) (t : labels.Labels),
            head (spec.groupOf joinXY false k 0 lowXY) = Some (j, t)
            /\ lo !! j
               = Some (spec.newIDs start (length (spec.groupOf joinXY false k 0 highXY)))
            /\ forall (n i : nat) (s : labels.Labels),
                 spec.groupOf joinXY false k 0 highXY !! n = Some (i, s) ->
                 hi !! i = Some (Some (N.of_nat (start + n)))
                 /\ output !! (start + n)%nat
                    = Some (binary.buildOutputSeries (N.of_nat (start + n))
                              (spec.entryOf joinXY false (i, s))
                              (spec.entryOf joinXY false (j, t)) []))
    /\ (forall (i : nat) (s : labels.Labels),
          highXY !! i = Some s ->
          spec.sigOf joinXY false s ∉ map (spec.sigOf joinXY false) lowXY ->
          hi !! i = Some None)
    /\ (forall (j : nat) (ids : list N),
          lo !! j = Some ids -> ids <> [] ->
          exists t : labels.Labels,
            head (spec.groupOf joinXY false (spec.sigOf joinXY false t) 0 lowXY)
            = Some (j, t)
            /\ spec.sigOf joinXY false t ∈ map (spec.sigOf joinXY false) highXY).
Proof.
  eexists _, _, _. split; [run_lhs|].
  apply (join_indexes joinXY false highXY lowXY []).
  run_lhs.
Defined.

(** The indexes of the example: the series with [job] x and y are joined,
    the one with [job] z is not. *)
Example join_indexes_XY :
  exists output,
    binary.join (binary.hashSeries joinXY highXY false).1
      (binary.hashSeries joinXY highXY false).2
      (binary.hashSeries joinXY lowXY false).1
      (binary.hashSeries joinXY lowXY false).2 []
    = Return (output, [Some 0%N; Some 1%N; None], [[1%N]; [0%N]])
    /\ map Metric output = [[lbl "job" "x"]; [lbl "job" "y"]].
Proof. eexists. split; [run_lhs|reflexivity]. Qed.

Lemma binary_Series_outputs_witness :
  let b := joinOf (scanOf [seriesA] instant) (scanOf [seriesB] instant)
             (onJob binary.CardOneToOne []) in
  let lhsSeries := [scan.sLabels seriesA] in
  let rhsSeries := [scan.sLabels seriesB] in
  exists (l' r' : scan.vectorSelector (list (Z * float64)) listIterator),
    let keepLabels :=
      negb (bool_decide (binary.Card (binary.matching b) = binary.CardOneToOne)) in
    let highCardSide :=
      (binary.cardSides (binary.Card (binary.matching b)) lhsSeries rhsSeries).1 in
    let lowCardSide :=
      (binary.cardSides (binary.Card (binary.matching b)) lhsSeries rhsSeries).2 in
    (forall e b', binary.Series b <> Return (Err e, b'))
    /\ (NoDup (map (spec.sigOf b keepLabels) lowCardSide) ->
        exists series_ b', binary.Series b = Return (Ok series_, b'))
    /\ forall series_ b',
         binary.Series b = Return (Ok series_, b') ->
         (exists (output : list Series) (hi : list (option N)) (lo : list (list N)),
             binary.join (binary.hashSeries b highCardSide keepLabels).1
               (binary.hashSeries b highCardSide keepLabels).2
               (binary.hashSeries b lowCardSide keepLabels).1
               (binary.hashSeries b lowCardSide keepLabels).2
               (binary.Include (binary.matching b)) = Return (output, hi, lo)
             /\ series_ = map Metric output
             /\ binary.table_ b'
                = Some (binary.newTable (binary.pool b') (binary.Card (binary.matching b))
                          (binary.operation_ b) (binary.outputCache b') hi lo))
         /\ length series_ = spec.matched b keepLabels highCardSide lowCardSide
         /\ binary.series b' = series_
         /\ binary.outputCache b'
            = replicate (length series_) {| binary.t := -1; binary.v := 0%N |}
         /\ stepSize (binary.pool b') = length highCardSide
         /\ binary.once b' = true /\ binary.lhs b' = l' /\ binary.rhs b' = r'
         /\ binary.Series b' = Return (Ok series_, b').
Proof.
  intros b lhsSeries rhsSeries. eexists _, _.
  apply (binary_Series_outputs b lhsSeries rhsSeries).
  - reflexivity.
  - run_lhs.
  - run_lhs.
Defined.

(** A failed initialization on explicit inputs: the error is returned once,
    the next [Series] call returns no series and no error, and [Next] panics
    as soon as both inputs deliver. *)
Lemma binary_failed_init_witness :
  exists b',
    binary.Series brokenJoin = Return (Err "no series", b')
    /\ binary.Series b' = Return (Ok (binary.series brokenJoin), b')
    /\ binary.table_ b' = binary.table_ brokenJoin
    /\ binary.Next b' = Panic.
Proof.
  eexists. split; [run_lhs|].
  edestruct (binary_failed_init brokenJoin "no series") as (Hseries & Htable & Hpanic);
    [run_lhs|].
  split; [exact Hseries|]. split; [exact Htable|].
  eapply (Hpanic eq_refl); [run_lhs|run_lhs|discriminate|discriminate].
Defined.


End Concrete.
